(** * The Feishu streaming-card delivery engine and its caches

    A shallow embedding of
    - [extensions/feishu/src/client.ts]: [resolveDomain], the bounded
      client cache ([evictOldestIfNeeded], [createFeishuClient],
      [getFeishuClient], [clearClientCache], [getClientCacheSize]) and
      [createFeishuWSClient];
    - the streaming-card part of [extensions/feishu/src/dynamic-agent.ts]:
      [resolveApiBase], the token cache ([cleanupTokenCache], [getToken]),
      [truncateSummary] and the class [FeishuStreamingSession];
    - the agents of [dynamic-agent.ts]: [sanitizeForPath],
      [generateFriendlyAgentId], [resolveUserPath],
      [maybeCreateDynamicAgent] and [maybeCreateGroupUserAgent].

    Conventions.  A JS [number] holding a timestamp, a counter or a
    sequence value is a [Z].  A JS string is a [string]; [undefined] and
    [null] are [None].  [Date.now()] is an argument of the function that
    reads the clock.  The answer of an awaited request is an argument of
    the code that runs after the [await].  A function that can [throw]
    returns a [result].  Where calls of one method can overlap, the
    method is also given in parts, one for each stretch of code between
    two [await]s ([getToken_lookup] and [getToken_settle]; [start_enter],
    [start_token], [start_created] and [start_sent], scheduled by
    [move]). *)

From Stdlib Require Import ZArith String Ascii List Bool Lia.
From stdpp Require Import base option list gmap strings.

Local Open Scope string_scope.
Local Open Scope list_scope.

(** ** JavaScript values shared by the two source files *)

(** What the code throws, or what a rejected promise carries.  The
    constructors keep the parts of the message the source interpolates. *)
Inductive JsError : Type :=
| CredentialsNotConfigured (accountId : string)
| TokenError (msg : string)
| CreateCardFailed (msg : string)
| SendCardFailed (msg : string)
| HttpError (status : Z) (msg : string)
| HttpStatus (status : Z)
| Rejected (reason : string).

Inductive result (A : Type) : Type :=
| Ok (a : A)
| Throw (e : JsError).
Arguments Ok {A} a.
Arguments Throw {A} e.

Definition is_ok {A} (r : result A) : bool :=
  match r with Ok _ => true | Throw _ => false end.

(** The truth value JS gives to a string that may be undefined, as in
    [if (s)] and [!s]: true when there is a non-empty string. *)
Definition truthy (s : option string) : bool :=
  match s with
  | Some EmptyString => false
  | Some _ => true
  | None => false
  end.

(** [s.replace(/\/+$/, "")]: the run of slashes that ends the string is
    removed. *)
Fixpoint strip_trailing_slashes (s : string) : string :=
  match s with
  | EmptyString => EmptyString
  | String c r =>
      match strip_trailing_slashes r with
      | EmptyString => if Ascii.eqb c "/" then EmptyString else String c EmptyString
      | r' => String c r'
      end
  end.

(** [s.startsWith(p)] *)
Definition startsWith (p s : string) : bool := String.prefix p s.

(** A run of [n] slashes, and whether the last character of a string is a
    slash: the words in which the effect of [replace(/\/+$/, ...)] is
    stated. *)
Fixpoint slashes (n : nat) : string :=
  match n with
  | O => EmptyString
  | S n' => String "/" (slashes n')
  end.

Fixpoint ends_with_slash (s : string) : bool :=
  match s with
  | EmptyString => false
  | String c EmptyString => Ascii.eqb c "/"
  | String _ r => ends_with_slash r
  end.

(** ** [client.ts] *)

Module ClientCache.

Definition CLIENT_CACHE_MAX_SIZE : nat := 50.

(** [Lark.Domain | string], the [domain] option of [Lark.Client]. *)
Inductive LarkDomain : Type :=
| DomainFeishu
| DomainLark
| DomainCustom (url : string).

Record Config : Type := mkConfig {
  appId : string;
  appSecret : string;
  domain : option string
}.

(** [new Lark.Client({appId, appSecret, appType: SelfBuild, domain})] *)
Record LarkClient : Type := mkClient {
  cl_appId : string;
  cl_appSecret : string;
  cl_domain : LarkDomain
}.

Record Entry : Type := mkEntry {
  client : LarkClient;
  config : Config;
  lastAccess : Z
}.

(** The JS [Map]: keys in insertion order, no key twice. *)
Definition Cache : Type := list (string * Entry).

Fixpoint map_get (k : string) (c : Cache) : option Entry :=
  match c with
  | [] => None
  | (k', e) :: r => if String.eqb k k' then Some e else map_get k r
  end.

(** [Map.set]: an existing key keeps its place. *)
Fixpoint map_set (k : string) (e : Entry) (c : Cache) : Cache :=
  match c with
  | [] => [(k, e)]
  | (k', e') :: r =>
      if String.eqb k k' then (k, e) :: r else (k', e') :: map_set k e r
  end.

Fixpoint map_delete (k : string) (c : Cache) : Cache :=
  match c with
  | [] => []
  | (k', e') :: r => if String.eqb k k' then r else (k', e') :: map_delete k r
  end.

Definition keys (c : Cache) : list string := map fst c.

Definition resolveDomain (domain : option string) : LarkDomain :=
  match domain with
  | Some d =>
      if String.eqb d "lark" then DomainLark
      else if String.eqb d "feishu" || negb (truthy (Some d)) then DomainFeishu
      else DomainCustom (strip_trailing_slashes d)
  | None => DomainFeishu
  end.

(** The loop of [evictOldestIfNeeded]; [oldestTime = None] is
    [Infinity]. *)
Definition scan_step (acc : option string * option Z) (kv : string * Entry)
  : option string * option Z :=
  let '(oldestKey, oldestTime) := acc in
  let below := match oldestTime with
               | None => true
               | Some t => (lastAccess (snd kv) <? t)%Z
               end in
  if below then (Some (fst kv), Some (lastAccess (snd kv))) else acc.

Definition scan_oldest (c : Cache) : option string * option Z :=
  fold_left scan_step c (None, None).

Definition evictOldestIfNeeded (c : Cache) : Cache :=
  if (length c <? CLIENT_CACHE_MAX_SIZE)%nat then c
  else
    let oldestKey := fst (scan_oldest c) in
    if truthy oldestKey then
      match oldestKey with
      | Some k => map_delete k c
      | None => c
      end
    else c.

Record FeishuClientCredentials : Type := mkCreds {
  cr_accountId : option string;
  cr_appId : option string;
  cr_appSecret : option string;
  cr_domain : option string
}.

Definition option_string_eqb (a b : option string) : bool :=
  match a, b with
  | Some x, Some y => String.eqb x y
  | None, None => true
  | _, _ => false
  end.

(** [createFeishuClient(creds)], with [now] the value of [Date.now()].
    On a hit the cached entry gets the new [lastAccess] where it is. *)
Definition createFeishuClient (creds : FeishuClientCredentials) (now : Z) (c : Cache)
  : result LarkClient * Cache :=
  let accountId := default "default" (cr_accountId creds) in
  if negb (truthy (cr_appId creds)) || negb (truthy (cr_appSecret creds))
  then (Throw (CredentialsNotConfigured accountId), c)
  else
    let appId := default "" (cr_appId creds) in
    let appSecret := default "" (cr_appSecret creds) in
    let domain := cr_domain creds in
    let created :=
      let c1 := evictOldestIfNeeded c in
      let client := mkClient appId appSecret (resolveDomain domain) in
      (Ok client,
       map_set accountId (mkEntry client (mkConfig appId appSecret domain) now) c1) in
    match map_get accountId c with
    | Some cached =>
        if String.eqb (ClientCache.appId (config cached)) appId
           && String.eqb (ClientCache.appSecret (config cached)) appSecret
           && option_string_eqb (ClientCache.domain (config cached)) domain
        then
          (Ok (client cached),
           map_set accountId (mkEntry (client cached) (config cached) now) c)
        else created
    | None => created
    end.

Definition getClientCacheSize (c : Cache) : nat := length c.

(** A run of [createFeishuClient] calls from a given cache; the results
    of the calls are dropped, the cache is kept. *)
Definition create_all (calls : list (FeishuClientCredentials * Z)) (c : Cache) : Cache :=
  fold_left (fun c call => snd (createFeishuClient (fst call) (snd call) c)) calls c.

(** *** Vocabulary of the properties *)

(** What the loop has found after the entries [seen]: nothing when there
    was none, else the first entry among those of least [lastAccess]. *)
Definition scanned (seen : Cache) (acc : option string * option Z) : Prop :=
  match acc with
  | (Some k, Some t) =>
      exists e, (k, e) ∈ seen /\ lastAccess e = t
                /\ forall k' e', (k', e') ∈ seen -> (t <= lastAccess e')%Z
  | (None, None) => seen = []
  | _ => False
  end.

(** A cache as the module can hold it when no account id is the empty
    string: no key twice, no empty key, at most [CLIENT_CACHE_MAX_SIZE]
    entries. *)
Definition wf_cache (c : Cache) : Prop :=
  NoDup (keys c) /\ Forall (fun k => k <> "") (keys c)
  /\ (length c <= CLIENT_CACHE_MAX_SIZE)%nat.

(** The account ids [""], ["a"], ["aa"], ... *)
Definition account (n : nat) : string := string_of_list_ascii (repeat "a"%char n).

Definition creds_for (accountId : string) : FeishuClientCredentials :=
  mkCreds (Some accountId) (Some "cli_a") (Some "secret") None.

(** [n] calls, for the accounts [account k], [account (k+1)], ..., at the
    times [k], [k+1], ... *)
Definition calls_from (k n : nat) : list (FeishuClientCredentials * Z) :=
  map (fun i => (creds_for (account i), Z.of_nat i)) (seq k n).

(** The cache after the fifty accounts ["a"], ["aa"], ... were given a
    client at the times 1, 2, ..., 50. *)
Definition full_cache : Cache := Eval vm_compute in create_all (calls_from 1 50) [].


(** *** The other functions of the cache *)

(** [getFeishuClient(accountId)]; [now] is [Date.now()], read on a hit. *)
Definition getFeishuClient (accountId : string) (now : Z) (c : Cache)
  : option LarkClient * Cache :=
  match map_get accountId c with
  | Some cached =>
      (Some (client cached),
       map_set accountId (mkEntry (client cached) (config cached) now) c)
  | None => (None, c)
  end.

(** [clearClientCache(accountId)]: [if (accountId)] is false for
    [undefined] and for the empty string. *)
Definition clearClientCache (accountId : option string) (c : Cache) : Cache :=
  match accountId with
  | Some k => if truthy (Some k) then map_delete k c else []
  | None => []
  end.

(** The fields of [ResolvedFeishuAccount] that [createFeishuWSClient]
    reads. *)
Record ResolvedFeishuAccount : Type := mkAccount {
  acc_accountId : string;
  acc_appId : option string;
  acc_appSecret : option string;
  acc_domain : option string
}.

(** [new Lark.WSClient({appId, appSecret, domain, loggerLevel: info})] *)
Record WSClient : Type := mkWSClient {
  ws_appId : string;
  ws_appSecret : string;
  ws_domain : LarkDomain
}.

Definition createFeishuWSClient (account : ResolvedFeishuAccount) : result WSClient :=
  if negb (truthy (acc_appId account)) || negb (truthy (acc_appSecret account))
  then Throw (CredentialsNotConfigured (acc_accountId account))
  else Ok (mkWSClient (default "" (acc_appId account)) (default "" (acc_appSecret account))
             (resolveDomain (acc_domain account))).

(** A call of one of the exported functions that act on the cache. *)
Inductive CacheOp : Type :=
| OpCreate (creds : FeishuClientCredentials) (now : Z)
| OpGet (accountId : string) (now : Z)
| OpClear (accountId : option string).

Definition apply_op (c : Cache) (op : CacheOp) : Cache :=
  match op with
  | OpCreate creds now => snd (createFeishuClient creds now c)
  | OpGet accountId now => snd (getFeishuClient accountId now c)
  | OpClear accountId => clearClientCache accountId c
  end.

Definition apply_ops (ops : list CacheOp) (c : Cache) : Cache := fold_left apply_op ops c.

(** The call creates a client for the empty account id. *)
Definition creates_empty_id (op : CacheOp) : bool :=
  match op with
  | OpCreate creds _ => option_string_eqb (cr_accountId creds) (Some "")
  | _ => false
  end.

(** Credentials that [createFeishuClient] accepts. *)
Definition configured (creds : FeishuClientCredentials) : bool :=
  truthy (cr_appId creds) && truthy (cr_appSecret creds).

(** The account a call of [createFeishuClient] is for. *)
Definition account_of (creds : FeishuClientCredentials) : string :=
  default "default" (cr_accountId creds).

(** The entry [createFeishuClient] stores on a miss. *)
Definition entry_of (creds : FeishuClientCredentials) (now : Z) : Entry :=
  let appId := default "" (cr_appId creds) in
  let appSecret := default "" (cr_appSecret creds) in
  mkEntry (mkClient appId appSecret (resolveDomain (cr_domain creds)))
    (mkConfig appId appSecret (cr_domain creds)) now.

(** [createFeishuClient] once more, with the clients it constructs: the
    third component lists the calls of [new Lark.Client], which tells a
    hit, that returns the object held by the cache, from the construction
    of a client with the same fields. *)
Definition createFeishuClient_traced (creds : FeishuClientCredentials) (now : Z) (c : Cache)
  : result LarkClient * Cache * list LarkClient :=
  let accountId := default "default" (cr_accountId creds) in
  if negb (truthy (cr_appId creds)) || negb (truthy (cr_appSecret creds))
  then (Throw (CredentialsNotConfigured accountId), c, [])
  else
    let appId := default "" (cr_appId creds) in
    let appSecret := default "" (cr_appSecret creds) in
    let domain := cr_domain creds in
    let created :=
      let c1 := evictOldestIfNeeded c in
      let client := mkClient appId appSecret (resolveDomain domain) in
      (Ok client,
       map_set accountId (mkEntry client (mkConfig appId appSecret domain) now) c1,
       [client]) in
    match map_get accountId c with
    | Some cached =>
        if String.eqb (ClientCache.appId (config cached)) appId
           && String.eqb (ClientCache.appSecret (config cached)) appSecret
           && option_string_eqb (ClientCache.domain (config cached)) domain
        then
          (Ok (client cached),
           map_set accountId (mkEntry (client cached) (config cached) now) c,
           [])
        else created
    | None => created
    end.

End ClientCache.

(** ** The streaming card of [dynamic-agent.ts] *)

Module StreamingCard.

Local Open Scope Z_scope.

Record Credentials : Type := mkCredentials {
  appId : string;
  appSecret : string;
  domain : option string
}.

Record CardState : Type := mkCardState {
  cardId : string;
  messageId : string;
  sequence : Z;
  currentText : string
}.

(** *** API base *)

Definition FEISHU_API_BASE : string := "https://open.feishu.cn/open-apis".
Definition LARK_API_BASE : string := "https://open.larksuite.com/open-apis".

Definition resolveApiBase (domain : option string) : string :=
  match domain with
  | Some d =>
      if String.eqb d "lark" then LARK_API_BASE
      else if truthy (Some d) && negb (String.eqb d "feishu") && startsWith "http" d
           then strip_trailing_slashes d +:+ "/open-apis"
           else FEISHU_API_BASE
  | None => FEISHU_API_BASE
  end.

(** *** Token cache *)

Record TokenEntry : Type := mkTokenEntry {
  token : string;
  expiresAt : Z
}.

(** The two module-level variables [tokenCache] and
    [lastTokenCacheCleanup]. *)
Record TokenStore : Type := mkTokenStore {
  tokenCache : gmap string TokenEntry;
  lastTokenCacheCleanup : Z
}.

Definition TOKEN_CACHE_CLEANUP_INTERVAL_MS : Z := 5 * 60 * 1000.

Definition cleanupTokenCache (now : Z) (st : TokenStore) : TokenStore :=
  if now - lastTokenCacheCleanup st <? TOKEN_CACHE_CLEANUP_INTERVAL_MS then st
  else
    {| tokenCache :=
         filter (fun kv : string * TokenEntry => ¬ (expiresAt kv.2 < now)) (tokenCache st);
       lastTokenCacheCleanup := now |}.

(** The JSON body of the token endpoint's answer. *)
Record TokenResponse : Type := mkTokenResponse {
  tr_code : Z;
  tr_msg : string;
  tenant_access_token : option string;
  expire : option Z
}.

(** The POST to [{apiBase}/auth/v3/tenant_access_token/internal]. *)
Record TokenExchange : Type := mkTokenExchange {
  te_url : string;
  te_app_id : string;
  te_app_secret : string
}.

Definition token_key (creds : Credentials) : string :=
  default "feishu" (domain creds) +:+ "|" +:+ appId creds.

(** The request of the token exchange made for [creds]. *)
Definition exchange_request (creds : Credentials) : TokenExchange :=
  mkTokenExchange
    (resolveApiBase (domain creds) +:+ "/auth/v3/tenant_access_token/internal")
    (appId creds) (appSecret creds).

(** [getToken(creds)].  [now_cleanup] is the clock read by
    [cleanupTokenCache], [now_check] the one read by the test of the
    cached entry, [now_store] the one read after the exchange;
    [exchange] is what [fetch] and [res.json()] give, [Throw] when one
    of them rejects.  The third component lists the exchanges
    requested. *)
Definition getToken (creds : Credentials) (now_cleanup now_check : Z)
    (exchange : result TokenResponse) (now_store : Z) (st : TokenStore)
  : result string * TokenStore * list TokenExchange :=
  let st1 := cleanupTokenCache now_cleanup st in
  let key := token_key creds in
  let fresh :=
    match exchange with
    | Throw e => (Throw e, st1, [exchange_request creds])
    | Ok data =>
        if negb (tr_code data =? 0) || negb (truthy (tenant_access_token data))
        then (Throw (TokenError (tr_msg data)), st1, [exchange_request creds])
        else
          let tok := default "" (tenant_access_token data) in
          (Ok tok,
           {| tokenCache :=
                <[key := mkTokenEntry tok (now_store + default 7200 (expire data) * 1000)]>
                  (tokenCache st1);
              lastTokenCacheCleanup := lastTokenCacheCleanup st1 |},
           [exchange_request creds])
    end in
  match tokenCache st1 !! key with
  | Some cached =>
      if expiresAt cached >? now_check + 60000
      then (Ok (token cached), st1, [])
      else fresh
  | None => fresh
  end.

(** [getToken] is suspended twice, on [fetch] and on [res.json()], and
    other calls can read and write the cache meanwhile.  These are its two
    synchronous parts.  First, from the call to the [return] of a cached
    token, or to the request: the sweep, the lookup and the test of the
    entry. *)
Definition getToken_lookup (creds : Credentials) (now_cleanup now_check : Z)
    (st : TokenStore) : option string * TokenStore :=
  let st1 := cleanupTokenCache now_cleanup st in
  match tokenCache st1 !! token_key creds with
  | Some cached =>
      if expiresAt cached >? now_check + 60000
      then (Some (token cached), st1)
      else (None, st1)
  | None => (None, st1)
  end.

(** Second, from the answer of the exchange to the end, on the cache as
    it is then. *)
Definition getToken_settle (creds : Credentials) (exchange : result TokenResponse)
    (now_store : Z) (st : TokenStore) : result string * TokenStore :=
  match exchange with
  | Throw e => (Throw e, st)
  | Ok data =>
      if negb (tr_code data =? 0) || negb (truthy (tenant_access_token data))
      then (Throw (TokenError (tr_msg data)), st)
      else
        let tok := default "" (tenant_access_token data) in
        (Ok tok,
         {| tokenCache :=
              <[token_key creds :=
                  mkTokenEntry tok (now_store + default 7200 (expire data) * 1000)]>
                (tokenCache st);
            lastTokenCacheCleanup := lastTokenCacheCleanup st |})
  end.

(** The clock at the [return] of [getToken]: the check and the return
    of a cached token are in one synchronous run; a fresh token is
    returned in the run that reads [now_store]. *)
Definition return_time (now_check now_store : Z) (reqs : list TokenExchange) : Z :=
  match reqs with
  | [] => now_check
  | _ => now_store
  end.

(** "The returned token has at least 60 seconds of remaining validity at
    return time", for one call: the store holds the returned token with
    an expiry 60000 ms or more after the return. *)
Definition returns_fresh_token (creds : Credentials) (now_cleanup now_check : Z)
    (exchange : result TokenResponse) (now_store : Z) (st : TokenStore) : Prop :=
  let r := getToken creds now_cleanup now_check exchange now_store st in
  forall tok, r.1.1 = Ok tok ->
    exists e, tokenCache r.1.2 !! token_key creds = Some e
              /\ token e = tok
              /\ 60000 <= expiresAt e - return_time now_check now_store r.2.

(** Inputs of the examples: one application, an empty store, and an
    answer of the token endpoint that gives a token for 30 seconds. *)
Definition app_creds : Credentials := mkCredentials "cli_a" "secret" None.
Definition empty_store : TokenStore := mkTokenStore ∅ 0.
Definition short_lived : TokenResponse := mkTokenResponse 0 "ok" (Some "t-1") (Some 30).

(** A store whose only entry is a token of [app_creds]. *)
Definition store_with (tok : string) (expiresAt : Z) : TokenStore :=
  mkTokenStore {[ token_key app_creds := mkTokenEntry tok expiresAt ]} 0.

(** *** What a session does to the outside *)

Inductive ReceiveIdType : Type :=
| open_id | user_id | union_id | email | chat_id.

(** The method whose code issued a content request.  The request itself
    does not carry it. *)
Inductive Origin : Type := ByUpdate | ByClose.

Inductive Message : Type :=
| MsgStarted (cardId messageId : string)
| MsgError (context : string) (err : JsError)
| MsgTooManyErrors (errorCount : Z)
| MsgClosed (cardId : string).

(** Requests and callback calls, in the order the session makes them.
    [PutContent] is the PUT on [.../elements/content/content] with body
    [{content, sequence, uuid}], [uuid] being [s_{cardId}_{sequence}];
    [PatchSettings] is the PATCH on [.../settings], whose summary is
    [truncateSummary(text)] and whose [uuid] is [c_{cardId}_{sequence}]. *)
Inductive Effect : Type :=
| PostCreateCard (apiBase : string)
| SendMessage (receiveIdType : ReceiveIdType) (receiveId cardId : string)
| PutContent (origin : Origin) (apiBase cardId content : string) (sequence : Z)
| PatchSettings (apiBase cardId text : string) (sequence : Z)
| LogCall (m : Message)
| ErrorCall (m : Message).

(** *** Answers of the remote side *)

(** JSON of the card-creation answer: [{code, msg, data?: {card_id}}]. *)
Record CreateResponse : Type := mkCreateResponse {
  cr_code : Z;
  cr_msg : string;
  cr_card_id : option string
}.

(** Answer of [client.im.message.create]. *)
Record SendResponse : Type := mkSendResponse {
  sr_code : Z;
  sr_msg : string;
  sr_message_id : option string
}.

(** What [res.json()] settles to, as far as [errData.msg] reads it: a
    rejection (no body, or one that does not parse; [{}] stands in for
    it), the value [null], or another value with its [msg] field, if it
    has one. *)
Inductive Body : Type :=
| NoBody
| NullBody
| Value (msg : option string).

(** A [fetch] response: [ok], [status], [statusText], and its JSON
    body. *)
Record Response : Type := mkResponse {
  ok : bool;
  status : Z;
  statusText : string;
  json : Body
}.

(** [errData.msg] where it can be read. *)
Definition json_msg (r : Response) : option string :=
  match json r with
  | Value msg => msg
  | _ => None
  end.

(** What the unit of [update] throws for an answer that is not [ok]:
    [new Error(`HTTP ${res.status}: ${errData.msg ?? res.statusText}`)],
    or the [TypeError] of reading [msg] of [null]. *)
Definition http_error (r : Response) : JsError :=
  match json r with
  | NullBody => Rejected "TypeError"
  | _ => HttpError (status r) (default (statusText r) (json_msg r))
  end.

(** *** The session object *)

(** Where the queued unit that is running is suspended. *)
Inductive Phase : Type := AwaitToken | AwaitFetch.

(** The fields of [FeishuStreamingSession].  [log] and [error] say whether
    the callback was given.  The promise chain [queue] is the texts of the
    units chained and not yet started ([queue]), and the unit in flight
    with the [text] it captured ([running]).  [closing] is a [close()]
    call suspended on [await this.queue], with its argument. *)
Record Session : Type := mkSession {
  client : ClientCache.LarkClient;
  creds : Credentials;
  state : option CardState;
  closed : bool;
  log : bool;
  error : bool;
  lastUpdateTime : Z;
  pendingText : option string;
  updateThrottleMs : Z;
  errorCount : Z;
  maxErrors : Z;
  queue : list string;
  running : option (string * Phase);
  closing : option (option string)
}.

Definition DEFAULT_UPDATE_THROTTLE_MS : Z := 100.

(** The constructor. *)
Definition new_session (client : ClientCache.LarkClient) (creds : Credentials)
    (log error : bool) (updateThrottleMs : option Z) : Session :=
  {| client := client; creds := creds; state := None; closed := false;
     log := log; error := error; lastUpdateTime := 0; pendingText := None;
     updateThrottleMs := default DEFAULT_UPDATE_THROTTLE_MS updateThrottleMs;
     errorCount := 0; maxErrors := 5;
     queue := []; running := None; closing := None |}.

Definition set_state (v : option CardState) (s : Session) : Session :=
  mkSession (client s) (creds s) v (closed s) (log s) (error s) (lastUpdateTime s)
    (pendingText s) (updateThrottleMs s) (errorCount s) (maxErrors s)
    (queue s) (running s) (closing s).

Definition set_closed (v : bool) (s : Session) : Session :=
  mkSession (client s) (creds s) (state s) v (log s) (error s) (lastUpdateTime s)
    (pendingText s) (updateThrottleMs s) (errorCount s) (maxErrors s)
    (queue s) (running s) (closing s).

Definition set_lastUpdateTime (v : Z) (s : Session) : Session :=
  mkSession (client s) (creds s) (state s) (closed s) (log s) (error s) v
    (pendingText s) (updateThrottleMs s) (errorCount s) (maxErrors s)
    (queue s) (running s) (closing s).

Definition set_pendingText (v : option string) (s : Session) : Session :=
  mkSession (client s) (creds s) (state s) (closed s) (log s) (error s) (lastUpdateTime s)
    v (updateThrottleMs s) (errorCount s) (maxErrors s)
    (queue s) (running s) (closing s).

Definition set_errorCount (v : Z) (s : Session) : Session :=
  mkSession (client s) (creds s) (state s) (closed s) (log s) (error s) (lastUpdateTime s)
    (pendingText s) (updateThrottleMs s) v (maxErrors s)
    (queue s) (running s) (closing s).

Definition set_queue (v : list string) (s : Session) : Session :=
  mkSession (client s) (creds s) (state s) (closed s) (log s) (error s) (lastUpdateTime s)
    (pendingText s) (updateThrottleMs s) (errorCount s) (maxErrors s)
    v (running s) (closing s).

Definition set_running (v : option (string * Phase)) (s : Session) : Session :=
  mkSession (client s) (creds s) (state s) (closed s) (log s) (error s) (lastUpdateTime s)
    (pendingText s) (updateThrottleMs s) (errorCount s) (maxErrors s)
    (queue s) v (closing s).

Definition set_closing (v : option (option string)) (s : Session) : Session :=
  mkSession (client s) (creds s) (state s) (closed s) (log s) (error s) (lastUpdateTime s)
    (pendingText s) (updateThrottleMs s) (errorCount s) (maxErrors s)
    (queue s) (running s) v.

Definition set_sequence (v : Z) (cs : CardState) : CardState :=
  mkCardState (cardId cs) (messageId cs) v (currentText cs).

Definition set_currentText (v : string) (cs : CardState) : CardState :=
  mkCardState (cardId cs) (messageId cs) (sequence cs) v.

(** *** Code that reads and writes the session, may throw, and acts on
    the outside *)

Definition M (A : Type) : Type := Session -> result A * Session * list Effect.

Definition ret {A} (a : A) : M A := fun s => (Ok a, s, []).

Definition bind {A B} (m : M A) (f : A -> M B) : M B :=
  fun s =>
    match m s with
    | (Ok a, s1, o1) => let '(r, s2, o2) := f a s1 in (r, s2, (o1 ++ o2)%list)
    | (Throw e, s1, o1) => (Throw e, s1, o1)
    end.

Definition throw {A} (e : JsError) : M A := fun s => (Throw e, s, []).

(** [try { m } catch (e) { h e }]: what [m] wrote and did before it threw
    stays. *)
Definition try_catch {A} (m : M A) (h : JsError -> M A) : M A :=
  fun s =>
    match m s with
    | (Throw e, s1, o1) => let '(r, s2, o2) := h e s1 in (r, s2, (o1 ++ o2)%list)
    | done => done
    end.

Definition get : M Session := fun s => (Ok s, s, []).
Definition modify (f : Session -> Session) : M unit := fun s => (Ok tt, f s, []).
Definition emit (o : Effect) : M unit := fun s => (Ok tt, s, [o]).

(** [await p], for a promise [p] that settles with [r]. *)
Definition await {A} (r : result A) : M A := fun s => (r, s, []).

Declare Scope session_scope.
Delimit Scope session_scope with session.
Notation "x <- m ;; k" := (bind m (fun x => k))
  (at level 100, m at next level, right associativity) : session_scope.
Notation "m ;; k" := (bind m (fun _ => k))
  (at level 100, right associativity) : session_scope.
Local Open Scope session_scope.

(** [this.state.f = ...] on a started session. *)
Definition modify_card (f : CardState -> CardState) : M unit :=
  modify (fun s => set_state (f <$> state s) s).

Definition call_log (m : Message) : M unit :=
  s <- get ;; if log s then emit (LogCall m) else ret tt.

Definition call_error (m : Message) : M unit :=
  s <- get ;; if error s then emit (ErrorCall m) else ret tt.

(** Reading [this.state] to use one of its fields: a [TypeError] when it
    is [null]. *)
Definition card : M CardState :=
  s <- get ;;
  match state s with
  | Some cs => ret cs
  | None => throw (Rejected "TypeError")
  end.

(** [!this.state || this.closed] *)
Definition not_usable (s : Session) : bool := negb (bool_decide (is_Some (state s))) || closed s.

Definition isActive (s : Session) : bool := bool_decide (is_Some (state s)) && negb (closed s).

Definition getErrorCount (s : Session) : Z := errorCount s.

Definition apiBase (s : Session) : string := resolveApiBase (domain (creds s)).

(** *** The methods *)

(** [start(receiveId, receiveIdType = "chat_id")], run to its end:
    [tok] settles [getToken], [createRes] the card-creation [fetch] and
    its [json()], [sendRes] the call of [client.im.message.create].
    While [this.state] is [null], [update] and [close] return at once,
    so they do not act between the awaits of [start]; [start] calls that
    overlap are the matter of [move] below. *)
Definition start (receiveId : string) (receiveIdType : option ReceiveIdType)
    (tok : result string) (createRes : result CreateResponse)
    (sendRes : result SendResponse) : M unit :=
  s <- get ;;
  if bool_decide (is_Some (state s)) then ret tt
  else
    (_ <- await tok ;;
     emit (PostCreateCard (apiBase s)) ;;
     createData <- await createRes ;;
     if negb (cr_code createData =? 0) || negb (truthy (cr_card_id createData))
     then throw (CreateCardFailed (cr_msg createData))
     else
       let cardId := default "" (cr_card_id createData) in
       (emit (SendMessage (default chat_id receiveIdType) receiveId cardId) ;;
        sent <- await sendRes ;;
        if negb (sr_code sent =? 0) || negb (truthy (sr_message_id sent))
        then throw (SendCardFailed (sr_msg sent))
        else
          let messageId := default "" (sr_message_id sent) in
          (modify (set_state (Some (mkCardState cardId messageId 1 ""))) ;;
           call_log (MsgStarted cardId messageId)))).

(** [start] is suspended three times, on the token, on the creation of
    the card and on the sending of the message, and the guard is read
    only at the call: a second [start] call made meanwhile passes it too.
    These are the four synchronous parts of a call, [start] above being
    their run with nothing in between (lemma [start_in_one_go]).  What a
    call keeps from one part to the next: *)
Inductive StartPhase : Type :=
| StartAwaitToken
| StartAwaitCreate
| StartAwaitSend (cardId : string).

Record StartCall : Type := mkStartCall {
  sc_receiveId : string;
  sc_receiveIdType : option ReceiveIdType;
  sc_apiBase : string;
  sc_phase : StartPhase
}.

(** From the call to the first [await]: the guard. *)
Definition start_enter (receiveId : string) (receiveIdType : option ReceiveIdType)
  : M (option StartCall) :=
  s <- get ;;
  if bool_decide (is_Some (state s)) then ret None
  else ret (Some (mkStartCall receiveId receiveIdType (apiBase s) StartAwaitToken)).

(** From the token to the request that creates the card. *)
Definition start_token (call : StartCall) (tok : result string) : M StartCall :=
  _ <- await tok ;;
  emit (PostCreateCard (sc_apiBase call)) ;;
  ret (mkStartCall (sc_receiveId call) (sc_receiveIdType call) (sc_apiBase call)
         StartAwaitCreate).

(** From the answer of the creation to the sending of the message. *)
Definition start_created (call : StartCall) (createRes : result CreateResponse)
  : M StartCall :=
  createData <- await createRes ;;
  if negb (cr_code createData =? 0) || negb (truthy (cr_card_id createData))
  then throw (CreateCardFailed (cr_msg createData))
  else
    let cardId := default "" (cr_card_id createData) in
    (emit (SendMessage (default chat_id (sc_receiveIdType call)) (sc_receiveId call)
             cardId) ;;
     ret (mkStartCall (sc_receiveId call) (sc_receiveIdType call) (sc_apiBase call)
            (StartAwaitSend cardId))).

(** From the answer of the sending to the end: the only write. *)
Definition start_sent (cardId : string) (sendRes : result SendResponse) : M unit :=
  sent <- await sendRes ;;
  if negb (sr_code sent =? 0) || negb (truthy (sr_message_id sent))
  then throw (SendCardFailed (sr_msg sent))
  else
    let messageId := default "" (sr_message_id sent) in
    (modify (set_state (Some (mkCardState cardId messageId 1 ""))) ;;
     call_log (MsgStarted cardId messageId)).

Definition handleError (context : string) (err : JsError) : M unit :=
  modify (fun s => set_errorCount (errorCount s + 1) s) ;;
  call_log (MsgError context err) ;;
  call_error (MsgError context err) ;;
  s <- get ;;
  if errorCount s >=? maxErrors s
  then (call_error (MsgTooManyErrors (errorCount s)) ;; modify (set_closed true))
  else ret tt.

(** [update(text)] up to [await this.queue]: the guard, the throttle, and
    the chaining of one more unit on the promise chain.  [now] is
    [Date.now()]. *)
Definition update (text : string) (now : Z) : M unit :=
  s <- get ;;
  if not_usable s then ret tt
  else if now - lastUpdateTime s <? updateThrottleMs s
  then modify (set_pendingText (Some text))
  else
    (modify (set_pendingText None) ;;
     modify (set_lastUpdateTime now) ;;
     modify (fun s => set_queue (queue s ++ [text])%list s)).

(** The unit chained by [update], in three steps, since an [update] or
    a [close] call can run while the unit waits for its token or for its
    answer.  First, from its start to its first [await]; it starts when
    the unit before it has ended. *)
Definition unit_start : M unit :=
  s <- get ;;
  match running s, queue s with
  | None, text :: rest =>
      modify (set_queue rest) ;;
      if not_usable s then ret tt
      else
        (modify_card (set_currentText text) ;;
         modify_card (fun cs => set_sequence (sequence cs + 1) cs) ;;
         modify (set_running (Some (text, AwaitToken))))
  | _, _ => ret tt
  end.

(** The unit, from the settling of [getToken] to the [await] of [fetch]. *)
Definition unit_token (tok : result string) : M unit :=
  s <- get ;;
  match running s with
  | Some (text, AwaitToken) =>
      try_catch
        (_ <- await tok ;;
         cs <- card ;;
         emit (PutContent ByUpdate (apiBase s) (cardId cs) text (sequence cs)) ;;
         modify (set_running (Some (text, AwaitFetch))))
        (fun e => handleError "update" e ;; modify (set_running None))
  | _ => ret tt
  end.

(** The unit, from the settling of [fetch] to its end. *)
Definition unit_response (res : result Response) : M unit :=
  s <- get ;;
  match running s with
  | Some (text, AwaitFetch) =>
      try_catch
        (r <- await res ;;
         if negb (ok r)
         then throw (http_error r)
         else ret tt)
        (fun e => handleError "update" e) ;;
      modify (set_running None)
  | _ => ret tt
  end.

(** [close(finalText)] up to [await this.queue]. *)
Definition close (finalText : option string) : M unit :=
  s <- get ;;
  if not_usable s then ret tt
  else (modify (set_closed true) ;; modify (set_closing (Some finalText))).

(** [close], after the chain has drained, run to its end: [tok1] and
    [res1] settle the token and the request of the final content update,
    [tok2] and [res2] those of the settings request.  The session is
    closed and started all along, so [update], [close], [start] and the
    units return at their guard: nothing else writes the session between
    the awaits. *)
Definition close_drained (tok1 : result string) (res1 : result Response)
    (tok2 : result string) (res2 : result Response) : M unit :=
  s <- get ;;
  match closing s, running s, queue s with
  | Some finalText, None, [] =>
      modify (set_closing None) ;;
      cs <- card ;;
      let text := default (default (currentText cs) (pendingText s)) finalText in
      (if truthy (Some text) && negb (String.eqb text (currentText cs))
       then
         (modify_card (fun cs => set_sequence (sequence cs + 1) cs) ;;
          try_catch
            (_ <- await tok1 ;;
             cs1 <- card ;;
             emit (PutContent ByClose (apiBase s) (cardId cs1) text (sequence cs1)) ;;
             r <- await res1 ;;
             if negb (ok r) then handleError "close update" (HttpStatus (status r))
             else modify_card (set_currentText text))
            (fun e => handleError "close update" e))
       else ret tt) ;;
      modify_card (fun cs => set_sequence (sequence cs + 1) cs) ;;
      try_catch
        (_ <- await tok2 ;;
         cs2 <- card ;;
         emit (PatchSettings (apiBase s) (cardId cs2) text (sequence cs2)) ;;
         r <- await res2 ;;
         if negb (ok r) then handleError "close settings" (HttpStatus (status r))
         else ret tt)
        (fun e => handleError "close settings" e) ;;
      cs3 <- card ;;
      call_log (MsgClosed (cardId cs3))
  | _, _, _ => ret tt
  end.

(** *** Schedules *)

(** What can happen to a session: a method call with the answers it
    awaits, or the resumption of suspended code with the answer it was
    waiting for.  An event that cannot happen in the session's state (no
    unit to start, no unit waiting for this answer, no [close] to resume)
    leaves it as it is. *)
Inductive Event : Type :=
| EStart (receiveId : string) (receiveIdType : option ReceiveIdType)
    (tok : result string) (createRes : result CreateResponse)
    (sendRes : result SendResponse)
| EUpdate (text : string) (now : Z)
| EUnitStart
| EUnitToken (tok : result string)
| EUnitResponse (res : result Response)
| EClose (finalText : option string)
| ECloseDrained (tok1 : result string) (res1 : result Response)
    (tok2 : result string) (res2 : result Response).

Definition step (ev : Event) : M unit :=
  match ev with
  | EStart receiveId receiveIdType tok createRes sendRes =>
      start receiveId receiveIdType tok createRes sendRes
  | EUpdate text now => update text now
  | EUnitStart => unit_start
  | EUnitToken tok => unit_token tok
  | EUnitResponse res => unit_response res
  | EClose finalText => close finalText
  | ECloseDrained tok1 res1 tok2 res2 => close_drained tok1 res1 tok2 res2
  end.

(** The session and the effects after a schedule.  An error thrown by a
    method goes to that method's caller and ends nothing else. *)
Fixpoint run (evs : list Event) (s : Session) : Session * list Effect :=
  match evs with
  | [] => (s, [])
  | ev :: rest =>
      let '(_, s1, o1) := step ev s in
      let '(s2, o2) := run rest s1 in
      (s2, (o1 ++ o2)%list)
  end.

(** *** Schedules with [start] calls that overlap *)

(** A session together with its [start] calls in flight.  A move is an
    event as above (a [start] among them runs to its end with nothing in
    between), a [start] call up to its first [await], or the resumption
    of the [i]-th call in flight with the answer it waits for.  A
    resumption for which no call waits leaves everything as it is.  The
    first component of the result is [Throw] when the move ends a call
    with an error, thrown to its caller. *)
Inductive Move : Type :=
| MEvent (ev : Event)
| MStartCall (receiveId : string) (receiveIdType : option ReceiveIdType)
| MStartToken (i : nat) (tok : result string)
| MStartCreated (i : nat) (createRes : result CreateResponse)
| MStartSent (i : nat) (sendRes : result SendResponse).

Definition Live : Type := Session * list StartCall.

Definition move (m : Move) (l : Live) : result unit * Live * list Effect :=
  match m with
  | MEvent ev =>
      let '(r, s', o) := step ev l.1 in (r, (s', l.2), o)
  | MStartCall receiveId receiveIdType =>
      match start_enter receiveId receiveIdType l.1 with
      | (Ok (Some call), s', o) => (Ok tt, (s', l.2 ++ [call]), o)
      | (Ok None, s', o) => (Ok tt, (s', l.2), o)
      | (Throw e, s', o) => (Throw e, (s', l.2), o)
      end
  | MStartToken i tok =>
      match l.2 !! i with
      | Some call =>
          match sc_phase call with
          | StartAwaitToken =>
              match start_token call tok l.1 with
              | (Ok call', s', o) => (Ok tt, (s', <[i := call']> l.2), o)
              | (Throw e, s', o) => (Throw e, (s', delete i l.2), o)
              end
          | _ => (Ok tt, l, [])
          end
      | None => (Ok tt, l, [])
      end
  | MStartCreated i createRes =>
      match l.2 !! i with
      | Some call =>
          match sc_phase call with
          | StartAwaitCreate =>
              match start_created call createRes l.1 with
              | (Ok call', s', o) => (Ok tt, (s', <[i := call']> l.2), o)
              | (Throw e, s', o) => (Throw e, (s', delete i l.2), o)
              end
          | _ => (Ok tt, l, [])
          end
      | None => (Ok tt, l, [])
      end
  | MStartSent i sendRes =>
      match l.2 !! i with
      | Some call =>
          match sc_phase call with
          | StartAwaitSend cardId =>
              let '(r, s', o) := start_sent cardId sendRes l.1 in
              (r, (s', delete i l.2), o)
          | _ => (Ok tt, l, [])
          end
      | None => (Ok tt, l, [])
      end
  end.

Fixpoint play (ms : list Move) (l : Live) : Live * list Effect :=
  match ms with
  | [] => (l, [])
  | m :: rest =>
      let '(_, l1, o1) := move m l in
      let '(l2, o2) := play rest l1 in
      (l2, (o1 ++ o2)%list)
  end.

(** The events among some moves. *)
Definition events (ms : list Move) : list Event :=
  omap (fun m => match m with MEvent ev => Some ev | _ => None end) ms.

(** The content requests among some effects, as (content, sequence). *)
Definition content_calls (o : list Effect) : list (string * Z) :=
  omap (fun e => match e with
                 | PutContent _ _ _ content seq => Some (content, seq)
                 | _ => None
                 end) o.

Definition update_calls (o : list Effect) : list (string * Z) :=
  omap (fun e => match e with
                 | PutContent ByUpdate _ _ content seq => Some (content, seq)
                 | _ => None
                 end) o.

(** *** Vocabulary of the properties *)

(** The session and the effects after [handleError], written out
    (lemma [handleError_eq]). *)
Definition after_error (s : Session) : Session :=
  let s1 := set_errorCount (errorCount s + 1) s in
  if errorCount s1 >=? maxErrors s1 then set_closed true s1 else s1.

Definition error_effects (context : string) (err : JsError) (s : Session) : list Effect :=
  (if log s then [LogCall (MsgError context err)] else [])
  ++ (if error s then [ErrorCall (MsgError context err)] else [])
  ++ (if errorCount s + 1 >=? maxErrors s
      then (if error s then [ErrorCall (MsgTooManyErrors (errorCount s + 1))] else [])
      else []).

(** The error a request ends in, if any: that of the token, the
    rejection of [fetch], or the status of an answer that is not [ok]. *)
Definition attempt_error (tok : result string) (res : result Response) : option JsError :=
  match tok with
  | Throw e => Some e
  | Ok _ =>
      match res with
      | Throw e => Some e
      | Ok r => if ok r then None else Some (HttpStatus (status r))
      end
  end.

(** A request of [close] made on session [s]: the session and the
    effects once it has settled, [on_ok] being what the code writes after
    an [ok] answer. *)
Definition settle (context : string) (req : Effect) (tok : result string)
    (res : result Response) (on_ok : Session -> Session) (s : Session)
  : Session * list Effect :=
  match attempt_error tok res with
  | Some e => (after_error s, (if is_ok tok then [req] else []) ++ error_effects context e s)
  | None => (on_ok s, [req])
  end.

(** [finalText ?? this.pendingText ?? this.state.currentText] *)
Definition final_text (finalText : option string) (s : Session) (cs : CardState) : string :=
  default (default (currentText cs) (pendingText s)) finalText.

(** [text && text !== this.state.currentText] *)
Definition flushes (text : string) (cs : CardState) : bool :=
  truthy (Some text) && negb (String.eqb text (currentText cs)).

Definition bump (cs : CardState) : CardState := set_sequence (sequence cs + 1) cs.

(** The run of [close] after the chain has drained, written out
    (lemma [close_drained_eq]). *)
Definition closed_down (finalText : option string) (cs : CardState)
    (tok1 : result string) (res1 : result Response)
    (tok2 : result string) (res2 : result Response) (s : Session)
  : Session * list Effect :=
  let text := final_text finalText s cs in
  let s0 := set_closing None s in
  let '(s2, o1) :=
    if flushes text cs
    then settle "close update"
           (PutContent ByClose (apiBase s) (cardId cs) text (sequence cs + 1))
           tok1 res1 (set_state (Some (set_currentText text (bump cs))))
           (set_state (Some (bump cs)) s0)
    else (s0, []) in
  let '(s4, o2) :=
    settle "close settings"
      (PatchSettings (apiBase s) (cardId cs) text
         (sequence cs + (if flushes text cs then 2 else 1)))
      tok2 res2 (fun s => s) (set_state (bump <$> state s2) s2) in
  (s4, o1 ++ o2 ++ (if log s then [LogCall (MsgClosed (cardId cs))] else [])).

(** The failures a step of [update] or [close] meets in session [s]:
    the context given to [handleError] and the error, for each request of
    the step that does not end well. *)
Definition failures (ev : Event) (s : Session) : list (string * JsError) :=
  match ev with
  | EUnitToken tok =>
      match running s, tok with
      | Some (_, AwaitToken), Throw e => [("update", e)]
      | _, _ => []
      end
  | EUnitResponse res =>
      match running s, res with
      | Some (_, AwaitFetch), Throw e => [("update", e)]
      | Some (_, AwaitFetch), Ok r =>
          if ok r then []
          else [("update", http_error r)]
      | _, _ => []
      end
  | ECloseDrained tok1 res1 tok2 res2 =>
      match closing s, running s, queue s, state s with
      | Some finalText, None, [], Some cs =>
          (if flushes (final_text finalText s cs) cs
           then match attempt_error tok1 res1 with
                | Some e => [("close update", e)]
                | None => []
                end
           else [])
          ++ match attempt_error tok2 res2 with
             | Some e => [("close settings", e)]
             | None => []
             end
      | _, _, _, _ => []
      end
  | _ => []
  end.

Definition is_start (ev : Event) : bool :=
  match ev with EStart _ _ _ _ _ => true | _ => false end.

(** The moves of [start] calls. *)
Definition is_start_move (m : Move) : bool :=
  match m with
  | MEvent ev => is_start ev
  | _ => true
  end.

(** Schedules of [update] calls and of resumptions of their units. *)
Definition is_unit_event (ev : Event) : bool :=
  match ev with
  | EUnitStart | EUnitToken _ | EUnitResponse _ => true
  | _ => false
  end.

Definition is_update_or_unit (ev : Event) : bool :=
  match ev with
  | EUpdate _ _ => true
  | _ => is_unit_event ev
  end.

(** Every unit of the schedule obtains its token. *)
Definition tokens_ok (evs : list Event) : bool :=
  forallb (fun ev => match ev with EUnitToken (Throw _) => false | _ => true end) evs.

(** The texts of the [update] calls of a schedule, in the order of the
    calls. *)
Definition updates (evs : list Event) : list string :=
  omap (fun ev => match ev with EUpdate text _ => Some text | _ => None end) evs.

(** An [update] call at the clock [now] passes the guard and the
    throttle. *)
Definition accepts (s : Session) (now : Z) : bool :=
  negb (not_usable s) && negb (now - lastUpdateTime s <? updateThrottleMs s).

Definition accepted_by (ev : Event) (s : Session) : list string :=
  match ev with
  | EUpdate text now => if accepts s now then [text] else []
  | _ => []
  end.

(** The texts of the [update] calls that are accepted along a schedule. *)
Fixpoint accepted_updates (evs : list Event) (s : Session) : list string :=
  match evs with
  | [] => []
  | ev :: rest => accepted_by ev s ++ accepted_updates rest (step ev s).1.2
  end.

(** Every [update] call of the schedule is accepted. *)
Fixpoint all_accepted (evs : list Event) (s : Session) : bool :=
  match evs with
  | [] => true
  | ev :: rest =>
      match ev with
      | EUpdate _ now => accepts s now
      | _ => true
      end && all_accepted rest (step ev s).1.2
  end.

(** The texts of the units that have not yet made their request: the
    unit in flight when it still waits for its token, then the units
    chained behind it. *)
Definition pending (s : Session) : list string :=
  match running s with
  | Some (text, AwaitToken) => [text]
  | _ => []
  end ++ queue s.

(** The sequence value of the last unit that got to its request or gave
    up before it. *)
Definition base (s : Session) : Z :=
  default 0 (sequence <$> state s)
  - match running s with
    | Some (_, AwaitToken) => 1
    | _ => 0
    end.

(** [l] with the sequence values [z], [z+1], ... *)
Fixpoint numbered (z : Z) (l : list string) : list (string * Z) :=
  match l with
  | [] => []
  | x :: r => (x, z) :: numbered (z + 1) r
  end.

(** [l] is strictly increasing and above [z]. *)
Fixpoint increasing_from (z : Z) (l : list Z) : Prop :=
  match l with
  | [] => True
  | x :: r => z < x /\ increasing_from x r
  end.

(** The requests among some effects. *)
Definition is_request (e : Effect) : bool :=
  match e with
  | LogCall _ | ErrorCall _ => false
  | _ => true
  end.

Definition requests (o : list Effect) : list Effect := List.filter is_request o.

(** What holds of a session from its construction on. *)
Record wf_session (s : Session) : Prop := mk_wf {
  wf_maxErrors : maxErrors s = 5;
  wf_errorCount : 0 <= errorCount s;
  wf_breaker : maxErrors s <= errorCount s -> closed s = true /\ running s = None;
  wf_closing : closing s <> None -> closed s = true /\ is_Some (state s);
  wf_running : forall text ph, running s = Some (text, ph) ->
                 exists cs, state s = Some cs /\ currentText cs = text;
}.

(** A session as built by the constructor and then driven by a
    schedule. *)
Definition reachable (s : Session) : Prop :=
  exists client creds log error throttle evs,
    s = (run evs (new_session client creds log error throttle)).1.

(** Inputs of the examples. *)
Definition a_client : ClientCache.LarkClient :=
  ClientCache.mkClient "cli_a" "secret" ClientCache.DomainFeishu.
Definition fresh_session : Session := new_session a_client app_creds true true None.
Definition ok_response : result Response := Ok (mkResponse true 200 "OK" NoBody).
Definition bad_response : result Response := Ok (mkResponse false 500 "Internal Server Error" NoBody).
Definition a_token : result string := Ok "t-1".
Definition no_token : result string := Throw (TokenError "app not found").
Definition start_ok : Event :=
  EStart "oc_1" None a_token (Ok (mkCreateResponse 0 "ok" (Some "card_1")))
    (Ok (mkSendResponse 0 "ok" (Some "om_1"))).

(** The session after a successful [start]. *)
Definition active_session : Session := Eval vm_compute in (run [start_ok] fresh_session).1.

(** One [update] that is accepted, runs, and gets the answer [res]. *)
Definition update_round (text : string) (now : Z) (res : result Response) : list Event :=
  [EUpdate text now; EUnitStart; EUnitToken a_token; EUnitResponse res].

(** A started session on which five updates in a row get a 500. *)
Definition five_failures : list Event :=
  start_ok :: update_round "t1" 1000 bad_response ++ update_round "t2" 2000 bad_response
  ++ update_round "t3" 3000 bad_response ++ update_round "t4" 4000 bad_response
  ++ update_round "t5" 5000 bad_response.

(** Three updates 100 ms apart, the second and the third called while
    the request of the first is in flight; then the chain runs. *)
Definition interleaved_updates : list Event :=
  [EUpdate "t1" 1000; EUnitStart; EUpdate "t2" 1100; EUnitToken a_token;
   EUpdate "t3" 1200; EUnitResponse ok_response;
   EUnitStart; EUnitToken a_token; EUnitResponse ok_response;
   EUnitStart; EUnitToken a_token; EUnitResponse ok_response].

(** One update whose unit does not get its token. *)
Definition update_without_token : list Event :=
  [EUpdate "t1" 1000; EUnitStart; EUnitToken no_token].

(** Six updates a second apart, the last five called while the request
    of the first hangs; then the requests of the first five get a 500
    one after the other. *)
Definition six_updates_five_failures : list Event :=
  [EUpdate "t1" 1000; EUnitStart; EUnitToken a_token;
   EUpdate "t2" 2000; EUpdate "t3" 3000; EUpdate "t4" 4000;
   EUpdate "t5" 5000; EUpdate "t6" 6000;
   EUnitResponse bad_response]
  ++ concat (repeat [EUnitStart; EUnitToken a_token; EUnitResponse bad_response] 4)
  ++ [EUnitStart; EUnitToken a_token; EUnitResponse ok_response].

(** "Exactly n content-update calls carrying t1..tn in the invocation
    order, with strictly increasing sequence values", for one
    schedule. *)
Definition ordered_delivery (evs : list Event) (s : Session) : Prop :=
  let calls := update_calls (run evs s).2 in
  calls.*1 = updates evs /\ increasing_from (base s) calls.*2.

(** [update("a")] accepted and served, then [update("b")] 50 ms later. *)
Definition throttled_pair : list Event :=
  [EUpdate "a" 1000; EUnitStart; EUnitToken a_token; EUnitResponse ok_response;
   EUpdate "b" 1050].

(** "Exactly one content-update mutation results and it carries [text]". *)
Definition one_update_call_carrying (text : string) (o : list Effect) : Prop :=
  exists q, update_calls o = [(text, q)].

(** "Exactly one content-replace call is issued", carrying [text]. *)
Definition one_content_call_carrying (text : string) (o : list Effect) : Prop :=
  exists q, content_calls o = [(text, q)].

(** The started session after [update("a")] was served: the card shows
    ["a"], its sequence value is 2. *)
Definition served_session : Session :=
  Eval vm_compute in (run (update_round "a" 1000 ok_response) active_session).1.

(** [close(finalText)] on a session whose queue is empty, run to its
    end. *)
Definition close_run (finalText : option string) (tok1 : result string)
    (res1 : result Response) (tok2 : result string) (res2 : result Response)
  : list Event :=
  [EClose finalText; ECloseDrained tok1 res1 tok2 res2].

(** *** Vocabulary of the further properties *)

(** The sequence value a request carries, the one its [uuid] is built
    from; the two requests of [start] carry none. *)
Definition seq_of (e : Effect) : option Z :=
  match e with
  | PutContent _ _ _ _ q | PatchSettings _ _ _ q => Some q
  | _ => None
  end.

Definition request_seqs (o : list Effect) : list Z := omap seq_of o.

Definition is_settings (e : Effect) : bool :=
  match e with PatchSettings _ _ _ _ => true | _ => false end.

Definition is_close_content (e : Effect) : bool :=
  match e with PutContent ByClose _ _ _ _ => true | _ => false end.

(** A request on the card [card] of the deployment at [base]. *)
Definition on_card (base card : string) (e : Effect) : bool :=
  match e with
  | PutContent _ b c _ _ | PatchSettings b c _ _ => String.eqb b base && String.eqb c card
  | _ => false
  end.

(** The calls of the [error] callback, and of the [log] callback, that
    report an error met by a request. *)
Definition is_error_report (e : Effect) : bool :=
  match e with ErrorCall (MsgError _ _) => true | _ => false end.

Definition is_error_log (e : Effect) : bool :=
  match e with LogCall (MsgError _ _) => true | _ => false end.

(** The clocks of the [update] calls that are accepted along a
    schedule. *)
Definition accepted_at (ev : Event) (s : Session) : list Z :=
  match ev with
  | EUpdate _ now => if accepts s now then [now] else []
  | _ => []
  end.

Fixpoint accepted_times (evs : list Event) (s : Session) : list Z :=
  match evs with
  | [] => []
  | ev :: rest => accepted_at ev s ++ accepted_times rest (step ev s).1.2
  end.

(** Each clock of [l] is [d] or more after the one before it, the first
    after [last]. *)
Fixpoint spaced (d last : Z) (l : list Z) : Prop :=
  match l with
  | [] => True
  | x :: r => d <= x - last /\ spaced d x r
  end.

(** The failures a session can still count: none but those of its
    unit in flight and of its pending [close] once it is closed. *)
Definition error_budget (s : Session) : Z :=
  errorCount s
  + (if closed s
     then (match running s with Some _ => 1 | None => 0 end)
          + (match closing s with Some _ => 2 | None => 0 end)
     else 3).

(** Two [start] calls that overlap on a fresh session: both pass the
    guard, the second is served first and starts the session, then the
    first gets its token. *)
Definition overlapping_starts : list Move :=
  [MStartCall "oc_1" None; MStartCall "oc_1" None;
   MStartToken 1 a_token;
   MStartCreated 1 (Ok (mkCreateResponse 0 "ok" (Some "card_1")));
   MStartSent 1 (Ok (mkSendResponse 0 "ok" (Some "om_1")));
   MStartToken 0 a_token].

(** "If [start] fails the session remains UNSTARTED: its CardState
    stays null and [isActive()] stays false", for one resumption [m] of
    a [start] call in flight in [l]. *)
Definition unstarted_after_failure (m : Move) (l : Live) : Prop :=
  is_start_move m = true ->
  forall e, (move m l).1.1 = Throw e ->
    state (move m l).1.2.1 = None /\ isActive (move m l).1.2.1 = false.

(** A [close(finalText)] that has run to its end on [active_session]. *)
Definition finished_session : Session :=
  Eval vm_compute in
    (run (close_run (Some "bye") a_token ok_response a_token ok_response) active_session).1.

(** Four updates that get a 500, a fifth whose request hangs while
    [close("bye")] is called and then gets a 500 too, and a [close] whose
    two requests get a 500. *)
Definition seven_failures : list Event :=
  start_ok :: update_round "t1" 1000 bad_response ++ update_round "t2" 2000 bad_response
  ++ update_round "t3" 3000 bad_response ++ update_round "t4" 4000 bad_response
  ++ [EUpdate "t5" 5000; EUnitStart; EUnitToken a_token; EClose (Some "bye");
      EUnitResponse bad_response;
      ECloseDrained a_token bad_response a_token bad_response].

End StreamingCard.


(** ** Strings seen character by character *)

(** The functions below look at the characters of names and texts in any
    script: there a string is the list of its UTF-16 code units, the
    view [String.prototype.replace], [slice], [trim] and a regular
    expression without the [u] flag have of it. *)
Module JsString.

Local Open Scope N_scope.

Definition str : Type := list N.

(** A string literal of the source (ASCII). *)
Definition lit (s : string) : str := map N_of_ascii (list_ascii_of_string s).

(** [a === b] *)
Definition str_eqb (a b : str) : bool := bool_decide (a = b).

(** [s.startsWith(p)] *)
Fixpoint startsWith (p s : str) : bool :=
  match p, s with
  | [], _ => true
  | _ :: _, [] => false
  | a :: p', b :: s' => (a =? b) && startsWith p' s'
  end.

(** [\s] of a regular expression and the characters [trim] removes:
    WhiteSpace and LineTerminator of ECMAScript. *)
Definition is_space (c : N) : bool :=
  ((9 <=? c) && (c <=? 13)) || (c =? 32) || (c =? 160) || (c =? 5760)
  || ((8192 <=? c) && (c <=? 8202)) || (c =? 8232) || (c =? 8233)
  || (c =? 8239) || (c =? 8287) || (c =? 12288) || (c =? 65279).

Fixpoint trim_start (s : str) : str :=
  match s with
  | c :: r => if is_space c then trim_start r else s
  | [] => []
  end.

(** [s.trim()] *)
Definition trim (s : str) : str := rev (trim_start (rev (trim_start s))).

(** [s.slice(0, e)] for an integer [e]: a negative [e] counts from the
    end. *)
Definition slice0 (e : Z) (s : str) : str :=
  let len := Z.of_nat (length s) in
  take (Z.to_nat (if (e <? 0)%Z then Z.max (len + e) 0 else Z.min e len)) s.

(** [s.replace(/[p]+/g, r)] for a class [p] and a one-character [r]:
    each maximal run of characters of the class becomes [r].  [in_run]
    says that the character before was of the class. *)
Fixpoint squeeze (p : N -> bool) (r : N) (in_run : bool) (s : str) : str :=
  match s with
  | [] => []
  | c :: t =>
      if p c then (if in_run then squeeze p r true t else r :: squeeze p r true t)
      else c :: squeeze p r false t
  end.

Definition replace_runs (p : N -> bool) (r : N) (s : str) : str := squeeze p r false s.

(** [s.indexOf(pat)] *)
Fixpoint indexOf (pat s : str) : option nat :=
  if startsWith pat s then Some O
  else match s with
       | [] => None
       | _ :: t => S <$> indexOf pat t
       end.

(** GetSubstitution of ECMAScript for a pattern that is a string (no
    capture): in the replacement, [$$] is a dollar, [$&] the match,
    [$`] what is before it, [$'] what is after it; any other dollar
    stands for itself. *)
Fixpoint substitution (matched before after tpl : str) : str :=
  match tpl with
  | [] => []
  | c :: r =>
      if c =? 36
      then match r with
           | d :: r' =>
               if d =? 36 then 36 :: substitution matched before after r'
               else if d =? 38 then matched ++ substitution matched before after r'
               else if d =? 96 then before ++ substitution matched before after r'
               else if d =? 39 then after ++ substitution matched before after r'
               else c :: substitution matched before after r
           | [] => [c]
           end
      else c :: substitution matched before after r
  end.

(** [s.replace(pat, repl)] for strings [pat] and [repl]: the first
    occurrence only. *)
Definition replace (pat repl s : str) : str :=
  match indexOf pat s with
  | None => s
  | Some i =>
      let before := take i s in
      let after := drop (i + length pat) s in
      before ++ substitution pat before after repl ++ after
  end.

(** [truncateSummary(text, max = 50)] of the streaming card: the
    summary sent with the settings request of [close]. *)
Definition truncateSummary (text : str) (max : Z) : str :=
  match text with
  | [] => []
  | _ =>
      let clean := trim (map (fun c => if c =? 10 then 32 else c) text) in
      if (Z.of_nat (length clean) <=? max)%Z then clean
      else slice0 (max - 3) clean ++ lit "..."
  end.

End JsString.

(** ** The agents created on demand, of [dynamic-agent.ts] *)

Module DynamicAgent.
Import JsString.

Local Open Scope N_scope.

(** The character class of the first [replace] of [sanitizeForPath]: the
    controls below U+0020 and the nine characters less-than,
    greater-than, colon, double quote, slash, backslash, bar, question
    mark and star, by code unit. *)
Definition unsafe_for_path (c : N) : bool :=
  (c <=? 31) || existsb (N.eqb c) [60; 62; 58; 34; 47; 92; 124; 63; 42].

Definition is_dot (c : N) : bool := c =? 46.

Definition sanitizeForPath (s : str) : str :=
  slice0 50
    (replace_runs is_dot 46
       (replace_runs is_space 45
          (List.filter (fun c => negb (unsafe_for_path c)) s))).

(** [senderOpenId.replace(/^(ou_|on_)/, "")] *)
Definition strip_id_prefix (s : str) : str :=
  if startsWith (lit "ou_") s || startsWith (lit "on_") s then drop 3 s else s.

(** [if (senderName)] *)
Definition given (s : option str) : bool :=
  match s with
  | Some (_ :: _) => true
  | _ => false
  end.

Definition generateFriendlyAgentId (senderOpenId : str) (senderName : option str) : str :=
  if given senderName
  then lit "feishu-" ++ sanitizeForPath (default [] senderName) ++ lit "-"
       ++ slice0 8 (strip_id_prefix senderOpenId)
  else lit "feishu-" ++ senderOpenId.

(** [os.homedir()] and [path.join] of Node. *)
Record Env : Type := mkEnv {
  homedir : str;
  path_join : str -> str -> str
}.

Definition resolveUserPath (env : Env) (p : str) : str :=
  if startsWith (lit "~/") p then path_join env (homedir env) (drop 2 p) else p.

(** *** The configuration *)

(** The fields of an object that the code does not read: their names,
    each with the JSON text of its value. *)
Definition Fields : Type := list (str * str).

Record Peer : Type := mkPeer {
  kind : str;
  peer_id : str
}.

Record Match : Type := mkMatch {
  channel : option str;
  peer : option Peer;
  match_rest : Fields
}.

Record Binding : Type := mkBinding {
  agentId : str;
  match_ : option Match;
  binding_rest : Fields
}.

Record Agent : Type := mkAgent {
  id : str;
  workspace : option str;
  agentDir : option str;
  agent_rest : Fields
}.

Record Agents : Type := mkAgents {
  list_ : option (list Agent);
  agents_rest : Fields
}.

Record OpenClawConfig : Type := mkCfg {
  agents : option Agents;
  bindings : option (list Binding);
  cfg_rest : Fields
}.

Record DynamicAgentCreationConfig : Type := mkDynamicCfg {
  workspaceTemplate : option str;
  agentDirTemplate : option str;
  maxAgents : option Z
}.

Record GroupUserWorkspaceConfig : Type := mkGroupCfg {
  mode : option str;
  g_workspaceTemplate : option str;
  g_agentDirTemplate : option str;
  g_maxAgents : option Z
}.

Record Created : Type := mkCreated {
  created : bool;
  updatedCfg : OpenClawConfig;
  r_agentId : option str
}.

(** The lines given to [log], by their parts. *)
Inductive LogLine : Type :=
| LimitReached (maxAgents : Z) (senderOpenId : str)
| AgentExists (agentId senderOpenId : str)
| Creating (agentId senderOpenId : str)
| GroupLimitReached (maxAgents : Z) (senderOpenId : str)
| GroupAgentExists (agentId peerId : str)
| GroupCreating (agentId senderOpenId chatId : str)
| ModeLine (mode : str)
| WorkspaceLine (path : str)
| AgentDirLine (path : str).

Inductive Effect : Type :=
| Log (l : LogLine)
| Mkdir (path : str)
| WriteConfigFile (cfg : OpenClawConfig).

(** [cfg.bindings ?? []] and [cfg.agents?.list ?? []] *)
Definition existing_bindings (cfg : OpenClawConfig) : list Binding :=
  default [] (bindings cfg).

Definition agent_list (cfg : OpenClawConfig) : list Agent :=
  default [] (agents cfg ≫= list_).

(** [(cfg.agents?.list ?? []).filter((a) => a.id.startsWith("feishu-"))],
    the agents counted against [maxAgents] for direct messages, and the
    ones counted for groups. *)
Definition feishu_agents (cfg : OpenClawConfig) : list Agent :=
  List.filter (fun a => startsWith (lit "feishu-") (id a)) (agent_list cfg).

Definition group_agents (cfg : OpenClawConfig) : list Agent :=
  List.filter (fun a => startsWith (lit "feishu-user-") (id a)
                        || startsWith (lit "feishu-session-") (id a))
    (agent_list cfg).

(** [b.match?.channel === "feishu" && b.match?.peer?.kind === k &&
    b.match?.peer?.id === i] *)
Definition binds (k i : str) (b : Binding) : bool :=
  match match_ b with
  | Some m =>
      match channel m with
      | Some c => str_eqb c (lit "feishu")
      | None => false
      end
      && match peer m with
         | Some p => str_eqb (kind p) k && str_eqb (peer_id p) i
         | None => false
         end
  | None => false
  end.

(** The binding the two functions add. *)
Definition new_binding (agentId k i : str) : Binding :=
  mkBinding agentId (Some (mkMatch (Some (lit "feishu")) (Some (mkPeer k i)) [])) [].

(** [{...cfg, bindings: [...existingBindings, b]}] *)
Definition with_binding (cfg : OpenClawConfig) (b : Binding) : OpenClawConfig :=
  mkCfg (agents cfg) (Some (existing_bindings cfg ++ [b])) (cfg_rest cfg).

(** [{...cfg, agents: {...cfg.agents, list: [...list, a]}, bindings:
    [...existingBindings, b]}] *)
Definition with_agent (cfg : OpenClawConfig) (a : Agent) (b : Binding) : OpenClawConfig :=
  mkCfg
    (Some (mkAgents (Some (agent_list cfg ++ [a]))
             (match agents cfg with Some x => agents_rest x | None => [] end)))
    (Some (existing_bindings cfg ++ [b])) (cfg_rest cfg).

(** *** The two functions *)

(** What is left of both functions once the agent is known to be new:
    the directories are made, the configuration with the agent and the
    binding is written, and only then is the creation reported.  An
    [await] that rejects ends the function with what was done so far. *)
Definition create_agent (cfg : OpenClawConfig) (agentId ws dir : str) (b : Binding)
    (logs : list Effect) (mkdir1 mkdir2 write : result unit)
  : result Created * list Effect :=
  match mkdir1 with
  | Throw e => (Throw e, logs ++ [Mkdir ws])
  | Ok _ =>
      match mkdir2 with
      | Throw e => (Throw e, logs ++ [Mkdir ws; Mkdir dir])
      | Ok _ =>
          let updated := with_agent cfg (mkAgent agentId (Some ws) (Some dir) []) b in
          match write with
          | Throw e => (Throw e, logs ++ [Mkdir ws; Mkdir dir; WriteConfigFile updated])
          | Ok _ =>
              (Ok (mkCreated true updated (Some agentId)),
               logs ++ [Mkdir ws; Mkdir dir; WriteConfigFile updated])
          end
      end
  end.

(** The agent exists and its binding is missing: the binding is added. *)
Definition add_binding (cfg : OpenClawConfig) (agentId : str) (b : Binding)
    (logs : list Effect) (write : result unit) : result Created * list Effect :=
  let updated := with_binding cfg b in
  match write with
  | Throw e => (Throw e, logs ++ [WriteConfigFile updated])
  | Ok _ => (Ok (mkCreated true updated (Some agentId)), logs ++ [WriteConfigFile updated])
  end.

(** [maybeCreateDynamicAgent]; [mkdir1], [mkdir2] and [write] settle the
    two [fs.promises.mkdir] and [runtime.config.writeConfigFile]. *)
Definition maybeCreateDynamicAgent (env : Env) (cfg : OpenClawConfig)
    (senderOpenId : str) (senderName : option str) (dynamicCfg : DynamicAgentCreationConfig)
    (mkdir1 mkdir2 write : result unit) : result Created * list Effect :=
  if existsb (binds (lit "direct") senderOpenId) (existing_bindings cfg)
  then (Ok (mkCreated false cfg None), [])
  else
    let feishuAgentCount := Z.of_nat (length (feishu_agents cfg)) in
    let limit :=
      match maxAgents dynamicCfg with
      | Some m => if (feishuAgentCount >=? m)%Z then Some m else None
      | None => None
      end in
    match limit with
    | Some m => (Ok (mkCreated false cfg None), [Log (LimitReached m senderOpenId)])
    | None =>
        let agentId := generateFriendlyAgentId senderOpenId senderName in
        let b := new_binding agentId (lit "direct") senderOpenId in
        match List.find (fun a => str_eqb (id a) agentId) (agent_list cfg) with
        | Some _ => add_binding cfg agentId b [Log (AgentExists agentId senderOpenId)] write
        | None =>
            let workspaceTemplate :=
              default (lit "~/.openclaw/workspace-{agentId}") (workspaceTemplate dynamicCfg) in
            let agentDirTemplate :=
              default (lit "~/.openclaw/agents/{agentId}/agent") (agentDirTemplate dynamicCfg) in
            let ws :=
              resolveUserPath env
                (replace (lit "{agentId}") agentId
                   (replace (lit "{userId}") senderOpenId workspaceTemplate)) in
            let dir :=
              resolveUserPath env
                (replace (lit "{agentId}") agentId
                   (replace (lit "{userId}") senderOpenId agentDirTemplate)) in
            create_agent cfg agentId ws dir b
              [Log (Creating agentId senderOpenId); Log (WorkspaceLine ws);
               Log (AgentDirLine dir)]
              mkdir1 mkdir2 write
        end
    end.

Definition group_agent_id (mode chatId senderOpenId : str) : str :=
  if str_eqb mode (lit "per-user") then lit "feishu-user-" ++ senderOpenId
  else lit "feishu-session-" ++ chatId ++ lit "-" ++ senderOpenId.

Definition group_peer_id (mode chatId senderOpenId : str) : str :=
  if str_eqb mode (lit "per-user") then senderOpenId
  else chatId ++ lit ":" ++ senderOpenId.

Definition maybeCreateGroupUserAgent (env : Env) (cfg : OpenClawConfig)
    (chatId senderOpenId : str) (groupUserWorkspaceCfg : GroupUserWorkspaceConfig)
    (mkdir1 mkdir2 write : result unit) : result Created * list Effect :=
  let mode := default (lit "per-session") (mode groupUserWorkspaceCfg) in
  let agentId := group_agent_id mode chatId senderOpenId in
  let peerId := group_peer_id mode chatId senderOpenId in
  if existsb (binds (lit "group") peerId) (existing_bindings cfg)
  then (Ok (mkCreated false cfg (Some agentId)), [])
  else
    let feishuGroupAgentCount := Z.of_nat (length (group_agents cfg)) in
    let limit :=
      match g_maxAgents groupUserWorkspaceCfg with
      | Some m => if (feishuGroupAgentCount >=? m)%Z then Some m else None
      | None => None
      end in
    match limit with
    | Some m => (Ok (mkCreated false cfg None), [Log (GroupLimitReached m senderOpenId)])
    | None =>
        let b := new_binding agentId (lit "group") peerId in
        match List.find (fun a => str_eqb (id a) agentId) (agent_list cfg) with
        | Some _ => add_binding cfg agentId b [Log (GroupAgentExists agentId peerId)] write
        | None =>
            let workspaceTemplate :=
              default (lit "~/.openclaw/workspace-{agentId}")
                (g_workspaceTemplate groupUserWorkspaceCfg) in
            let agentDirTemplate :=
              default (lit "~/.openclaw/agents/{agentId}/agent")
                (g_agentDirTemplate groupUserWorkspaceCfg) in
            let fill (t : str) :=
              replace (lit "{agentId}") agentId
                (replace (lit "{userId}") senderOpenId
                   (replace (lit "{chatId}") chatId t)) in
            let ws := resolveUserPath env (fill workspaceTemplate) in
            let dir := resolveUserPath env (fill agentDirTemplate) in
            create_agent cfg agentId ws dir b
              [Log (GroupCreating agentId senderOpenId chatId); Log (ModeLine mode);
               Log (WorkspaceLine ws); Log (AgentDirLine dir)]
              mkdir1 mkdir2 write
        end
    end.

(** *** Vocabulary of the properties *)

(** Two characters of the class [p] in a row. *)
Fixpoint adjacent (p : N -> bool) (s : str) : bool :=
  match s with
  | a :: t => match t with
              | b :: _ => (p a && p b) || adjacent p t
              | [] => false
              end
  | [] => false
  end.

Definition agent_ids (cfg : OpenClawConfig) : list str := map id (agent_list cfg).

(** A message of a direct chat, as it reaches [maybeCreateDynamicAgent],
    with what the awaited calls answer; and the configuration the
    caller holds after the call: the one returned, or the one it had when
    the call throws. *)
Record DirectMessage : Type := mkDirect {
  dm_sender : str;
  dm_name : option str;
  dm_mkdir1 : result unit;
  dm_mkdir2 : result unit;
  dm_write : result unit
}.

Definition after_direct (env : Env) (dynamicCfg : DynamicAgentCreationConfig)
    (cfg : OpenClawConfig) (m : DirectMessage) : OpenClawConfig :=
  match (maybeCreateDynamicAgent env cfg (dm_sender m) (dm_name m) dynamicCfg
           (dm_mkdir1 m) (dm_mkdir2 m) (dm_write m)).1 with
  | Ok r => updatedCfg r
  | Throw _ => cfg
  end.

Record GroupMessage : Type := mkGroup {
  gm_chat : str;
  gm_sender : str;
  gm_mkdir1 : result unit;
  gm_mkdir2 : result unit;
  gm_write : result unit
}.

Definition after_group (env : Env) (groupCfg : GroupUserWorkspaceConfig)
    (cfg : OpenClawConfig) (m : GroupMessage) : OpenClawConfig :=
  match (maybeCreateGroupUserAgent env cfg (gm_chat m) (gm_sender m) groupCfg
           (gm_mkdir1 m) (gm_mkdir2 m) (gm_write m)).1 with
  | Ok r => updatedCfg r
  | Throw _ => cfg
  end.

(** What a call can come to: the four ways out that the two functions
    share, for the agent [a], the binding [b] and the agents [counted]
    against the limit [limit]. *)
Inductive outcome (cfg : OpenClawConfig) (a : str) (b : Binding) (bound : bool)
    (counted : nat) (limit : option Z) (write : result unit)
  : result Created * list Effect -> Prop :=
| AlreadyBound (r : Created) :
    bound = true -> created r = false -> updatedCfg r = cfg ->
    outcome cfg a b bound counted limit write (Ok r, [])
| AtLimit (m : Z) (l : Effect) :
    bound = false -> limit = Some m -> (m <= Z.of_nat counted)%Z ->
    outcome cfg a b bound counted limit write (Ok (mkCreated false cfg None), [l])
| BindingAdded (logs : list Effect) :
    bound = false -> (forall m, limit = Some m -> (Z.of_nat counted < m)%Z) ->
    a ∈ agent_ids cfg ->
    outcome cfg a b bound counted limit write (add_binding cfg a b logs write)
| AgentCreated (ws dir : str) (logs : list Effect) (mkdir1 mkdir2 : result unit) :
    bound = false -> (forall m, limit = Some m -> (Z.of_nat counted < m)%Z) ->
    a ∉ agent_ids cfg ->
    outcome cfg a b bound counted limit write
      (create_agent cfg a ws dir b logs mkdir1 mkdir2 write).

(** Inputs of the examples: a home directory, [path.join] as the
    concatenation with a slash, and an empty configuration. *)
Definition an_env : Env := mkEnv (lit "/home/bot") (fun a b => a ++ lit "/" ++ b).
Definition no_config : OpenClawConfig := mkCfg None None [].
Definition default_dynamic : DynamicAgentCreationConfig := mkDynamicCfg None None (Some 2%Z).
Definition default_group : GroupUserWorkspaceConfig := mkGroupCfg None None None (Some 2%Z).
Definition done : result unit := Ok tt.

(** Three senders of direct messages whose calls all succeed, and the
    configuration after the first of them. *)
Definition ann : DirectMessage :=
  mkDirect (lit "ou_4f2a9c1e77b0") (Some (lit "Ann  B. /dev")) done done done.
Definition bob : DirectMessage := mkDirect (lit "ou_0c55aa31d9e2") None done done done.
Definition cyd : DirectMessage :=
  mkDirect (lit "on_91b7e4402fa8") (Some (lit "Cyd")) done done done.

Definition ann_agent_id : str :=
  Eval vm_compute in generateFriendlyAgentId (dm_sender ann) (dm_name ann).
Definition ann_config : OpenClawConfig :=
  Eval vm_compute in after_direct an_env default_dynamic no_config ann.

(** The same for members of two group chats. *)
Definition ann_in_team : GroupMessage :=
  mkGroup (lit "oc_team") (lit "ou_4f2a9c1e77b0") done done done.
Definition bob_in_team : GroupMessage :=
  mkGroup (lit "oc_team") (lit "ou_0c55aa31d9e2") done done done.
Definition ann_in_club : GroupMessage :=
  mkGroup (lit "oc_club") (lit "ou_4f2a9c1e77b0") done done done.

Definition team_agent_id : str :=
  Eval vm_compute in
    group_agent_id (lit "per-session") (gm_chat ann_in_team) (gm_sender ann_in_team).
Definition team_config : OpenClawConfig :=
  Eval vm_compute in after_group an_env default_group no_config ann_in_team.

End DynamicAgent.
(** * Properties *)

(** ** Domain resolution *)

Module DomainFacts.

Lemma strip_trailing_slashes_example :
  strip_trailing_slashes "https://lark.corp.example///" = "https://lark.corp.example".
Proof. reflexivity. Qed.

Lemma truthy_Some (d : string) : truthy (Some d) = negb (String.eqb d "").
Proof. destruct d; reflexivity. Qed.

(** [resolveApiBase] keeps a value only when it starts with [http]; any
    other value that is not ["lark"] gives the Feishu base. *)
Lemma resolveApiBase_fallback (d : string) :
  d <> "lark" -> startsWith "http" d = false ->
  StreamingCard.resolveApiBase (Some d) = StreamingCard.FEISHU_API_BASE.
Proof.
  intros Hl Hp. unfold StreamingCard.resolveApiBase.
  apply String.eqb_neq in Hl. rewrite Hl, Hp.
  now rewrite andb_false_r.
Qed.

(** [resolveDomain] keeps every non-empty value other than the two
    names, whatever it starts with. *)
Lemma resolveDomain_custom (d : string) :
  d <> "lark" -> d <> "feishu" -> d <> "" ->
  ClientCache.resolveDomain (Some d)
  = ClientCache.DomainCustom (strip_trailing_slashes d).
Proof.
  intros Hl Hf He. unfold ClientCache.resolveDomain.
  apply String.eqb_neq in Hl, Hf. rewrite Hl, Hf, truthy_Some.
  apply String.eqb_neq in He. now rewrite He.
Qed.

(** C9, at the value ["intranet"]: the streaming code falls back to the
    Feishu API base, while the client is built with ["intranet"] itself as
    the base URL of a private deployment, not with the Feishu domain. *)
Theorem resolveDomain_keeps_unknown_value :
  StreamingCard.resolveApiBase (Some "intranet") = StreamingCard.FEISHU_API_BASE
  /\ ClientCache.resolveDomain (Some "intranet") = ClientCache.DomainCustom "intranet"
  /\ ClientCache.resolveDomain (Some "intranet") <> ClientCache.DomainFeishu
  /\ (exists cl c,
        ClientCache.createFeishuClient
          (ClientCache.mkCreds (Some "main") (Some "cli_a") (Some "secret") (Some "intranet"))
          7 [] = (Ok cl, c)
        /\ ClientCache.cl_domain cl = ClientCache.DomainCustom "intranet").
Proof.
  split; [reflexivity|]. split; [reflexivity|]. split; [discriminate|].
  eexists _, _. split; reflexivity.
Qed.

End DomainFacts.

(** ** The client cache *)

Module ClientCacheFacts.
Import ClientCache.

(** *** The map operations *)

Lemma map_get_Some_elem (k : string) (e : Entry) (c : Cache) :
  map_get k c = Some e -> (k, e) ∈ c.
Proof.
  induction c as [|[k' e'] r IH]; simpl; [discriminate|].
  destruct (String.eqb_spec k k') as [->|Hne].
  - intros [= ->]. left.
  - intros H. right. auto.
Qed.

Lemma map_get_None_keys (k : string) (c : Cache) :
  map_get k c = None <-> k ∉ keys c.
Proof.
  induction c as [|[k' e'] r IH]; simpl.
  - split; [intros _; apply not_elem_of_nil | reflexivity].
  - destruct (String.eqb_spec k k') as [->|Hne].
    + split; [discriminate|]. intros H. exfalso. apply H. left.
    + rewrite IH. unfold keys. simpl. rewrite not_elem_of_cons. tauto.
Qed.

Lemma elem_map_get (k : string) (e : Entry) (c : Cache) :
  NoDup (keys c) -> (k, e) ∈ c -> map_get k c = Some e.
Proof.
  induction c as [|[k' e'] r IH]; simpl; intros Hnd Hin.
  - inversion Hin.
  - apply NoDup_cons in Hnd as [Hk' Hnd].
    apply elem_of_cons in Hin as [[= -> ->]|Hin].
    + now rewrite String.eqb_refl.
    + destruct (String.eqb_spec k k') as [->|Hne]; [|auto].
      exfalso. apply Hk'. unfold keys.
      apply (list_elem_of_fmap_2 fst) in Hin. exact Hin.
Qed.

Lemma keys_map_set (k : string) (e : Entry) (c : Cache) :
  keys (map_set k e c) = match map_get k c with Some _ => keys c | None => (keys c ++ [k])%list end.
Proof.
  induction c as [|[k' e'] r IH]; simpl; [reflexivity|].
  destruct (String.eqb_spec k k') as [->|Hne]; simpl; [reflexivity|].
  unfold keys in *. rewrite IH. now destruct (map_get k r).
Qed.

Lemma length_map_set (k : string) (e : Entry) (c : Cache) :
  length (map_set k e c) = match map_get k c with Some _ => length c | None => S (length c) end.
Proof.
  induction c as [|[k' e'] r IH]; simpl; [reflexivity|].
  destruct (String.eqb_spec k k') as [->|Hne]; simpl; [reflexivity|].
  rewrite IH. now destruct (map_get k r).
Qed.

Lemma map_get_map_set (k j : string) (e : Entry) (c : Cache) :
  map_get j (map_set k e c) = if String.eqb j k then Some e else map_get j c.
Proof.
  induction c as [|[k' e'] r IH]; simpl.
  - now destruct (String.eqb j k).
  - destruct (String.eqb_spec k k') as [->|Hne]; simpl.
    + now destruct (String.eqb j k').
    + rewrite IH. destruct (String.eqb_spec j k') as [->|Hne'].
      * apply not_eq_sym in Hne. apply String.eqb_neq in Hne. now rewrite Hne.
      * reflexivity.
Qed.

Lemma filter_ne_notin (k : string) (l : list string) :
  k ∉ l -> filter (fun j => j <> k) l = l.
Proof.
  induction l as [|j l IH]; intros Hk; [reflexivity|].
  apply not_elem_of_cons in Hk as [Hne Hk].
  rewrite filter_cons_True by congruence. now rewrite IH.
Qed.

(** The keys after [Map.delete]: the others, in their order. *)
Lemma keys_map_delete (k : string) (c : Cache) :
  NoDup (keys c) -> keys (map_delete k c) = filter (fun j => j <> k) (keys c).
Proof.
  induction c as [|[k' e'] r IH]; simpl; intros Hnd; [reflexivity|].
  apply NoDup_cons in Hnd as [Hk' Hnd]. unfold keys in *. simpl.
  destruct (String.eqb_spec k k') as [->|Hne].
  - rewrite filter_cons_False by (intros H; now apply H).
    symmetry. now apply filter_ne_notin.
  - rewrite filter_cons_True by congruence. simpl. now rewrite IH.
Qed.

Lemma length_map_delete (k : string) (e : Entry) (c : Cache) :
  (k, e) ∈ c -> S (length (map_delete k c)) = length c.
Proof.
  induction c as [|[k' e'] r IH]; simpl; intros Hin; [inversion Hin|].
  destruct (String.eqb_spec k k') as [->|Hne]; [reflexivity|].
  apply elem_of_cons in Hin as [[= -> ->]|Hin]; [congruence|].
  simpl. now rewrite IH.
Qed.

Lemma map_get_map_delete (k j : string) (c : Cache) :
  NoDup (keys c) ->
  map_get j (map_delete k c) = if String.eqb j k then None else map_get j c.
Proof.
  induction c as [|[k' e'] r IH]; simpl; intros Hnd.
  - now destruct (String.eqb j k).
  - apply NoDup_cons in Hnd as [Hk' Hnd].
    destruct (String.eqb_spec k k') as [->|Hne]; simpl.
    + destruct (String.eqb_spec j k') as [->|Hne']; [|reflexivity].
      now apply map_get_None_keys.
    + rewrite IH by assumption.
      destruct (String.eqb_spec j k') as [->|Hne'].
      * apply not_eq_sym in Hne. apply String.eqb_neq in Hne. now rewrite Hne.
      * reflexivity.
Qed.

(** *** The scan for the oldest entry *)

Lemma scan_step_scanned (seen : Cache) (acc : option string * option Z)
    (kv : string * Entry) :
  scanned seen acc -> scanned (seen ++ [kv]) (scan_step acc kv).
Proof.
  destruct acc as [[k|] [t|]]; simpl; try tauto.
  - intros (e & Hin & Ht & Hmin).
    destruct (Z.ltb_spec (lastAccess kv.2) t) as [Hlt|Hge]; simpl.
    + exists kv.2. split; [|split; [reflexivity|]].
      * apply elem_of_app. right. destruct kv. left.
      * intros k' e' [H|H]%elem_of_app.
        -- specialize (Hmin _ _ H). lia.
        -- apply list_elem_of_singleton in H. subst kv. simpl. lia.
    + exists e. split; [|split; [assumption|]].
      * apply elem_of_app. now left.
      * intros k' e' [H|H]%elem_of_app.
        -- eauto.
        -- apply list_elem_of_singleton in H. subst kv. simpl in *. lia.
  - intros ->. simpl. exists kv.2. split; [|split; [reflexivity|]].
    + destruct kv. left.
    + intros k' e' H. apply list_elem_of_singleton in H. subst kv. simpl. lia.
Qed.

Lemma fold_scan_scanned (c seen : Cache) (acc : option string * option Z) :
  scanned seen acc -> scanned (seen ++ c) (fold_left scan_step c acc).
Proof.
  revert seen acc. induction c as [|kv c IH]; intros seen acc H; simpl.
  - now rewrite app_nil_r.
  - replace (seen ++ kv :: c)%list with ((seen ++ [kv]) ++ c)%list
      by now rewrite <- app_assoc.
    apply IH. now apply scan_step_scanned.
Qed.

Lemma scan_oldest_scanned (c : Cache) : scanned c (scan_oldest c).
Proof. apply (fold_scan_scanned c [] (None, None)). reflexivity. Qed.

(** On a cache that is not empty the scan ends on an entry of the cache
    that no entry is older than. *)
Lemma scan_oldest_min (c : Cache) :
  c <> [] ->
  exists k e, fst (scan_oldest c) = Some k /\ (k, e) ∈ c
              /\ forall k' e', (k', e') ∈ c -> (lastAccess e <= lastAccess e')%Z.
Proof.
  intros Hne. pose proof (scan_oldest_scanned c) as H.
  destruct (scan_oldest c) as [[k|] [t|]]; simpl in *; try tauto.
  destruct H as (e & Hin & <- & Hmin). eauto.
Qed.

(** *** Eviction *)

Lemma evict_below_capacity (c : Cache) :
  (length c < CLIENT_CACHE_MAX_SIZE)%nat -> evictOldestIfNeeded c = c.
Proof.
  intros H. unfold evictOldestIfNeeded.
  apply Nat.ltb_lt in H. now rewrite H.
Qed.

(** At capacity, when the scan ends on a key that is not the empty
    string, that entry is deleted. *)
Lemma evict_at_capacity (c : Cache) (k : string) :
  (CLIENT_CACHE_MAX_SIZE <= length c)%nat ->
  fst (scan_oldest c) = Some k -> k <> "" ->
  evictOldestIfNeeded c = map_delete k c.
Proof.
  intros Hlen Hk Hne. unfold evictOldestIfNeeded.
  apply Nat.ltb_ge in Hlen. rewrite Hlen, Hk.
  destruct k; [congruence|reflexivity].
Qed.

(** At capacity, when the scan ends on the key [""], nothing is
    deleted: [if (oldestKey)] is false for the empty string. *)
Lemma evict_empty_key (c : Cache) :
  fst (scan_oldest c) = Some "" -> evictOldestIfNeeded c = c.
Proof.
  intros Hk. unfold evictOldestIfNeeded. rewrite Hk. simpl.
  now destruct (length c <? CLIENT_CACHE_MAX_SIZE)%nat.
Qed.

Lemma evict_wf (c : Cache) :
  wf_cache c ->
  wf_cache (evictOldestIfNeeded c)
  /\ (length (evictOldestIfNeeded c) < CLIENT_CACHE_MAX_SIZE)%nat.
Proof.
  intros (Hnd & Hne & Hlen).
  destruct (Nat.lt_ge_cases (length c) CLIENT_CACHE_MAX_SIZE) as [Hlt|Hge].
  - rewrite evict_below_capacity by assumption. repeat split; assumption.
  - assert (c <> []) as Hc by (intros ->; simpl in Hge; unfold CLIENT_CACHE_MAX_SIZE in Hge; lia).
    destruct (scan_oldest_min c Hc) as (k & e & Hk & Hin & _).
    assert (k ∈ keys c) as Hkin by (apply (list_elem_of_fmap_2 fst) in Hin; exact Hin).
    assert (k <> "") as Hkne by (rewrite Forall_forall in Hne; now apply Hne).
    rewrite (evict_at_capacity c k) by assumption.
    pose proof (length_map_delete k e c Hin) as Hl.
    assert (keys (map_delete k c) ⊆ keys c) as Hsub.
    { rewrite keys_map_delete by assumption. intros j Hj.
      apply list_elem_of_filter in Hj. tauto. }
    repeat split.
    + rewrite keys_map_delete by assumption. now apply NoDup_filter.
    + rewrite Forall_forall in *. intros j Hj. apply Hne. now apply Hsub.
    + lia.
    + lia.
Qed.

(** *** [createFeishuClient] *)

Lemma createFeishuClient_wf (creds : FeishuClientCredentials) (now : Z) (c : Cache) :
  cr_accountId creds <> Some "" ->
  wf_cache c -> wf_cache (snd (createFeishuClient creds now c)).
Proof.
  intros Hid Hwf. unfold createFeishuClient.
  set (accountId := default "default" (cr_accountId creds)).
  assert (accountId <> "") as Hacc.
  { subst accountId. destruct (cr_accountId creds); simpl; congruence. }
  assert (forall e c0, wf_cache c0 ->
            (map_get accountId c0 = None -> length c0 < CLIENT_CACHE_MAX_SIZE)%nat ->
            wf_cache (map_set accountId e c0)) as Hset.
  { intros e c0 (Hnd & Hne & Hlen) Hroom. unfold wf_cache.
    rewrite keys_map_set, length_map_set.
    destruct (map_get accountId c0) eqn:Hg; [repeat split; assumption|].
    repeat split.
    - apply NoDup_app. split; [assumption|]. split; [|apply NoDup_singleton].
      intros x Hx Hx'. apply list_elem_of_singleton in Hx'. subst x.
      now apply map_get_None_keys in Hg.
    - apply Forall_app. split; [assumption|]. now constructor.
    - specialize (Hroom eq_refl). lia. }
  destruct (negb (truthy (cr_appId creds)) || negb (truthy (cr_appSecret creds)));
    [exact Hwf|].
  destruct (map_get accountId c) as [cached|] eqn:Hg.
  - destruct (_ && _); simpl.
    + apply Hset; [assumption|]. congruence.
    + destruct (evict_wf c Hwf) as [Hwf' Hlt]. apply Hset; auto.
  - simpl. destruct (evict_wf c Hwf) as [Hwf' Hlt]. apply Hset; auto.
Qed.

(** The bound of the cache, for account ids that are not the empty
    string. *)
Lemma create_all_bounded (calls : list (FeishuClientCredentials * Z)) (c : Cache) :
  Forall (fun call => cr_accountId (fst call) <> Some "") calls ->
  wf_cache c ->
  (getClientCacheSize (create_all calls c) <= CLIENT_CACHE_MAX_SIZE)%nat.
Proof.
  intros Hcalls Hwf.
  enough (wf_cache (create_all calls c)) as (_ & _ & H) by exact H.
  revert c Hwf. induction Hcalls as [|call calls Hid _ IH]; intros c Hwf; [exact Hwf|].
  unfold create_all in *. simpl. apply IH. now apply createFeishuClient_wf.
Qed.

(** 51 accounts ["a"], ["aa"], ...: 50 entries are left, and the first
    one inserted, the least recently accessed, is the one that went. *)
Lemma create_51_nonempty_accounts :
  let c := create_all (calls_from 1 51) [] in
  getClientCacheSize c = 50%nat /\ keys c = map account (seq 2 50).
Proof. vm_compute. split; reflexivity. Qed.

(** C4, for 51 account ids of which the first is the empty string: the
    ids are distinct, and the cache ends with 51 entries, the oldest one
    (key [""], accessed at time 0) still among them. *)
Theorem cache_exceeds_capacity_with_empty_accountId :
  let calls := calls_from 0 51 in
  let c := create_all calls [] in
  NoDup (map (fun call => cr_accountId (fst call)) calls)
  /\ length calls = 51%nat
  /\ getClientCacheSize c = 51%nat
  /\ (CLIENT_CACHE_MAX_SIZE < getClientCacheSize c)%nat
  /\ fst (scan_oldest c) = Some ""
  /\ keys c = map account (seq 0 51).
Proof.
  split; [|vm_compute; repeat split; lia].
  apply (bool_decide_unpack _). vm_compute. exact I.
Qed.

Lemma option_string_eqb_eq (a b : option string) :
  option_string_eqb a b = true <-> a = b.
Proof.
  destruct a as [x|], b as [y|]; simpl; try (split; congruence).
  rewrite String.eqb_eq. split; congruence.
Qed.

(** The test of the cache hit is the equality of the three fields. *)
Lemma hit_test_false (cfg : Config) (a s : string) (d : option string) :
  cfg <> mkConfig a s d ->
  String.eqb (appId cfg) a && String.eqb (appSecret cfg) s
    && option_string_eqb (domain cfg) d = false.
Proof.
  intros Hne. apply not_true_is_false. intros H.
  apply andb_prop in H as [H Hd]. apply andb_prop in H as [Ha Hs].
  apply String.eqb_eq in Ha, Hs. apply option_string_eqb_eq in Hd.
  apply Hne. destruct cfg; simpl in *. congruence.
Qed.

Lemma map_set_absent (k : string) (e : Entry) (c : Cache) :
  map_get k c = None -> map_set k e c = c ++ [(k, e)].
Proof.
  induction c as [|[k' e'] r IH]; simpl; [reflexivity|].
  destruct (String.eqb k k'); [discriminate|]. intros H. now rewrite IH.
Qed.


Lemma full_cache_eq : full_cache = create_all (calls_from 1 50) [].
Proof. vm_compute. reflexivity. Qed.




End ClientCacheFacts.

(** ** The token cache *)

Module TokenCacheFacts.
Import StreamingCard.
Local Open Scope Z_scope.

(** The sweep only removes entries. *)
Lemma cleanup_lookup_Some (now : Z) (st : TokenStore) (k : string) (e : TokenEntry) :
  tokenCache (cleanupTokenCache now st) !! k = Some e -> tokenCache st !! k = Some e.
Proof.
  unfold cleanupTokenCache.
  destruct (now - lastTokenCacheCleanup st <? TOKEN_CACHE_CLEANUP_INTERVAL_MS); simpl.
  - trivial.
  - intros H. apply map_lookup_filter_Some in H. tauto.
Qed.

(** When it runs, the sweep removes the entries that have expired and
    keeps the others. *)
Lemma cleanup_purges (now : Z) (st : TokenStore) (k : string) (e : TokenEntry) :
  TOKEN_CACHE_CLEANUP_INTERVAL_MS <= now - lastTokenCacheCleanup st ->
  tokenCache (cleanupTokenCache now st) !! k = Some e
  <-> tokenCache st !! k = Some e /\ now <= expiresAt e.
Proof.
  intros Hdue. unfold cleanupTokenCache.
  apply Z.ltb_ge in Hdue. rewrite Hdue. simpl.
  rewrite map_lookup_filter_Some. simpl. split; intros [H1 H2]; split; auto; lia.
Qed.

Lemma getToken_requests (creds : Credentials) (nc nk : Z)
    (ex : result TokenResponse) (ns : Z) (st : TokenStore) :
  let r := getToken creds nc nk ex ns st in
  r.2 = [] \/ r.2 = [exchange_request creds].
Proof.
  unfold getToken.
  destruct (tokenCache (cleanupTokenCache nc st) !! token_key creds) as [cached|];
    [destruct (expiresAt cached >? nk + 60000); [now left|]|];
    (destruct ex as [data|e]; [destruct (_ || _)|]; now right).
Qed.

(** A token comes back without an exchange only from an entry of the
    store that expires more than 60000 ms after the check. *)
Lemma getToken_cached (creds : Credentials) (nc nk : Z)
    (ex : result TokenResponse) (ns : Z) (st : TokenStore) (tok : string) :
  let r := getToken creds nc nk ex ns st in
  r.1.1 = Ok tok -> r.2 = [] ->
  exists e, tokenCache st !! token_key creds = Some e
            /\ token e = tok /\ nk + 60000 < expiresAt e
            /\ r.1.2 = cleanupTokenCache nc st.
Proof.
  unfold getToken.
  destruct (tokenCache (cleanupTokenCache nc st) !! token_key creds) as [cached|] eqn:Hc.
  - destruct (Z.gtb_spec (expiresAt cached) (nk + 60000)) as [Hgt|Hle]; simpl.
    + intros [= <-] _. exists cached. apply cleanup_lookup_Some in Hc. auto.
    + destruct ex as [data|e]; [destruct (_ || _)|]; discriminate.
  - destruct ex as [data|e]; [destruct (_ || _)|]; discriminate.
Qed.

(** Without an entry that outlives the check by more than 60000 ms, the
    exchange is requested and decides the result: its error, or the token
    it gives, stored with the lifetime the endpoint reports (7200 s when
    it reports none). *)
Lemma getToken_exchange (creds : Credentials) (nc nk : Z)
    (ex : result TokenResponse) (ns : Z) (st : TokenStore) :
  (forall e, tokenCache st !! token_key creds = Some e -> expiresAt e <= nk + 60000) ->
  let r := getToken creds nc nk ex ns st in
  r.2 = [exchange_request creds]
  /\ match ex with
     | Throw err => r.1.1 = Throw err /\ r.1.2 = cleanupTokenCache nc st
     | Ok data =>
         if (tr_code data =? 0) && truthy (tenant_access_token data)
         then exists tok,
             tenant_access_token data = Some tok /\ r.1.1 = Ok tok
             /\ tokenCache r.1.2 !! token_key creds
                = Some (mkTokenEntry tok (ns + default 7200 (expire data) * 1000))
         else r.1.1 = Throw (TokenError (tr_msg data))
              /\ r.1.2 = cleanupTokenCache nc st
     end.
Proof.
  intros Hstale. unfold getToken.
  assert (forall fresh : result string * TokenStore * list TokenExchange,
            match tokenCache (cleanupTokenCache nc st) !! token_key creds with
            | Some cached =>
                if expiresAt cached >? nk + 60000
                then (Ok (token cached), cleanupTokenCache nc st, []) else fresh
            | None => fresh
            end = fresh) as ->.
  { intros fresh.
    destruct (tokenCache (cleanupTokenCache nc st) !! token_key creds) as [cached|] eqn:Hc;
      [|reflexivity].
    apply cleanup_lookup_Some, Hstale in Hc.
    destruct (Z.gtb_spec (expiresAt cached) (nk + 60000)); [lia|reflexivity]. }
  destruct ex as [data|err]; [|simpl; auto].
  rewrite <- negb_andb.
  destruct ((tr_code data =? 0) && truthy (tenant_access_token data)) eqn:Hgood;
    simpl; [|auto].
  apply andb_prop in Hgood as [_ Htok].
  destruct (tenant_access_token data) as [tok|]; [|discriminate].
  split; [reflexivity|]. exists tok. split; [reflexivity|].
  split; [reflexivity|]. apply lookup_insert_eq.
Qed.

(** A token that comes back after an exchange is the one the endpoint
    gave, and the store then holds it. *)
Lemma getToken_fresh_inv (creds : Credentials) (nc nk : Z)
    (ex : result TokenResponse) (ns : Z) (st : TokenStore) (tok : string) :
  let r := getToken creds nc nk ex ns st in
  r.1.1 = Ok tok -> r.2 <> [] ->
  exists data,
    ex = Ok data /\ tenant_access_token data = Some tok
    /\ r = (Ok tok,
            {| tokenCache :=
                 <[token_key creds :=
                     mkTokenEntry tok (ns + default 7200 (expire data) * 1000)]>
                   (tokenCache (cleanupTokenCache nc st));
               lastTokenCacheCleanup := lastTokenCacheCleanup (cleanupTokenCache nc st) |},
            [exchange_request creds]).
Proof.
  unfold getToken.
  destruct (tokenCache (cleanupTokenCache nc st) !! token_key creds) as [cached|];
    [destruct (expiresAt cached >? nk + 60000);
       [simpl; intros _ H; now contradiction H|]|];
    (destruct ex as [data|err]; [|discriminate];
     rewrite <- negb_andb;
     destruct ((tr_code data =? 0) && truthy (tenant_access_token data)) eqn:Hgood;
       [|discriminate];
     apply andb_prop in Hgood as [_ Htok];
     destruct (tenant_access_token data) as [tok'|] eqn:Hsome; [|discriminate];
     simpl; intros [= ->] _; exists data; repeat split; assumption).
Qed.

(** C5, as the code has it: a token returned without an exchange has
    more than 60 seconds left at the return; an entry with 60 seconds or
    less left, expired or not, is not returned, the exchange is requested
    instead; and the token of an exchange is returned with the lifetime
    the endpoint reports, so it has 60 seconds left at the return exactly
    when that lifetime is 60 seconds or more. *)
Theorem getToken_freshness (creds : Credentials) (nc nk : Z)
    (ex : result TokenResponse) (ns : Z) (st : TokenStore) :
  let r := getToken creds nc nk ex ns st in
  (forall tok, r.1.1 = Ok tok -> r.2 = [] ->
     exists e, tokenCache st !! token_key creds = Some e /\ token e = tok
               /\ 60000 < expiresAt e - return_time nk ns r.2)
  /\ (forall e, tokenCache st !! token_key creds = Some e ->
        expiresAt e - nk <= 60000 ->
        r.2 = [exchange_request creds]
        /\ forall tok, r.1.1 = Ok tok ->
             exists data, ex = Ok data /\ tenant_access_token data = Some tok)
  /\ (forall tok, r.1.1 = Ok tok -> r.2 <> [] ->
        exists data e,
          ex = Ok data /\ tenant_access_token data = Some tok
          /\ tokenCache r.1.2 !! token_key creds = Some e /\ token e = tok
          /\ expiresAt e - return_time nk ns r.2 = default 7200 (expire data) * 1000
          /\ (returns_fresh_token creds nc nk ex ns st
              <-> 60 <= default 7200 (expire data))).
Proof.
  intros r. split; [|split].
  - intros tok Hok Hreq.
    destruct (getToken_cached creds nc nk ex ns st tok Hok Hreq) as (e & He & Ht & Hlt & _).
    exists e. fold r. rewrite Hreq. simpl. repeat split; auto. lia.
  - intros e He Hle.
    destruct (getToken_exchange creds nc nk ex ns st) as [Hreq Hres].
    { intros e' He'. rewrite He in He'. injection He' as <-. lia. }
    fold r in Hreq, Hres. split; [exact Hreq|]. intros tok Hok.
    destruct ex as [data|err].
    + destruct ((tr_code data =? 0) && truthy (tenant_access_token data)).
      * destruct Hres as (tok' & Htok & Hr & _). exists data. split; congruence.
      * destruct Hres as [Hr _]. congruence.
    + destruct Hres as [Hr _]. congruence.
  - intros tok Hok Hreq.
    destruct (getToken_fresh_inv creds nc nk ex ns st tok Hok Hreq)
      as (data & -> & Htok & Hr).
    fold r in Hr. exists data, (mkTokenEntry tok (ns + default 7200 (expire data) * 1000)).
    assert (tokenCache r.1.2 !! token_key creds
            = Some (mkTokenEntry tok (ns + default 7200 (expire data) * 1000))) as Hlook
      by (rewrite Hr; simpl; apply lookup_insert_eq).
    assert (return_time nk ns r.2 = ns) as Hrt by now rewrite Hr.
    repeat split; auto.
    + rewrite Hrt. simpl. lia.
    + intros Hfresh. destruct (Hfresh tok Hok) as (e & He & _ & Hval).
      fold r in He, Hval. rewrite Hlook in He. injection He as <-.
      rewrite Hrt in Hval. simpl in Hval. lia.
    + intros Httl tok' Hok'. fold r in Hok' |- *.
      exists (mkTokenEntry tok (ns + default 7200 (expire data) * 1000)).
      rewrite Hrt. simpl. repeat split; [exact Hlook|congruence|lia].
Qed.

(** At the clock 1000, a token that expires at 70000 is returned from the
    store; one that expires at 50000 is exchanged; and the 30-second
    token of the exchange is returned as it is. *)
Lemma getToken_freshness_witness :
  (exists e, tokenCache (store_with "t-0" 70000) !! token_key app_creds = Some e
             /\ token e = "t-0" /\ 60000 < expiresAt e - 1000)
  /\ (getToken app_creds 1000 1000 (Ok short_lived) 1200 (store_with "t-0" 50000)).2
     = [exchange_request app_creds]
  /\ ~ returns_fresh_token app_creds 1000 1000 (Ok short_lived) 1200 (store_with "t-0" 50000).
Proof.
  split; [|split].
  - destruct (getToken_freshness app_creds 1000 1000 (Ok short_lived) 1200
                (store_with "t-0" 70000)) as (H & _ & _).
    destruct (H "t-0") as (e & He & Ht & Hv); [reflexivity|reflexivity|].
    exists e. repeat split; [exact He|exact Ht|exact Hv].
  - destruct (getToken_freshness app_creds 1000 1000 (Ok short_lived) 1200
                (store_with "t-0" 50000)) as (_ & H & _).
    destruct (H (mkTokenEntry "t-0" 50000)) as [Hreq _]; [reflexivity|simpl; lia|].
    exact Hreq.
  - destruct (getToken_freshness app_creds 1000 1000 (Ok short_lived) 1200
                (store_with "t-0" 50000)) as (_ & _ & H).
    destruct (H "t-1") as (data & e & Hd & _ & _ & _ & _ & Hiff);
      [reflexivity|discriminate|].
    injection Hd as <-. intros Hfresh. apply Hiff in Hfresh. simpl in Hfresh. lia.
Defined.

(** C5 as stated fails on an empty store when the endpoint gives a token
    for 30 seconds: the token is returned, and the store records 30000 ms
    of validity for it at the return. *)
Lemma getToken_short_lived_token_returned :
  let r := getToken app_creds 1000 1000 (Ok short_lived) 1200 empty_store in
  r.1.1 = Ok "t-1"
  /\ tokenCache r.1.2 !! token_key app_creds = Some (mkTokenEntry "t-1" 31200)
  /\ return_time 1000 1200 r.2 = 1200
  /\ ~ returns_fresh_token app_creds 1000 1000 (Ok short_lived) 1200 empty_store.
Proof.
  intros r.
  assert (r.1.1 = Ok "t-1") as Hok by reflexivity.
  assert (tokenCache r.1.2 !! token_key app_creds = Some (mkTokenEntry "t-1" 31200)) as Hlook
    by apply lookup_insert_eq.
  split; [exact Hok|]. split; [exact Hlook|]. split; [reflexivity|].
  intros Hfresh. destruct (Hfresh "t-1" Hok) as (e & He & _ & Hv).
  fold r in He, Hv. rewrite Hlook in He. injection He as <-.
  change (return_time 1000 1200 r.2) with 1200 in Hv. simpl in Hv. lia.
Qed.

End TokenCacheFacts.

(** ** The streaming session *)

Module SessionFacts.
Import StreamingCard.
Local Open Scope Z_scope.

(** Unfolds the operations on sessions down to pairs and matches. *)
Ltac run_m :=
  unfold step, start, update, unit_start, unit_token, unit_response, close, close_drained,
    handleError, call_log, call_error, modify_card, card,
    bind, ret, get, modify, emit, await, throw, try_catch in *.

(** *** [start] *)

Lemma start_started (s : Session) (receiveId : string) (kind : option ReceiveIdType)
    (tok : result string) (createRes : result CreateResponse)
    (sendRes : result SendResponse) :
  is_Some (state s) -> start receiveId kind tok createRes sendRes s = (Ok tt, s, []).
Proof.
  intros [cs Hcs]. run_m. rewrite Hcs. reflexivity.
Qed.

(** A failed [start] has written nothing to the session. *)
Lemma start_throw_unchanged (s : Session) (receiveId : string) (kind : option ReceiveIdType)
    (tok : result string) (createRes : result CreateResponse)
    (sendRes : result SendResponse) (e : JsError) :
  (start receiveId kind tok createRes sendRes s).1.1 = Throw e ->
  (start receiveId kind tok createRes sendRes s).1.2 = s /\ state s = None.
Proof.
  run_m. destruct (state s) as [cs|] eqn:Hcs; simpl; [discriminate|].
  destruct tok as [t|et]; simpl; [|auto].
  destruct createRes as [cd|ec]; simpl; [|auto].
  destruct (negb (cr_code cd =? 0) || negb (truthy (cr_card_id cd))); simpl; [auto|].
  destruct sendRes as [sd|es]; simpl; [|auto].
  destruct (negb (sr_code sd =? 0) || negb (truthy (sr_message_id sd))); simpl; [auto|].
  destruct (log s); simpl; discriminate.
Qed.

(** On a session that is not started, [start] succeeds exactly when the
    token is obtained, the card is created with code 0 and a card id,
    and the message is sent with code 0 and a message id. *)
Lemma start_unstarted_result (s : Session) (receiveId : string) (kind : option ReceiveIdType)
    (tok : result string) (createRes : result CreateResponse)
    (sendRes : result SendResponse) :
  state s = None ->
  (start receiveId kind tok createRes sendRes s).1.1 =
    match tok, createRes, sendRes with
    | Throw e, _, _ => Throw e
    | Ok _, Throw e, _ => Throw e
    | Ok _, Ok cd, sent =>
        if negb (cr_code cd =? 0) || negb (truthy (cr_card_id cd))
        then Throw (CreateCardFailed (cr_msg cd))
        else match sent with
             | Throw e => Throw e
             | Ok sd =>
                 if negb (sr_code sd =? 0) || negb (truthy (sr_message_id sd))
                 then Throw (SendCardFailed (sr_msg sd))
                 else Ok tt
             end
    end.
Proof.
  intros Hs. run_m. rewrite Hs. simpl.
  destruct tok as [t|et]; simpl; [|auto].
  destruct createRes as [cd|ec]; simpl; [|auto].
  destruct (negb (cr_code cd =? 0) || negb (truthy (cr_card_id cd))); simpl; [auto|].
  destruct sendRes as [sd|es]; simpl; [|auto].
  destruct (negb (sr_code sd =? 0) || negb (truthy (sr_message_id sd))); simpl; [auto|].
  destruct (log s); reflexivity.
Qed.

(** [start] is its four parts, run with nothing in between. *)
Lemma start_in_one_go (s : Session) (receiveId : string) (kind : option ReceiveIdType)
    (tok : result string) (createRes : result CreateResponse)
    (sendRes : result SendResponse) :
  start receiveId kind tok createRes sendRes s
  = (entered <- start_enter receiveId kind ;;
     match entered with
     | None => ret tt
     | Some c0 =>
         c1 <- start_token c0 tok ;;
         c2 <- start_created c1 createRes ;;
         match sc_phase c2 with
         | StartAwaitSend cardId => start_sent cardId sendRes
         | _ => ret tt
         end
     end)%session s.
Proof.
  unfold start_enter, start_token, start_created, start_sent. run_m.
  destruct (state s) as [cs|]; simpl; [reflexivity|].
  destruct tok as [t|et]; simpl; [|reflexivity].
  destruct createRes as [cd|ec]; simpl; [|reflexivity].
  destruct (negb (cr_code cd =? 0) || negb (truthy (cr_card_id cd))); simpl; [reflexivity|].
  destruct sendRes as [sd|es]; simpl; [|reflexivity].
  destruct (negb (sr_code sd =? 0) || negb (truthy (sr_message_id sd))); simpl;
    [reflexivity|].
  destruct (log s); reflexivity.
Qed.

(** A resumption of a [start] call that throws has written nothing. *)
Lemma start_move_throw (m : Move) (l : Live) (e : JsError) :
  is_start_move m = true -> (move m l).1.1 = Throw e -> (move m l).1.2.1 = l.1.
Proof.
  destruct l as [s calls]. destruct m as [ev|rid kind|i tok|i cr|i sr]; simpl; intros Hm.
  - destruct ev; try discriminate. cbn [step].
    pose proof (start_throw_unchanged s receiveId receiveIdType tok createRes sendRes e)
      as Hsame.
    destruct (start _ _ _ _ _ s) as [[r s'] o]. simpl in *.
    intros He. now destruct (Hsame He).
  - unfold start_enter. run_m. destruct (bool_decide _); discriminate.
  - destruct (calls !! i) as [call|]; [|discriminate].
    destruct (sc_phase call); try discriminate.
    unfold start_token. run_m. destruct tok; simpl; [discriminate|reflexivity].
  - destruct (calls !! i) as [call|]; [|discriminate].
    destruct (sc_phase call); try discriminate.
    unfold start_created. run_m. destruct cr as [cd|ec]; simpl; [|reflexivity].
    destruct (negb (cr_code cd =? 0) || negb (truthy (cr_card_id cd))); simpl;
      [reflexivity|discriminate].
  - destruct (calls !! i) as [call|]; [|discriminate].
    destruct (sc_phase call); try discriminate.
    unfold start_sent. run_m. destruct sr as [sd|es]; simpl; [|reflexivity].
    destruct (negb (sr_code sd =? 0) || negb (truthy (sr_message_id sd))); simpl;
      [reflexivity|].
    destruct (log s); discriminate.
Qed.

Lemma bad_answer (code : Z) (id : option string) :
  code <> 0 \/ id = None \/ id = Some "" ->
  negb (code =? 0) || negb (truthy id) = true.
Proof.
  intros [Hc | [-> | ->]].
  - apply Z.eqb_neq in Hc. now rewrite Hc.
  - apply orb_true_r.
  - apply orb_true_r.
Qed.

(** C6, as the code has it.  Whatever makes a [start] call fail (the
    token refused, the request that creates the card or its answer
    rejected, an answer with a non-zero code or without card id, the
    sending rejected, or answered with a non-zero code or without message
    id), the error is thrown to the caller at that point, the call is over
    and it has written nothing to the session, which is exactly as the
    rest of the code left it.  A call that runs with nothing in between
    therefore leaves the session as it was at the call, not started and
    not active.  The session is not started after a failure only if no
    other [start] call has started it meanwhile. *)
Theorem start_failure_writes_nothing (s : Session) (calls : list StartCall) (i : nat)
    (call : StartCall) :
  calls !! i = Some call ->
  (sc_phase call = StartAwaitToken ->
   forall e, move (MStartToken i (Throw e)) (s, calls) = (Throw e, (s, delete i calls), []))
  /\ (sc_phase call = StartAwaitCreate ->
      (forall e,
         move (MStartCreated i (Throw e)) (s, calls) = (Throw e, (s, delete i calls), []))
      /\ (forall cd,
            cr_code cd <> 0 \/ cr_card_id cd = None \/ cr_card_id cd = Some "" ->
            move (MStartCreated i (Ok cd)) (s, calls)
            = (Throw (CreateCardFailed (cr_msg cd)), (s, delete i calls), [])))
  /\ (forall cardId, sc_phase call = StartAwaitSend cardId ->
      (forall e,
         move (MStartSent i (Throw e)) (s, calls) = (Throw e, (s, delete i calls), []))
      /\ (forall sd,
            sr_code sd <> 0 \/ sr_message_id sd = None \/ sr_message_id sd = Some "" ->
            move (MStartSent i (Ok sd)) (s, calls)
            = (Throw (SendCardFailed (sr_msg sd)), (s, delete i calls), [])))
  /\ (forall m e, is_start_move m = true -> (move m (s, calls)).1.1 = Throw e ->
        (move m (s, calls)).1.2.1 = s)
  /\ (forall receiveId kind tok createRes sendRes,
        let r := start receiveId kind tok createRes sendRes s in
        (state s = None ->
         r.1.1 = match tok, createRes, sendRes with
                 | Throw e, _, _ => Throw e
                 | Ok _, Throw e, _ => Throw e
                 | Ok _, Ok cd, sent =>
                     if negb (cr_code cd =? 0) || negb (truthy (cr_card_id cd))
                     then Throw (CreateCardFailed (cr_msg cd))
                     else match sent with
                          | Throw e => Throw e
                          | Ok sd =>
                              if negb (sr_code sd =? 0) || negb (truthy (sr_message_id sd))
                              then Throw (SendCardFailed (sr_msg sd))
                              else Ok tt
                          end
                 end)
        /\ (forall e, r.1.1 = Throw e ->
              r.1.2 = s /\ state r.1.2 = None /\ isActive r.1.2 = false)).
Proof.
  intros Hcall. repeat apply conj.
  - intros Hph e. unfold move. cbn [fst snd]. rewrite Hcall, Hph. reflexivity.
  - intros Hph. split.
    + intros e. unfold move. cbn [fst snd]. rewrite Hcall, Hph. reflexivity.
    + intros cd Hbad. unfold move. cbn [fst snd]. rewrite Hcall, Hph.
      unfold start_created. run_m. simpl. now rewrite (bad_answer _ _ Hbad).
  - intros cardId Hph. split.
    + intros e. unfold move. cbn [fst snd]. rewrite Hcall, Hph. reflexivity.
    + intros sd Hbad. unfold move. cbn [fst snd]. rewrite Hcall, Hph.
      unfold start_sent. run_m. simpl. now rewrite (bad_answer _ _ Hbad).
  - intros m e Hm He. exact (start_move_throw m (s, calls) e Hm He).
  - intros receiveId kind tok createRes sendRes r. split.
    + intros Hs. now apply start_unstarted_result.
    + intros e He. destruct (start_throw_unchanged _ _ _ _ _ _ _ He) as [Heq Hnone].
      fold r in Heq. rewrite Heq. repeat split; [exact Hnone|].
      unfold isActive. rewrite Hnone. reflexivity.
Qed.

(** The card is created and the message is refused with code 230002: the
    caller gets the error, the call is over, the fresh session is
    unchanged. *)
Lemma start_failure_writes_nothing_witness :
  move (MStartSent 0 (Ok (mkSendResponse 230002 "bot not in chat" None)))
    (fresh_session, [mkStartCall "oc_1" None FEISHU_API_BASE (StartAwaitSend "card_1")])
  = (Throw (SendCardFailed "bot not in chat"), (fresh_session, []), []).
Proof.
  destruct (start_failure_writes_nothing fresh_session
              [mkStartCall "oc_1" None FEISHU_API_BASE (StartAwaitSend "card_1")] 0
              (mkStartCall "oc_1" None FEISHU_API_BASE (StartAwaitSend "card_1"))
              eq_refl) as (_ & _ & Hsend & _).
  destruct (Hsend "card_1" eq_refl) as [_ Hbad].
  apply (Hbad (mkSendResponse 230002 "bot not in chat" None)).
  left. simpl. lia.
Defined.

(** C6 as stated fails when two [start] calls overlap.  Both are made
    on the fresh session and pass the guard; the second is served and
    starts the session; then the creation of the card of the first is
    refused.  The first call throws, and the session is started and
    active. *)
Lemma overlapping_start_failure_leaves_started :
  let l := (play overlapping_starts (fresh_session, [])).1 in
  let m := MStartCreated 0 (Ok (mkCreateResponse 99991400 "denied" None)) in
  state fresh_session = None
  /\ l.2 = [mkStartCall "oc_1" None FEISHU_API_BASE StartAwaitCreate]
  /\ (move m l).1.1 = Throw (CreateCardFailed "denied")
  /\ state (move m l).1.2.1 = Some (mkCardState "card_1" "om_1" 1 "")
  /\ isActive (move m l).1.2.1 = true
  /\ (move m l).1.2.2 = []
  /\ ~ unstarted_after_failure m l.
Proof.
  intros l m. repeat (split; [vm_compute; reflexivity|]).
  intros H. destruct (H eq_refl (CreateCardFailed "denied") ltac:(vm_compute; reflexivity))
    as [Hnone _].
  vm_compute in Hnone. discriminate.
Qed.

(** *** [handleError] *)

Lemma handleError_eq (context : string) (err : JsError) (s : Session) :
  handleError context err s = (Ok tt, after_error s, error_effects context err s).
Proof.
  unfold handleError, after_error, error_effects, call_log, call_error,
    bind, ret, get, modify, emit.
  destruct s as [cl cr st cd lg er lt pt th ec mx q ru cg].
  unfold set_errorCount, set_closed. cbn.
  destruct lg, er; cbn; destruct (ec + 1 >=? mx); reflexivity.
Qed.

Lemma closed_after_error (s : Session) :
  closed (after_error s) = closed s || (maxErrors s <=? errorCount s + 1).
Proof.
  unfold after_error. simpl. rewrite Z.geb_leb.
  destruct (maxErrors s <=? errorCount s + 1); simpl; [now rewrite orb_true_r|now rewrite orb_false_r].
Qed.

Lemma errorCount_after_error (s : Session) :
  errorCount (after_error s) = errorCount s + 1.
Proof. unfold after_error. simpl. now destruct (_ >=? _). Qed.

Lemma frame_after_error (s : Session) :
  state (after_error s) = state s /\ queue (after_error s) = queue s
  /\ running (after_error s) = running s /\ closing (after_error s) = closing s
  /\ pendingText (after_error s) = pendingText s /\ maxErrors (after_error s) = maxErrors s
  /\ lastUpdateTime (after_error s) = lastUpdateTime s
  /\ updateThrottleMs (after_error s) = updateThrottleMs s
  /\ log (after_error s) = log s /\ error (after_error s) = error s
  /\ creds (after_error s) = creds s.
Proof. unfold after_error. simpl. destruct (_ >=? _); simpl; repeat split. Qed.

Lemma wf_after_error (s : Session) :
  wf_session s -> running s = None -> wf_session (after_error s).
Proof.
  intros [Hm Hc Hb Hcl Hr] Hrun.
  destruct (frame_after_error s) as (Hst & Hq & Hru & Hclo & Hp & Hmx & _).
  constructor; rewrite ?Hst, ?Hru, ?Hclo, ?Hmx, ?errorCount_after_error, ?closed_after_error.
  - assumption.
  - lia.
  - intros H. split; [|assumption].
    apply Z.leb_le in H. rewrite H. apply orb_true_r.
  - intros H. destruct (Hcl H) as [-> ?]. auto.
  - assumption.
Qed.

Lemma wf_set_running_None (s : Session) :
  (wf_session s \/ (wf_session (set_running None s))) -> wf_session (set_running None s).
Proof. intros [[Hm Hc Hb Hcl Hr]|H]; [|exact H]. constructor; simpl; auto.
  - intros H. split; [|reflexivity]. now apply Hb.
  - discriminate.
Qed.

Lemma wf_after_error_done (s : Session) :
  wf_session s -> wf_session (set_running None (after_error s)).
Proof.
  intros [Hm Hc Hb Hcl Hr].
  destruct (frame_after_error s) as (Hst & Hq & Hru & Hclo & Hp & Hmx & _).
  constructor; simpl;
    rewrite ?Hst, ?Hru, ?Hclo, ?Hmx, ?errorCount_after_error, ?closed_after_error.
  - assumption.
  - lia.
  - intros H. split; [|reflexivity].
    apply Z.leb_le in H. rewrite H. apply orb_true_r.
  - intros H. destruct (Hcl H) as [-> ?]. auto.
  - discriminate.
Qed.

Lemma wf_new_session (client : ClientCache.LarkClient) (creds : Credentials)
    (log error : bool) (throttle : option Z) :
  wf_session (new_session client creds log error throttle).
Proof.
  constructor; simpl; try lia; try discriminate. intros H. now contradiction H.
Qed.

(** *** The steps, case by case *)

Lemma update_eq (text : string) (now : Z) (s : Session) :
  update text now s =
  (Ok tt,
   if not_usable s then s
   else if now - lastUpdateTime s <? updateThrottleMs s
        then set_pendingText (Some text) s
        else set_queue (queue s ++ [text])
               (set_lastUpdateTime now (set_pendingText None s)),
   []).
Proof.
  run_m. destruct (not_usable s); [reflexivity|].
  destruct (now - lastUpdateTime s <? updateThrottleMs s); reflexivity.
Qed.

(** The card after the first two assignments of a unit. *)
Lemma unit_start_eq (s : Session) :
  unit_start s =
  (Ok tt,
   match running s, queue s with
   | None, text :: rest =>
       if not_usable s then set_queue rest s
       else set_running (Some (text, AwaitToken))
              (set_state
                 ((fun cs => mkCardState (cardId cs) (messageId cs) (sequence cs + 1) text)
                    <$> state s)
                 (set_queue rest s))
   | _, _ => s
   end,
   []).
Proof.
  run_m. destruct (running s) as [[t ph]|]; [reflexivity|].
  destruct (queue s) as [|text rest]; [reflexivity|]. simpl.
  destruct (not_usable s); [reflexivity|]. simpl.
  destruct (state s); reflexivity.
Qed.

Lemma unit_token_eq (tok : result string) (s : Session) :
  unit_token tok s =
  match running s with
  | Some (text, AwaitToken) =>
      match tok, state s with
      | Ok _, Some cs =>
          (Ok tt, set_running (Some (text, AwaitFetch)) s,
           [PutContent ByUpdate (apiBase s) (cardId cs) text (sequence cs)])
      | Ok _, None =>
          (Ok tt, set_running None (after_error s),
           error_effects "update" (Rejected "TypeError") s)
      | Throw e, _ =>
          (Ok tt, set_running None (after_error s), error_effects "update" e s)
      end
  | _ => (Ok tt, s, [])
  end.
Proof.
  unfold unit_token, card, bind, ret, get, modify, emit, await, throw, try_catch.
  destruct (running s) as [[text [|]]|]; try reflexivity.
  destruct tok as [t|e]; simpl.
  - destruct (state s) as [cs|]; simpl; [reflexivity|].
    rewrite handleError_eq. simpl. now rewrite app_nil_r.
  - rewrite handleError_eq. simpl. now rewrite app_nil_r.
Qed.

(** The error a settled request ends in, if any: the rejection, or the
    status of an answer that is not [ok]. *)
Lemma unit_response_eq (res : result Response) (s : Session) :
  unit_response res s =
  match running s with
  | Some (text, AwaitFetch) =>
      match res with
      | Ok r =>
          if ok r then (Ok tt, set_running None s, [])
          else (Ok tt, set_running None (after_error s),
                error_effects "update" (http_error r) s)
      | Throw e => (Ok tt, set_running None (after_error s), error_effects "update" e s)
      end
  | _ => (Ok tt, s, [])
  end.
Proof.
  unfold unit_response, bind, ret, get, modify, emit, await, throw, try_catch.
  destruct (running s) as [[text [|]]|]; try reflexivity.
  destruct res as [r|e]; simpl.
  - destruct (ok r); simpl; [reflexivity|].
    rewrite handleError_eq. simpl. now rewrite app_nil_r.
  - rewrite handleError_eq. simpl. now rewrite app_nil_r.
Qed.

Lemma close_eq (finalText : option string) (s : Session) :
  close finalText s =
  (Ok tt,
   if not_usable s then s else set_closing (Some finalText) (set_closed true s),
   []).
Proof. run_m. destruct (not_usable s); reflexivity. Qed.

Lemma state_after_error (s : Session) : state (after_error s) = state s.
Proof. apply frame_after_error. Qed.

Lemma log_after_error (s : Session) : log (after_error s) = log s.
Proof. apply frame_after_error. Qed.

Ltac settle_step :=
  rewrite ?handleError_eq, ?state_after_error, ?log_after_error;
  cbn -[truthy String.eqb Z.add handleError after_error error_effects].

Local Opaque handleError after_error error_effects truthy String.eqb Z.add.

Lemma close_drained_eq (tok1 : result string) (res1 : result Response)
    (tok2 : result string) (res2 : result Response) (s : Session)
    (finalText : option string) (cs : CardState) :
  closing s = Some finalText -> running s = None -> queue s = [] -> state s = Some cs ->
  close_drained tok1 res1 tok2 res2 s =
  (Ok tt, (closed_down finalText cs tok1 res1 tok2 res2 s).1,
   (closed_down finalText cs tok1 res1 tok2 res2 s).2).
Proof.
  intros Hcl Hru Hq Hst.
  unfold close_drained, closed_down, settle, attempt_error, card, modify_card,
    bind, ret, get, modify, emit, await, throw, try_catch, call_log.
  rewrite Hcl, Hru, Hq.
  destruct s as [cl cr st cd lg er lt pt th ec mx q ru cg]. simpl in Hcl, Hru, Hq, Hst. subst.
  destruct cs as [cid mid sq ct].
  unfold final_text, flushes, bump, set_sequence, set_currentText, apiBase.
  cbn -[truthy String.eqb Z.add handleError after_error error_effects].
  set (text := default (default ct pt) finalText).
  destruct (truthy (Some text) && negb (text =? ct)%string);
    cbn -[truthy String.eqb Z.add handleError after_error error_effects].
  - destruct tok1 as [t1|e1]; [destruct res1 as [r1|e1]; [destruct (ok r1)|]|];
      repeat settle_step;
      (destruct tok2 as [t2|e2]; [destruct res2 as [r2|e2]; [destruct (ok r2)|]|]);
      repeat settle_step; destruct lg; repeat settle_step;
      rewrite ?app_nil_r, <- ?app_assoc; cbn -[error_effects after_error Z.add];
      try replace (sq + 1 + 1) with (sq + 2) by lia; reflexivity.
  - (destruct tok2 as [t2|e2]; [destruct res2 as [r2|e2]; [destruct (ok r2)|]|]);
      repeat settle_step; destruct lg; repeat settle_step;
      rewrite ?app_nil_r, <- ?app_assoc; cbn -[error_effects after_error Z.add];
      reflexivity.
Qed.

Local Transparent handleError after_error error_effects truthy String.eqb Z.add.

Lemma close_drained_idle (tok1 : result string) (res1 : result Response)
    (tok2 : result string) (res2 : result Response) (s : Session) :
  closing s = None \/ running s <> None \/ queue s <> [] ->
  close_drained tok1 res1 tok2 res2 s = (Ok tt, s, []).
Proof.
  intros H. unfold close_drained, bind, get, ret.
  destruct (closing s) as [ft|]; [|reflexivity].
  destruct (running s) as [ru|]; [reflexivity|].
  destruct (queue s) as [|t q]; [|reflexivity].
  destruct H as [H|[H|H]]; congruence.
Qed.

(** *** The invariant *)

Lemma wf_frame (s s' : Session) :
  wf_session s ->
  maxErrors s' = maxErrors s -> errorCount s' = errorCount s ->
  closed s' = closed s -> running s' = running s ->
  closing s' = closing s \/ closing s' = None ->
  state s' = state s \/ (running s = None /\ is_Some (state s')) ->
  wf_session s'.
Proof.
  intros [Hm Hc Hb Hcl Hr] Em Ee Ec Er Ecl Es.
  constructor; rewrite ?Em, ?Ee, ?Ec, ?Er; auto.
  - intros H. assert (closing s <> None) as H' by (destruct Ecl as [E|E]; congruence).
    destruct (Hcl H') as [? ?]. split; [assumption|].
    destruct Es as [->|[_ ?]]; assumption.
  - intros text ph Hrun. destruct Es as [->|[Hn _]]; [eauto|congruence].
Qed.

Lemma start_state (s : Session) (receiveId : string) (kind : option ReceiveIdType)
    (tok : result string) (createRes : result CreateResponse)
    (sendRes : result SendResponse) :
  let s' := (start receiveId kind tok createRes sendRes s).1.2 in
  s' = s \/ (state s = None /\ exists cs, s' = set_state (Some cs) s).
Proof.
  run_m. destruct (state s) as [cs|] eqn:Hcs; simpl; [now left|].
  destruct tok as [t|et]; simpl; [|now left].
  destruct createRes as [cd|ec]; simpl; [|now left].
  destruct (negb (cr_code cd =? 0) || negb (truthy (cr_card_id cd))); simpl; [now left|].
  destruct sendRes as [sd|es]; simpl; [|now left].
  destruct (negb (sr_code sd =? 0) || negb (truthy (sr_message_id sd))); simpl; [now left|].
  right. split; [reflexivity|]. destruct (log s); simpl; eauto.
Qed.

Lemma not_usable_false (s : Session) :
  not_usable s = false <-> is_Some (state s) /\ closed s = false.
Proof.
  unfold not_usable. destruct (closed s); [rewrite orb_true_r; split; [discriminate|intros [_ ?]; discriminate]|].
  rewrite orb_false_r. rewrite negb_false_iff, bool_decide_eq_true. tauto.
Qed.

Lemma settle_wf (context : string) (req : Effect) (tok : result string)
    (res : result Response) (on_ok : Session -> Session) (s : Session) :
  wf_session s /\ running s = None ->
  (wf_session (on_ok s) /\ running (on_ok s) = None) ->
  wf_session (settle context req tok res on_ok s).1
  /\ running (settle context req tok res on_ok s).1 = None.
Proof.
  intros [Hwf Hrun] Hok. unfold settle.
  destruct (attempt_error tok res); simpl; [|exact Hok].
  split; [now apply wf_after_error|].
  now rewrite (proj1 (proj2 (proj2 (frame_after_error s)))).
Qed.

Lemma state_settle (context : string) (req : Effect) (tok : result string)
    (res : result Response) (on_ok : Session -> Session) (s : Session) :
  is_Some (state s) -> is_Some (state (on_ok s)) ->
  is_Some (state (settle context req tok res on_ok s).1).
Proof.
  intros Hs Hok. unfold settle. destruct (attempt_error tok res); simpl; [|exact Hok].
  now rewrite state_after_error.
Qed.

Lemma closed_down_wf (finalText : option string) (cs : CardState)
    (tok1 : result string) (res1 : result Response)
    (tok2 : result string) (res2 : result Response) (s : Session) :
  wf_session s -> running s = None -> state s = Some cs ->
  wf_session (closed_down finalText cs tok1 res1 tok2 res2 s).1
  /\ running (closed_down finalText cs tok1 res1 tok2 res2 s).1 = None.
Proof.
  intros Hwf Hrun Hst. unfold closed_down.
  assert (wf_session (set_closing None s) /\ running (set_closing None s) = None) as H0.
  { split; [|exact Hrun]. apply (wf_frame s); simpl; auto. }
  assert (is_Some (state (set_closing None s))) as S0 by (simpl; rewrite Hst; eauto).
  destruct (flushes (final_text finalText s cs) cs).
  - match goal with |- context [settle ?c ?r tok1 res1 ?f ?x] =>
      pose proof (settle_wf c r tok1 res1 f x) as H1;
      pose proof (state_settle c r tok1 res1 f x) as S1;
      destruct (settle c r tok1 res1 f x) as [s2 o1] end.
    simpl in H1, S1.
    destruct H1 as [W2 R2].
    { split; [|exact Hrun]. apply (wf_frame s); simpl; eauto. }
    { split; [|exact Hrun]. apply (wf_frame s); simpl; eauto. }
    specialize (S1 ltac:(eauto) ltac:(eauto)).
    match goal with |- context [settle ?c ?r tok2 res2 ?f ?x] =>
      pose proof (settle_wf c r tok2 res2 f x) as H3;
      destruct (settle c r tok2 res2 f x) as [s4 o2] end.
    simpl in *. apply H3.
    + split; [|exact R2]. apply (wf_frame s2); simpl; auto.
      right. split; [exact R2|]. destruct S1 as [c2 ->]. simpl. eauto.
    + split; [|exact R2]. apply (wf_frame s2); simpl; auto.
      right. split; [exact R2|]. destruct S1 as [c2 ->]. simpl. eauto.
  - match goal with |- context [settle ?c ?r tok2 res2 ?f ?x] =>
      pose proof (settle_wf c r tok2 res2 f x) as H3;
      destruct (settle c r tok2 res2 f x) as [s4 o2] end.
    simpl in *. destruct H0 as [W0 R0]. apply H3.
    + split; [|exact Hrun]. apply (wf_frame s); simpl; auto.
      right. split; [exact Hrun|]. rewrite Hst. simpl. eauto.
    + split; [|exact Hrun]. apply (wf_frame s); simpl; auto.
      right. split; [exact Hrun|]. rewrite Hst. simpl. eauto.
Qed.

(** Every step keeps the invariant. *)
Lemma step_wf (ev : Event) (s : Session) :
  wf_session s -> wf_session (step ev s).1.2.
Proof.
  intros Hwf. pose proof Hwf as [Hm Hc Hb Hcl Hr].
  destruct ev as [rid kind tok cr sr|text now| |tok|res|ft|tok1 res1 tok2 res2]; simpl.
  - destruct (start_state s rid kind tok cr sr) as [->|[Hnone [cs ->]]]; [assumption|].
    apply (wf_frame s); simpl; auto.
    destruct (running s) as [[t ph]|] eqn:Hrun; [|eauto].
    destruct (Hr _ _ eq_refl) as (c & Hc' & _). congruence.
  - rewrite update_eq. simpl.
    destruct (not_usable s); [assumption|].
    destruct (_ <? _); apply (wf_frame s); simpl; auto.
  - rewrite unit_start_eq. simpl.
    destruct (running s) as [[t ph]|] eqn:Hrun; [assumption|].
    destruct (queue s) as [|text rest]; [assumption|].
    destruct (not_usable s) eqn:Hu.
    + apply (wf_frame s); simpl; auto.
    + apply not_usable_false in Hu as [[cs Hcs] Hclosed].
      constructor; simpl; auto.
      * intros H. destruct (Hb H) as [? _]. congruence.
      * intros H. destruct (Hcl H) as [? _]. congruence.
      * intros text' ph [= <- <-]. rewrite Hcs. simpl. eauto.
  - rewrite unit_token_eq.
    destruct (running s) as [[text [|]]|] eqn:Hrun; try assumption.
    destruct tok as [t|e].
    + destruct (state s) as [cs|] eqn:Hcs; simpl.
      * constructor; simpl; auto.
        -- intros H. destruct (Hb H) as [_ ?]. congruence.
        -- rewrite Hcs. eauto.
        -- intros text' ph [= <- <-]. destruct (Hr _ _ eq_refl) as (c & Hc' & Ht).
           injection Hc' as <-. eauto.
      * now apply wf_after_error_done.
    + now apply wf_after_error_done.
  - rewrite unit_response_eq.
    destruct (running s) as [[text [|]]|] eqn:Hrun; try assumption.
    destruct res as [r|e]; [destruct (ok r)|]; simpl.
    + apply wf_set_running_None. now left.
    + now apply wf_after_error_done.
    + now apply wf_after_error_done.
  - rewrite close_eq. simpl. destruct (not_usable s) eqn:Hu; [assumption|].
    apply not_usable_false in Hu as [Hsome Hclosed].
    constructor; simpl; auto.
    intros H. split; [reflexivity|]. now apply Hb.
  - destruct (closing s) as [ft|] eqn:Hclo;
      [|rewrite close_drained_idle by auto; assumption].
    destruct (running s) as [ru|] eqn:Hrun;
      [rewrite close_drained_idle by (right; left; congruence); assumption|].
    destruct (queue s) as [|t q] eqn:Hq;
      [|rewrite close_drained_idle by (right; right; congruence); assumption].
    destruct (Hcl ltac:(congruence)) as [_ [cs Hcs]].
    rewrite (close_drained_eq _ _ _ _ s ft cs) by assumption. simpl.
    now apply (closed_down_wf ft cs tok1 res1 tok2 res2 s).
Qed.

Lemma run_app (evs1 evs2 : list Event) (s : Session) :
  run (evs1 ++ evs2) s =
  ((run evs2 (run evs1 s).1).1, (run evs1 s).2 ++ (run evs2 (run evs1 s).1).2).
Proof.
  revert s. induction evs1 as [|ev evs1 IH]; intros s; simpl.
  - now destruct (run evs2 s).
  - destruct (step ev s) as [[r s1] o1]. rewrite IH.
    destruct (run evs1 s1) as [s2 o2]. simpl.
    destruct (run evs2 s2) as [s3 o3]. simpl. now rewrite app_assoc.
Qed.

Lemma run_cons (ev : Event) (evs : list Event) (s : Session) :
  run (ev :: evs) s =
  ((run evs (step ev s).1.2).1, (step ev s).2 ++ (run evs (step ev s).1.2).2).
Proof.
  simpl. destruct (step ev s) as [[r s1] o1]. simpl. now destruct (run evs s1).
Qed.

Lemma run_wf (evs : list Event) (s : Session) :
  wf_session s -> wf_session (run evs s).1.
Proof.
  revert s. induction evs as [|ev evs IH]; intros s Hwf; [exact Hwf|].
  rewrite run_cons. simpl. apply IH. now apply step_wf.
Qed.

Lemma reachable_wf (s : Session) : reachable s -> wf_session s.
Proof.
  intros (cl & cr & lg & er & th & evs & ->). apply run_wf, wf_new_session.
Qed.

(** *** Containment and counting of failures *)

Lemma errorCount_settle (context : string) (req : Effect) (tok : result string)
    (res : result Response) (on_ok : Session -> Session) (s : Session) :
  errorCount (on_ok s) = errorCount s ->
  errorCount (settle context req tok res on_ok s).1
  = errorCount s + match attempt_error tok res with Some _ => 1 | None => 0 end.
Proof.
  intros Hok. unfold settle. destruct (attempt_error tok res); simpl.
  - apply errorCount_after_error.
  - lia.
Qed.

Lemma error_settle (context : string) (req : Effect) (tok : result string)
    (res : result Response) (on_ok : Session -> Session) (s : Session) :
  error (on_ok s) = error s -> error (settle context req tok res on_ok s).1 = error s.
Proof.
  intros Hok. unfold settle. destruct (attempt_error tok res); simpl; [|exact Hok].
  apply frame_after_error.
Qed.

Lemma error_call_in_effects (context : string) (e : JsError) (s : Session) :
  error s = true -> ErrorCall (MsgError context e) ∈ error_effects context e s.
Proof.
  intros H. unfold error_effects. rewrite H.
  apply elem_of_app. right. apply elem_of_app. left. left.
Qed.

Lemma error_call_settle (context : string) (req : Effect) (tok : result string)
    (res : result Response) (on_ok : Session -> Session) (s : Session) (e : JsError) :
  error s = true -> attempt_error tok res = Some e ->
  ErrorCall (MsgError context e) ∈ (settle context req tok res on_ok s).2.
Proof.
  intros H He. unfold settle. rewrite He. simpl.
  apply elem_of_app. right. now apply error_call_in_effects.
Qed.

(** A step of [update] or [close] never throws; its failures are each
    counted once and reported to the error callback, when there is
    one. *)
Lemma step_contained (ev : Event) (s : Session) :
  wf_session s -> is_start ev = false ->
  (step ev s).1.1 = Ok tt
  /\ errorCount (step ev s).1.2 = errorCount s + Z.of_nat (length (failures ev s))
  /\ (error s = true ->
      forall context e, (context, e) ∈ failures ev s ->
        ErrorCall (MsgError context e) ∈ (step ev s).2).
Proof.
  intros Hwf Hev. pose proof Hwf as [Hm Hc Hb Hcl Hr].
  destruct ev as [rid kind tok cr sr|text now| |tok|res|ft|tok1 res1 tok2 res2];
    simpl in Hev |- *; try discriminate.
  - rewrite update_eq. simpl. split; [reflexivity|]. split.
    + destruct (not_usable s); [lia|]. destruct (_ <? _); simpl; lia.
    + intros _ c e H. inversion H.
  - rewrite unit_start_eq. simpl. split; [reflexivity|]. split.
    + destruct (running s) as [[t ph]|]; [lia|].
      destruct (queue s); [lia|]. destruct (not_usable s); simpl; lia.
    + intros _ c e H. inversion H.
  - rewrite unit_token_eq.
    destruct (running s) as [[text [|]]|] eqn:Hrun; simpl;
      try (split; [reflexivity|split; [lia|intros _ c e H; inversion H]]).
    destruct (Hr _ _ eq_refl) as (cs & Hcs & _).
    destruct tok as [t|e]; rewrite ?Hcs; simpl.
    + split; [reflexivity|split; [lia|intros _ c e H; inversion H]].
    + split; [reflexivity|]. split; [rewrite errorCount_after_error; lia|].
      intros He c e' H. apply list_elem_of_singleton in H. injection H as -> ->.
      now apply error_call_in_effects.
  - rewrite unit_response_eq.
    destruct (running s) as [[text [|]]|] eqn:Hrun; simpl;
      try (split; [reflexivity|split; [lia|intros _ c e H; inversion H]]).
    destruct res as [r|e]; [destruct (ok r)|]; simpl.
    + split; [reflexivity|split; [lia|intros _ c e H; inversion H]].
    + split; [reflexivity|]. split; [rewrite errorCount_after_error; lia|].
      intros He c e' H. apply list_elem_of_singleton in H. injection H as -> ->.
      now apply error_call_in_effects.
    + split; [reflexivity|]. split; [rewrite errorCount_after_error; lia|].
      intros He c e' H. apply list_elem_of_singleton in H. injection H as -> ->.
      now apply error_call_in_effects.
  - rewrite close_eq. simpl. split; [reflexivity|]. split.
    + destruct (not_usable s); simpl; lia.
    + intros _ c e H. inversion H.
  - destruct (closing s) as [ft|] eqn:Hclo;
      [|rewrite close_drained_idle by auto; simpl;
        split; [reflexivity|split; [lia|intros _ c e H; inversion H]]].
    destruct (running s) as [ru|] eqn:Hrun;
      [rewrite close_drained_idle by (right; left; congruence); simpl;
        split; [reflexivity|split; [lia|intros _ c e H; inversion H]]|].
    destruct (queue s) as [|t q] eqn:Hq;
      [|rewrite close_drained_idle by (right; right; congruence); simpl;
        split; [reflexivity|split; [lia|intros _ c e H; inversion H]]].
    destruct (Hcl ltac:(congruence)) as [_ [cs Hcs]]. rewrite Hcs.
    rewrite (close_drained_eq _ _ _ _ s ft cs) by assumption. simpl.
    split; [reflexivity|]. unfold closed_down.
    destruct (flushes (final_text ft s cs) cs).
    + match goal with |- context [settle ?c ?r tok1 res1 ?f ?x] =>
        pose proof (errorCount_settle c r tok1 res1 f x eq_refl) as E1;
        pose proof (error_settle c r tok1 res1 f x eq_refl) as R1;
        pose proof (error_call_settle c r tok1 res1 f x) as C1;
        destruct (settle c r tok1 res1 f x) as [s2 o1] end.
      match goal with |- context [settle ?c ?r tok2 res2 ?f ?x] =>
        pose proof (errorCount_settle c r tok2 res2 f x eq_refl) as E2;
        pose proof (error_call_settle c r tok2 res2 f x) as C2;
        destruct (settle c r tok2 res2 f x) as [s4 o2] end.
      simpl in *. split.
      * rewrite E2, E1, length_app.
        destruct (attempt_error tok1 res1), (attempt_error tok2 res2); simpl; lia.
      * intros He c e [H|H]%elem_of_app.
        -- apply elem_of_app. left.
           destruct (attempt_error tok1 res1) as [e1|]; [|inversion H].
           apply list_elem_of_singleton in H. injection H as -> ->. now apply C1.
        -- apply elem_of_app. right. apply elem_of_app. left.
           destruct (attempt_error tok2 res2) as [e2|]; [|inversion H].
           apply list_elem_of_singleton in H. injection H as -> ->.
           apply C2; [|reflexivity]. now rewrite R1.
    + match goal with |- context [settle ?c ?r tok2 res2 ?f ?x] =>
        pose proof (errorCount_settle c r tok2 res2 f x eq_refl) as E2;
        pose proof (error_call_settle c r tok2 res2 f x) as C2;
        destruct (settle c r tok2 res2 f x) as [s4 o2] end.
      simpl in *. split.
      * rewrite E2. destruct (attempt_error tok2 res2); simpl; lia.
      * intros He c e H.
        destruct (attempt_error tok2 res2) as [e2|]; [|inversion H].
        apply list_elem_of_singleton in H. injection H as -> ->.
        apply elem_of_app. left. apply C2; [assumption|reflexivity].
Qed.

(** *** The circuit breaker *)

Lemma update_calls_app (o1 o2 : list Effect) :
  update_calls (o1 ++ o2) = update_calls o1 ++ update_calls o2.
Proof. unfold update_calls. apply omap_app. Qed.

Lemma content_calls_app (o1 o2 : list Effect) :
  content_calls (o1 ++ o2) = content_calls o1 ++ content_calls o2.
Proof. unfold content_calls. apply omap_app. Qed.

Lemma update_calls_error_effects (context : string) (e : JsError) (s : Session) :
  update_calls (error_effects context e s) = [].
Proof.
  unfold error_effects. destruct (log s), (error s), (_ >=? _); reflexivity.
Qed.

Lemma content_calls_error_effects (context : string) (e : JsError) (s : Session) :
  content_calls (error_effects context e s) = [].
Proof.
  unfold error_effects. destruct (log s), (error s), (_ >=? _); reflexivity.
Qed.

Lemma start_frame (s : Session) (receiveId : string) (kind : option ReceiveIdType)
    (tok : result string) (createRes : result CreateResponse)
    (sendRes : result SendResponse) :
  let r := start receiveId kind tok createRes sendRes s in
  closed r.1.2 = closed s /\ running r.1.2 = running s /\ errorCount r.1.2 = errorCount s
  /\ queue r.1.2 = queue s /\ pendingText r.1.2 = pendingText s
  /\ update_calls r.2 = [].
Proof.
  run_m. destruct (state s) as [cs|] eqn:Hcs; simpl; [repeat split|].
  destruct tok as [t|et]; simpl; [|repeat split].
  destruct createRes as [cd|ec]; simpl; [|repeat split].
  destruct (negb (cr_code cd =? 0) || negb (truthy (cr_card_id cd))); simpl; [repeat split|].
  destruct sendRes as [sd|es]; simpl; [|repeat split].
  destruct (negb (sr_code sd =? 0) || negb (truthy (sr_message_id sd))); simpl; [repeat split|].
  destruct (log s); simpl; repeat split.
Qed.

Lemma settle_closed (context : string) (req : Effect) (tok : result string)
    (res : result Response) (on_ok : Session -> Session) (s : Session) :
  closed s = true -> closed (on_ok s) = true ->
  closed (settle context req tok res on_ok s).1 = true.
Proof.
  intros Hs Hok. unfold settle. destruct (attempt_error tok res); simpl; [|exact Hok].
  rewrite closed_after_error, Hs. reflexivity.
Qed.

Lemma settle_update_calls (context : string) (origin_free : Effect) (tok : result string)
    (res : result Response) (on_ok : Session -> Session) (s : Session) :
  update_calls [origin_free] = [] ->
  update_calls (settle context origin_free tok res on_ok s).2 = [].
Proof.
  intros Hreq. unfold settle. destruct (attempt_error tok res); simpl; [|exact Hreq].
  rewrite update_calls_app, update_calls_error_effects, app_nil_r.
  destruct (is_ok tok); [exact Hreq|reflexivity].
Qed.

Lemma closed_down_closed (finalText : option string) (cs : CardState)
    (tok1 : result string) (res1 : result Response)
    (tok2 : result string) (res2 : result Response) (s : Session) :
  closed s = true ->
  closed (closed_down finalText cs tok1 res1 tok2 res2 s).1 = true
  /\ update_calls (closed_down finalText cs tok1 res1 tok2 res2 s).2 = [].
Proof.
  intros Hc. unfold closed_down.
  destruct (flushes (final_text finalText s cs) cs).
  - match goal with |- context [settle ?c ?r tok1 res1 ?f ?x] =>
      pose proof (settle_closed c r tok1 res1 f x Hc Hc) as C1;
      pose proof (settle_update_calls c r tok1 res1 f x eq_refl) as U1;
      destruct (settle c r tok1 res1 f x) as [s2 o1] end.
    match goal with |- context [settle ?c ?r tok2 res2 ?f ?x] =>
      pose proof (settle_closed c r tok2 res2 f x C1 C1) as C2;
      pose proof (settle_update_calls c r tok2 res2 f x eq_refl) as U2;
      destruct (settle c r tok2 res2 f x) as [s4 o2] end.
    simpl in *. split; [exact C2|].
    rewrite !update_calls_app, U1, U2. now destruct (log s).
  - match goal with |- context [settle ?c ?r tok2 res2 ?f ?x] =>
      pose proof (settle_closed c r tok2 res2 f x Hc Hc) as C2;
      pose proof (settle_update_calls c r tok2 res2 f x eq_refl) as U2;
      destruct (settle c r tok2 res2 f x) as [s4 o2] end.
    simpl in *. split; [exact C2|].
    rewrite !update_calls_app, U2. now destruct (log s).
Qed.

(** Once [closed] is set it stays set. *)
Lemma step_closed (ev : Event) (s : Session) :
  wf_session s -> closed s = true -> closed (step ev s).1.2 = true.
Proof.
  intros Hwf Hc. pose proof Hwf as [Hm Hec Hb Hcl Hr].
  assert (not_usable s = true) as Hu by (unfold not_usable; rewrite Hc; apply orb_true_r).
  destruct ev as [rid kind tok cr sr|text now| |tok|res|ft|tok1 res1 tok2 res2]; simpl.
  - now rewrite (proj1 (start_frame s rid kind tok cr sr)).
  - now rewrite update_eq, Hu.
  - rewrite unit_start_eq, Hu. simpl.
    destruct (running s) as [[t ph]|]; [assumption|]. now destruct (queue s).
  - rewrite unit_token_eq.
    destruct (running s) as [[text [|]]|]; try assumption.
    destruct tok as [t|e]; [destruct (state s)|]; simpl;
      rewrite ?closed_after_error, ?Hc; reflexivity.
  - rewrite unit_response_eq.
    destruct (running s) as [[text [|]]|]; try assumption.
    destruct res as [r|e]; [destruct (ok r)|]; simpl;
      rewrite ?closed_after_error, ?Hc; reflexivity.
  - now rewrite close_eq, Hu.
  - destruct (closing s) as [ft|] eqn:Hclo;
      [|rewrite close_drained_idle by auto; assumption].
    destruct (running s) as [ru|] eqn:Hrun;
      [rewrite close_drained_idle by (right; left; congruence); assumption|].
    destruct (queue s) as [|t q] eqn:Hq;
      [|rewrite close_drained_idle by (right; right; congruence); assumption].
    destruct (Hcl ltac:(congruence)) as [_ [cs Hcs]].
    rewrite (close_drained_eq _ _ _ _ s ft cs) by assumption. simpl.
    now apply closed_down_closed.
Qed.

(** On a closed session with no unit in flight, no step starts a unit or
    makes a content request of [update]; an [update] call changes
    nothing. *)
Lemma step_tripped (ev : Event) (s : Session) :
  wf_session s -> closed s = true -> running s = None ->
  running (step ev s).1.2 = None /\ update_calls (step ev s).2 = [].
Proof.
  intros Hwf Hc Hrun. pose proof Hwf as [Hm Hec Hb Hcl Hr].
  assert (not_usable s = true) as Hu by (unfold not_usable; rewrite Hc; apply orb_true_r).
  destruct ev as [rid kind tok cr sr|text now| |tok|res|ft|tok1 res1 tok2 res2]; simpl.
  - destruct (start_frame s rid kind tok cr sr) as (_ & -> & _ & _ & _ & ->). auto.
  - now rewrite update_eq, Hu.
  - rewrite unit_start_eq, Hu, Hrun. simpl. destruct (queue s); auto.
  - rewrite unit_token_eq, Hrun. auto.
  - rewrite unit_response_eq, Hrun. auto.
  - now rewrite close_eq, Hu.
  - destruct (closing s) as [ft|] eqn:Hclo;
      [|rewrite close_drained_idle by auto; auto].
    destruct (queue s) as [|t q] eqn:Hq;
      [|rewrite close_drained_idle by (right; right; congruence); auto].
    destruct (Hcl ltac:(congruence)) as [_ [cs Hcs]].
    rewrite (close_drained_eq _ _ _ _ s ft cs) by assumption. simpl.
    split; [now apply closed_down_wf|now apply closed_down_closed].
Qed.

Lemma run_tripped (evs : list Event) (s : Session) :
  wf_session s -> closed s = true -> running s = None ->
  closed (run evs s).1 = true /\ running (run evs s).1 = None
  /\ update_calls (run evs s).2 = [] /\ errorCount s <= errorCount (run evs s).1.
Proof.
  revert s. induction evs as [|ev evs IH]; intros s Hwf Hc Hrun.
  - simpl. repeat split; auto. lia.
  - rewrite run_cons. simpl.
    destruct (step_tripped ev s Hwf Hc Hrun) as [Hrun' Hsilent].
    destruct (IH _ (step_wf ev s Hwf) (step_closed ev s Hwf Hc) Hrun') as (C & R & U & E).
    repeat split; auto.
    + now rewrite update_calls_app, Hsilent, U.
    + assert (errorCount s <= errorCount (step ev s).1.2); [|lia].
      destruct (is_start ev) eqn:Hst.
      * destruct ev; try discriminate. simpl.
        rewrite (proj1 (proj2 (proj2 (start_frame _ _ _ _ _ _)))). lia.
      * destruct (step_contained ev s Hwf Hst) as (_ & -> & _). lia.
Qed.

Lemma isActive_closed (s : Session) : closed s = true -> isActive s = false.
Proof. intros H. unfold isActive. rewrite H. apply andb_false_r. Qed.

(** C2.  For a session built by the constructor and driven by any
    schedule: a step of [update] or [close] returns normally, whatever the
    answers; each of its failures adds one to the error counter and calls
    the error callback when one was given; the threshold is 5; and once
    the counter has reached it the session is closed, and stays so along
    every further schedule: [isActive()] is false, the counter is not
    reset, no content request comes from [update], and an [update] call
    changes nothing. *)
Theorem errors_contained_and_breaker (s : Session) :
  reachable s ->
  (forall ev, is_start ev = false ->
     (step ev s).1.1 = Ok tt
     /\ getErrorCount (step ev s).1.2
        = getErrorCount s + Z.of_nat (length (failures ev s))
     /\ (error s = true ->
         forall context e, (context, e) ∈ failures ev s ->
           ErrorCall (MsgError context e) ∈ (step ev s).2))
  /\ maxErrors s = 5
  /\ (5 <= getErrorCount s ->
      closed s = true /\ isActive s = false
      /\ forall evs,
           let r := run evs s in
           closed r.1 = true /\ isActive r.1 = false
           /\ 5 <= getErrorCount r.1
           /\ update_calls r.2 = []
           /\ forall text now, step (EUpdate text now) r.1 = (Ok tt, r.1, [])).
Proof.
  intros Hreach. pose proof (reachable_wf s Hreach) as Hwf.
  pose proof Hwf as [Hm Hec Hb Hcl Hr]. unfold getErrorCount.
  split; [|split; [exact Hm|]].
  - intros ev Hev. now apply step_contained.
  - intros Hfive. destruct (Hb ltac:(lia)) as [Hc Hrun].
    split; [exact Hc|]. split; [now apply isActive_closed|].
    intros evs. destruct (run_tripped evs s Hwf Hc Hrun) as (C & R & U & E).
    split; [exact C|]. split; [now apply isActive_closed|].
    split; [lia|]. split; [exact U|].
    intros text now. simpl. rewrite update_eq.
    unfold not_usable. rewrite C, orb_true_r. reflexivity.
Qed.

(** Five updates in a row that get a 500: the counter is at 5,
    [isActive()] is false, and a sixth update followed by any resumption
    makes no request. *)
Lemma errors_contained_and_breaker_witness :
  let s := (run five_failures fresh_session).1 in
  getErrorCount s = 5 /\ isActive s = false
  /\ update_calls (run (update_round "t6" 6000 ok_response) s).2 = [].
Proof.
  intros s.
  assert (reachable s) as Hreach.
  { exists a_client, app_creds, true, true, None, five_failures. reflexivity. }
  destruct (errors_contained_and_breaker s Hreach) as (_ & _ & Hbreak).
  assert (getErrorCount s = 5) as Hcount by (vm_compute; reflexivity).
  destruct (Hbreak ltac:(rewrite Hcount; lia)) as (_ & Hinactive & Hafter).
  split; [exact Hcount|]. split; [exact Hinactive|].
  exact (proj1 (proj2 (proj2 (proj2 (Hafter (update_round "t6" 6000 ok_response)))))).
Defined.

(** *** Accounting of the units *)

Lemma queue_after_error (s : Session) : queue (after_error s) = queue s.
Proof. apply frame_after_error. Qed.

Lemma closed_not_usable (s : Session) :
  is_Some (state s) -> not_usable s = closed s.
Proof.
  intros H. unfold not_usable. rewrite bool_decide_eq_true_2 by assumption. reflexivity.
Qed.

(** What one step of an [update] call or of a unit does to the units
    waiting for their request: it adds the text of an accepted call at
    the end and makes no request; or the first of them makes its request,
    with the next sequence value; or the first of them is given up, the
    session being closed or the token refused. *)
Lemma step_account (ev : Event) (s : Session) :
  wf_session s -> is_Some (state s) -> is_update_or_unit ev = true ->
  let r := step ev s in
  is_Some (state r.1.2)
  /\ content_calls r.2 = update_calls r.2
  /\ ((update_calls r.2 = [] /\ pending r.1.2 = pending s ++ accepted_by ev s
       /\ base r.1.2 = base s)
      \/ (exists t, accepted_by ev s = [] /\ pending s = t :: pending r.1.2
                    /\ update_calls r.2 = [(t, base s + 1)] /\ base r.1.2 = base s + 1)
      \/ (exists t, accepted_by ev s = [] /\ pending s = t :: pending r.1.2
                    /\ update_calls r.2 = [] /\ base s <= base r.1.2
                    /\ (closed s = true \/ exists e, ev = EUnitToken (Throw e)))).
Proof.
  intros Hwf [cs Hcs] Hev. pose proof Hwf as [Hm Hec Hb Hcl Hr].
  destruct ev as [rid kind tok cr sr|text now| |tok|res|ft|tok1 res1 tok2 res2];
    try discriminate; simpl.
  - rewrite update_eq. unfold accepts. simpl.
    destruct (not_usable s); simpl.
    { rewrite Hcs, app_nil_r. split; [eauto|]. split; [reflexivity|]. left. auto. }
    destruct (now - lastUpdateTime s <? updateThrottleMs s); simpl.
    { rewrite Hcs. split; [eauto|]. split; [reflexivity|]. left.
      unfold pending, base. simpl. now rewrite app_nil_r. }
    rewrite Hcs. split; [eauto|]. split; [reflexivity|]. left.
    unfold pending, base. simpl. now rewrite app_assoc.
  - rewrite unit_start_eq. simpl.
    destruct (running s) as [[t ph]|] eqn:Hrun.
    { rewrite Hcs, app_nil_r. split; [eauto|]. split; [reflexivity|]. left. auto. }
    destruct (queue s) as [|text rest] eqn:Hq.
    { rewrite Hcs, app_nil_r. split; [eauto|]. split; [reflexivity|]. left. auto. }
    rewrite closed_not_usable by (rewrite Hcs; eauto).
    destruct (closed s) eqn:Hclosed; simpl; rewrite Hcs; simpl.
    + split; [eauto|]. split; [reflexivity|]. right. right. exists text.
      unfold pending, base. simpl. rewrite Hrun, Hq, Hcs. simpl.
      repeat apply conj; rewrite ?app_nil_r; auto; try lia.
    + split; [eauto|]. split; [reflexivity|]. left.
      unfold pending, base. simpl. rewrite Hrun, Hq, Hcs. simpl.
      repeat apply conj; rewrite ?app_nil_r; auto; try lia.
  - rewrite unit_token_eq.
    destruct (running s) as [[text [|]]|] eqn:Hrun; simpl;
      try (rewrite Hcs, app_nil_r; split; [eauto|]; split; [reflexivity|]; left; auto).
    destruct tok as [t|e]; rewrite ?Hcs; simpl.
    + rewrite Hcs. split; [eauto|]. split; [reflexivity|]. right. left. exists text.
      unfold pending, base. simpl. rewrite Hrun, Hcs. simpl.
      repeat apply conj; rewrite ?app_nil_r; auto; try lia. repeat f_equal. lia.
    + rewrite state_after_error, Hcs.
      split; [eauto|]. split; [now rewrite content_calls_error_effects, update_calls_error_effects|].
      right. right. exists text.
      unfold pending, base. simpl. rewrite Hrun, Hcs, queue_after_error, state_after_error, Hcs.
      simpl. rewrite update_calls_error_effects. repeat apply conj; eauto; try lia.
  - rewrite unit_response_eq.
    destruct (running s) as [[text [|]]|] eqn:Hrun; simpl;
      try (rewrite Hcs, app_nil_r; split; [eauto|]; split; [reflexivity|]; left; auto).
    destruct res as [r|e]; [destruct (ok r)|]; simpl;
      rewrite ?state_after_error, Hcs;
      (split; [eauto|]);
      (split; [now rewrite ?content_calls_error_effects, ?update_calls_error_effects|]);
      left; unfold pending, base; simpl;
      rewrite Hrun, ?queue_after_error, ?state_after_error, ?update_calls_error_effects,
        app_nil_r; auto.
Qed.

Lemma run_closed (evs : list Event) (s : Session) :
  wf_session s -> closed s = true -> closed (run evs s).1 = true.
Proof.
  revert s. induction evs as [|ev evs IH]; intros s Hwf Hc; [exact Hc|].
  rewrite run_cons. simpl. apply IH; [now apply step_wf|now apply step_closed].
Qed.

Lemma increasing_from_weaken (z z' : Z) (l : list Z) :
  z' <= z -> increasing_from z l -> increasing_from z' l.
Proof. destruct l as [|x l]; simpl; [trivial|]. intros Hz [Hx Hl]. split; [lia|exact Hl]. Qed.

(** Along a schedule of [update] calls and resumptions of units: the
    requests made, followed by the units still waiting, are taken in
    their order from the units that waited at first followed by the
    accepted calls; the sequence values of the requests increase; and
    when every token is obtained and the session is not closed at the
    end, no unit was given up, and the requests carry consecutive
    sequence values. *)
Lemma run_account (evs : list Event) (s : Session) :
  wf_session s -> is_Some (state s) -> forallb is_update_or_unit evs = true ->
  let r := run evs s in
  is_Some (state r.1)
  /\ content_calls r.2 = update_calls r.2
  /\ (update_calls r.2).*1 ++ pending r.1 `sublist_of` pending s ++ accepted_updates evs s
  /\ increasing_from (base s) (update_calls r.2).*2
  /\ (tokens_ok evs = true -> closed r.1 = false ->
      numbered (base s + 1) (pending s ++ accepted_updates evs s)
      = update_calls r.2 ++ numbered (base r.1 + 1) (pending r.1)).
Proof.
  revert s. induction evs as [|ev evs IH]; intros s Hwf Hst Hevs.
  - simpl. rewrite app_nil_r. repeat apply conj; auto.
  - simpl in Hevs. apply andb_prop in Hevs as [Hev Hevs].
    rewrite run_cons. cbn [fst snd accepted_updates].
    destruct (step_account ev s Hwf Hst Hev) as (Hst1 & Hcc & Hcase).
    pose proof (step_wf ev s Hwf) as Hwf1.
    destruct (IH _ Hwf1 Hst1 Hevs) as (Hst' & Hcc' & Hsub & Hinc & Hnum).
    split; [exact Hst'|]. split; [now rewrite content_calls_app, update_calls_app, Hcc, Hcc'|].
    rewrite update_calls_app, !fmap_app.
    destruct Hcase as [(Hu & Hp & Hb)|[(t & Ha & Hp & Hu & Hb)|(t & Ha & Hp & Hu & Hb & Hwhy)]];
      rewrite Hu, ?Ha; cbn [fmap list_fmap app].
    + rewrite Hp, Hb, <- app_assoc in *. repeat apply conj; auto.
      intros Htok Hclosed. apply Hnum; [|exact Hclosed].
      simpl in Htok. now apply andb_prop in Htok as [_ ?].
    + rewrite Hp. cbn [app numbered]. split; [|split].
      * now apply sublist_skip.
      * simpl. split; [lia|]. now rewrite <- Hb.
      * intros Htok Hclosed. f_equal. rewrite <- Hb. apply Hnum; [|exact Hclosed].
        simpl in Htok. now apply andb_prop in Htok as [_ ?].
    + rewrite Hp. cbn [app]. split; [|split].
      * now apply sublist_cons.
      * now apply (increasing_from_weaken (base (step ev s).1.2)).
      * intros Htok Hclosed. exfalso. destruct Hwhy as [Hc|[e ->]].
        -- rewrite (run_closed evs _ Hwf1 (step_closed ev s Hwf Hc)) in Hclosed.
           discriminate.
        -- simpl in Htok. discriminate.
Qed.

Lemma accepted_updates_all (evs : list Event) (s : Session) :
  all_accepted evs s = true -> accepted_updates evs s = updates evs.
Proof.
  revert s. induction evs as [|ev evs IH]; intros s H; [reflexivity|].
  simpl in H. apply andb_prop in H as [Hev H]. simpl.
  rewrite (IH _ H). destruct ev; simpl; try reflexivity. now rewrite Hev.
Qed.

Lemma accepted_updates_app (evs1 evs2 : list Event) (s : Session) :
  accepted_updates (evs1 ++ evs2) s
  = accepted_updates evs1 s ++ accepted_updates evs2 (run evs1 s).1.
Proof.
  revert s. induction evs1 as [|ev evs1 IH]; intros s; [reflexivity|].
  cbn [app accepted_updates]. rewrite run_cons. cbn [fst].
  now rewrite IH, app_assoc.
Qed.

Lemma length_numbered (z : Z) (l : list string) : length (numbered z l) = length l.
Proof. revert z. induction l as [|x l IH]; intros z; simpl; [reflexivity|]. now rewrite IH. Qed.

Lemma numbered_texts (z : Z) (l : list string) : (numbered z l).*1 = l.
Proof. revert z. induction l as [|x l IH]; intros z; simpl; [reflexivity|]. now rewrite IH. Qed.

Lemma unit_is_update_or_unit (evs : list Event) :
  forallb is_unit_event evs = true -> forallb is_update_or_unit evs = true.
Proof.
  induction evs as [|ev evs IH]; simpl; [trivial|].
  intros [Hev H]%andb_prop. rewrite (IH H), andb_true_r. now destruct ev.
Qed.

Lemma pending_idle (s : Session) : queue s = [] -> running s = None -> pending s = [].
Proof. intros Hq Hr. unfold pending. now rewrite Hq, Hr. Qed.

Lemma base_idle (s : Session) (cs : CardState) :
  state s = Some cs -> running s = None -> base s = sequence cs.
Proof. intros Hs Hr. unfold base. rewrite Hs, Hr. simpl. lia. Qed.

Lemma active_session_eq : active_session = (run [start_ok] fresh_session).1.
Proof. reflexivity. Qed.

Lemma active_session_reachable : reachable active_session.
Proof. exists a_client, app_creds, true, true, None, [start_ok]. reflexivity. Qed.

(** C1, as the code has it.  An active session with an empty queue gets
    [update] calls, each accepted by the throttle, interleaved in any way
    with the resumptions of the queued units.  The content requests are
    those of the units; their texts are taken from t1..tn in the order of
    the calls, none twice; their sequence values increase strictly.  When
    every unit obtains its token, the session is not closed at the end
    and the queue has drained, there are exactly n requests, and they
    carry t1..tn with the sequence values that follow the card's. *)
Theorem accepted_updates_in_order (s : Session) (cs : CardState) (evs : list Event) :
  reachable s -> isActive s = true -> state s = Some cs ->
  queue s = [] -> running s = None ->
  forallb is_update_or_unit evs = true -> all_accepted evs s = true ->
  let r := run evs s in
  let calls := update_calls r.2 in
  content_calls r.2 = calls
  /\ calls.*1 `sublist_of` updates evs
  /\ increasing_from (sequence cs) calls.*2
  /\ (tokens_ok evs = true -> closed r.1 = false ->
      queue r.1 = [] -> running r.1 = None ->
      calls = numbered (sequence cs + 1) (updates evs)
      /\ length calls = length (updates evs)).
Proof.
  intros Hreach _ Hst Hq Hrun Hevs Hacc r calls.
  pose proof (reachable_wf s Hreach) as Hwf.
  destruct (run_account evs s Hwf ltac:(rewrite Hst; eauto) Hevs)
    as (_ & Hcc & Hsub & Hinc & Hnum).
  fold r in Hcc, Hsub, Hinc, Hnum. fold calls in Hcc, Hsub, Hinc, Hnum.
  rewrite (pending_idle s Hq Hrun), (accepted_updates_all evs s Hacc) in *.
  rewrite (base_idle s cs Hst Hrun) in *. simpl in Hsub, Hnum.
  split; [exact Hcc|]. split; [|split; [exact Hinc|]].
  - transitivity (calls.*1 ++ pending r.1); [|exact Hsub].
    now apply sublist_inserts_r.
  - intros Htok Hclosed Hq' Hrun'.
    rewrite (pending_idle _ Hq' Hrun') in Hnum. simpl in Hnum.
    rewrite app_nil_r in Hnum. specialize (Hnum Htok Hclosed).
    split; [now symmetry|]. now rewrite <- Hnum, length_numbered.
Qed.

(** Three updates, two of them called while the first request is in
    flight: three requests, in the order of the calls. *)
Lemma accepted_updates_in_order_witness :
  update_calls (run interleaved_updates active_session).2
  = [("t1", 2); ("t2", 3); ("t3", 4)].
Proof.
  pose proof (accepted_updates_in_order active_session
                (mkCardState "card_1" "om_1" 1 "") interleaved_updates
                active_session_reachable eq_refl eq_refl eq_refl eq_refl eq_refl eq_refl)
    as (_ & _ & _ & Hexact).
  exact (proj1 (Hexact eq_refl eq_refl eq_refl eq_refl)).
Defined.

(** C1 as stated fails when a unit does not get its token (no request
    for an accepted update), and when the error threshold closes the
    session (five requests for six accepted updates). *)
Lemma accepted_update_without_request :
  (forallb is_update_or_unit update_without_token = true
   /\ all_accepted update_without_token active_session = true
   /\ update_calls (run update_without_token active_session).2 = []
   /\ ~ ordered_delivery update_without_token active_session)
  /\ (forallb is_update_or_unit six_updates_five_failures = true
      /\ all_accepted six_updates_five_failures active_session = true
      /\ update_calls (run six_updates_five_failures active_session).2
         = [("t1", 2); ("t2", 3); ("t3", 4); ("t4", 5); ("t5", 6)]
      /\ ~ ordered_delivery six_updates_five_failures active_session).
Proof.
  split.
  - split; [reflexivity|]. split; [reflexivity|]. split; [reflexivity|].
    intros [H _]. vm_compute in H. discriminate.
  - split; [reflexivity|]. split; [reflexivity|]. split; [reflexivity|].
    intros [H _]. vm_compute in H. discriminate.
Qed.

(** *** The throttle *)

(** The resumption of a unit does not touch the throttle nor the pending
    text, and accepts no call. *)
Lemma step_unit_frame (ev : Event) (s : Session) :
  is_unit_event ev = true ->
  lastUpdateTime (step ev s).1.2 = lastUpdateTime s
  /\ updateThrottleMs (step ev s).1.2 = updateThrottleMs s
  /\ pendingText (step ev s).1.2 = pendingText s
  /\ closing (step ev s).1.2 = closing s
  /\ creds (step ev s).1.2 = creds s
  /\ (closed s = true -> state (step ev s).1.2 = state s).
Proof.
  destruct (frame_after_error s) as (Hst & Hq & Hru & Hclo & Hp & Hmx & Hl & Ht & _ & _ & Hcr).
  destruct ev as [rid kind tok cr sr|text now| |tok|res|ft|tok1 res1 tok2 res2];
    try discriminate; intros _; simpl.
  - rewrite unit_start_eq. simpl.
    destruct (running s) as [[t ph]|]; [auto 7|].
    destruct (queue s) as [|text rest]; [auto 7|].
    unfold not_usable. destruct (closed s); rewrite ?orb_true_r, ?orb_false_r.
    + simpl. auto 7.
    + destruct (negb _); simpl; repeat apply conj; auto; try discriminate.
  - rewrite unit_token_eq.
    destruct (running s) as [[text [|]]|]; [|simpl; auto 7..].
    destruct tok as [t|e]; [destruct (state s) eqn:E|]; simpl;
      rewrite ?Hst, ?Hl, ?Ht, ?Hp, ?Hclo, ?Hcr, ?E; auto 7.
  - rewrite unit_response_eq.
    destruct (running s) as [[text [|]]|]; [simpl; auto 7| |simpl; auto 7].
    destruct res as [r|e]; [destruct (ok r)|]; simpl;
      rewrite ?Hst, ?Hl, ?Ht, ?Hp, ?Hclo, ?Hcr; auto 7.
Qed.

Lemma run_unit_frame (evs : list Event) (s : Session) :
  wf_session s -> forallb is_unit_event evs = true ->
  lastUpdateTime (run evs s).1 = lastUpdateTime s
  /\ updateThrottleMs (run evs s).1 = updateThrottleMs s
  /\ pendingText (run evs s).1 = pendingText s
  /\ closing (run evs s).1 = closing s
  /\ creds (run evs s).1 = creds s
  /\ (closed s = true -> state (run evs s).1 = state s)
  /\ accepted_updates evs s = [].
Proof.
  revert s. induction evs as [|ev evs IH]; intros s Hwf Hevs; [simpl; auto 8|].
  simpl in Hevs. apply andb_prop in Hevs as [Hev Hevs].
  rewrite run_cons. cbn [fst accepted_updates].
  destruct (step_unit_frame ev s Hev) as (H1 & H2 & H3 & H4 & H4' & H5).
  destruct (IH _ (step_wf ev s Hwf) Hevs) as (I1 & I2 & I3 & I4 & I4' & I5 & I6).
  rewrite I1, I2, I3, I4, I4', I6, H1, H2, H3, H4, H4'. repeat apply conj; auto.
  - intros Hc. rewrite I5, H5; auto. now apply step_closed.
  - now destruct ev.
Qed.

(** C3, as the code has it.  On an active session with an empty queue,
    [update(a)] is accepted and [update(b)] is called within the throttle
    window, with any resumptions of the unit in between and after.  The
    only content request there can be carries [a]; it is made when the
    unit obtains its token (here stated for a drained queue and a session
    that is still open).  [b] makes no request: it is the pending text,
    which a later [close()] without argument takes as final text. *)
Theorem throttled_update_is_pending (s : Session) (cs : CardState) (a b : string)
    (t1 t2 : Z) (mid post : list Event) :
  reachable s -> isActive s = true -> state s = Some cs ->
  queue s = [] -> running s = None ->
  updateThrottleMs s <= t1 - lastUpdateTime s ->
  t2 - t1 < updateThrottleMs s ->
  forallb is_unit_event mid = true -> forallb is_unit_event post = true ->
  let r := run (EUpdate a t1 :: mid ++ EUpdate b t2 :: post) s in
  content_calls r.2 = update_calls r.2
  /\ (update_calls r.2 = [] \/ exists q, update_calls r.2 = [(a, q)])
  /\ (tokens_ok (mid ++ post) = true -> closed r.1 = false ->
      queue r.1 = [] -> running r.1 = None ->
      update_calls r.2 = [(a, sequence cs + 1)])
  /\ (closed r.1 = false ->
      pendingText r.1 = Some b /\ forall cs', final_text None r.1 cs' = b).
Proof.
  intros Hreach Hact Hst Hq Hrun Hacc Hwin Hmid Hpost r.
  pose proof (reachable_wf s Hreach) as Hwf.
  set (evs := EUpdate a t1 :: mid ++ EUpdate b t2 :: post) in *.
  assert (forallb is_update_or_unit evs = true) as Hevs.
  { subst evs. simpl. rewrite forallb_app. simpl.
    now rewrite !unit_is_update_or_unit. }
  apply andb_prop in Hact as [Hsome Hopen]. apply negb_true_iff in Hopen.
  assert (accepts s t1 = true) as Ha.
  { unfold accepts, not_usable. rewrite Hsome, Hopen. simpl.
    apply negb_true_iff, Z.ltb_ge. exact Hacc. }
  set (s1 := (step (EUpdate a t1) s).1.2).
  assert (s1 = set_queue [a] (set_lastUpdateTime t1 (set_pendingText None s))) as Hs1.
  { subst s1. simpl. rewrite update_eq. simpl.
    unfold accepts in Ha. apply andb_prop in Ha as [Hu Ht].
    apply negb_true_iff in Hu, Ht. now rewrite Hu, Ht, Hq. }
  pose proof (step_wf (EUpdate a t1) s Hwf) as Hwf1. fold s1 in Hwf1.
  destruct (run_unit_frame mid s1 Hwf1 Hmid) as (L2 & T2 & _ & _ & _ & _ & A2).
  set (s2 := (run mid s1).1) in *.
  pose proof (run_wf mid s1 Hwf1) as Hwf2. fold s2 in Hwf2.
  assert (accepts s2 t2 = false) as Hb.
  { unfold accepts. rewrite L2, T2, Hs1. simpl.
    apply Z.ltb_lt in Hwin. rewrite Hwin. apply andb_false_r. }
  set (s3 := (step (EUpdate b t2) s2).1.2).
  pose proof (step_wf (EUpdate b t2) s2 Hwf2) as Hwf3. fold s3 in Hwf3.
  destruct (run_unit_frame post s3 Hwf3 Hpost) as (_ & _ & P4 & _ & _ & _ & A4).
  assert (accepted_updates evs s = [a]) as Haccepted.
  { subst evs. cbn [accepted_updates accepted_by]. rewrite Ha. fold s1.
    rewrite accepted_updates_app, A2. fold s2.
    cbn [accepted_updates accepted_by app]. rewrite Hb. fold s3. now rewrite A4. }
  assert (r.1 = (run post s3).1) as Hr1.
  { subst r evs. rewrite run_cons. cbn [fst]. fold s1.
    rewrite run_app. cbn [fst]. fold s2. rewrite run_cons. reflexivity. }
  destruct (run_account evs s Hwf ltac:(rewrite Hst; eauto) Hevs)
    as (_ & Hcc & Hsub & _ & Hnum).
  fold r in Hcc, Hsub, Hnum.
  rewrite (pending_idle s Hq Hrun), Haccepted, (base_idle s cs Hst Hrun) in *.
  simpl in Hsub, Hnum.
  split; [exact Hcc|]. split; [|split].
  - assert ((update_calls r.2).*1 `sublist_of` [a]) as Hone.
    { transitivity ((update_calls r.2).*1 ++ pending r.1); [|exact Hsub].
      now apply sublist_inserts_r. }
    destruct (update_calls r.2) as [|[x q] calls]; [now left|right].
    simpl in Hone. pose proof (sublist_length _ _ Hone) as Hlen.
    destruct calls; [|simpl in Hlen; lia].
    apply sublist_cons_l in Hone as (k1 & k2 & Hk & _).
    destruct k1 as [|y k1]; [|destruct k1; discriminate].
    injection Hk as <- _. eauto.
  - intros Htok Hclosed Hq' Hrun'.
    assert (tokens_ok evs = true) as Htok'.
    { subst evs. unfold tokens_ok in *. simpl. rewrite forallb_app in *. simpl.
      apply andb_prop in Htok as [-> ->]. reflexivity. }
    specialize (Hnum Htok' Hclosed).
    rewrite (pending_idle _ Hq' Hrun'), app_nil_r in Hnum. now symmetry.
  - intros Hclosed.
    assert (closed s2 = false) as Hopen2.
    { destruct (closed s2) eqn:Hc2; [|reflexivity].
      rewrite Hr1 in Hclosed.
      rewrite (run_closed post s3 Hwf3) in Hclosed; [discriminate|].
      now apply step_closed. }
    assert (pendingText r.1 = Some b) as Hpending.
    { rewrite Hr1, P4. subst s3. simpl. rewrite update_eq. simpl.
      unfold accepts in Hb.
      assert (not_usable s2 = false) as Hu2.
      { destruct (run_account mid s1 Hwf1) as (Hsome2 & _).
        - rewrite Hs1. simpl. rewrite Hst. eauto.
        - now apply unit_is_update_or_unit.
        - fold s2 in Hsome2. rewrite closed_not_usable by exact Hsome2. exact Hopen2. }
      rewrite Hu2 in Hb |- *. simpl in Hb. apply negb_false_iff in Hb.
      now rewrite Hb. }
    split; [exact Hpending|]. intros cs'. unfold final_text. now rewrite Hpending.
Qed.

(** [update("a")] at 1000 is served; [update("b")] comes at 1050: one
    request, carrying ["a"], and ["b"] waits as pending text. *)
Lemma throttled_update_is_pending_witness :
  update_calls (run throttled_pair active_session).2 = [("a", 2)]
  /\ pendingText (run throttled_pair active_session).1 = Some "b".
Proof.
  pose proof (throttled_update_is_pending active_session
                (mkCardState "card_1" "om_1" 1 "") "a" "b" 1000 1050
                [EUnitStart; EUnitToken a_token; EUnitResponse ok_response] []
                active_session_reachable eq_refl eq_refl eq_refl eq_refl
                ltac:(simpl; lia) ltac:(simpl; lia) eq_refl eq_refl)
    as (_ & _ & Hcall & Hpending).
  split.
  - exact (Hcall eq_refl eq_refl eq_refl eq_refl).
  - exact (proj1 (Hpending eq_refl)).
Defined.

(** C3 as stated fails: the one request carries ["a"], not ["b"]. *)
Lemma throttled_pair_sends_first_text :
  one_update_call_carrying "a" (run throttled_pair active_session).2
  /\ ~ one_update_call_carrying "b" (run throttled_pair active_session).2
  /\ content_calls (run throttled_pair active_session).2 = [("a", 2)].
Proof.
  split; [exists 2; reflexivity|]. split; [|reflexivity].
  intros [q H]. vm_compute in H. discriminate.
Qed.

(** When [close()] follows, the pending text is sent: two content
    requests in all, ["a"] then ["b"]. *)
Lemma throttled_pair_then_close :
  content_calls
    (run (throttled_pair
          ++ [EClose None; ECloseDrained a_token ok_response a_token ok_response])
       active_session).2
  = [("a", 2); ("b", 3)].
Proof. reflexivity. Qed.

(** *** [close] *)

Lemma requests_app (o1 o2 : list Effect) : requests (o1 ++ o2) = requests o1 ++ requests o2.
Proof. unfold requests. apply List.filter_app. Qed.

Lemma requests_error_effects (context : string) (e : JsError) (s : Session) :
  requests (error_effects context e s) = [].
Proof.
  unfold error_effects. destruct (log s), (error s), (_ >=? _); reflexivity.
Qed.

Lemma attempt_error_None (tok : result string) (res : result Response) :
  attempt_error tok res = None -> is_ok tok = true.
Proof. destruct tok; [reflexivity|discriminate]. Qed.

(** A request of [close] is made exactly when its token is obtained. *)
Lemma requests_settle (context : string) (req : Effect) (tok : result string)
    (res : result Response) (on_ok : Session -> Session) (s : Session) :
  is_request req = true ->
  requests (settle context req tok res on_ok s).2 = if is_ok tok then [req] else [].
Proof.
  intros Hreq. unfold settle. destruct (attempt_error tok res) eqn:He; simpl.
  - rewrite requests_app, requests_error_effects, app_nil_r.
    destruct (is_ok tok); [|reflexivity]. unfold requests. simpl. now rewrite Hreq.
  - rewrite (attempt_error_None _ _ He). unfold requests. simpl. now rewrite Hreq.
Qed.

Lemma state_settle_eq (context : string) (req : Effect) (tok : result string)
    (res : result Response) (on_ok : Session -> Session) (s : Session) :
  state (settle context req tok res on_ok s).1
  = match attempt_error tok res with
    | Some _ => state s
    | None => state (on_ok s)
    end.
Proof.
  unfold settle. destruct (attempt_error tok res); simpl; [|reflexivity].
  apply state_after_error.
Qed.

(** The requests of [close] after the chain has drained, and the card at
    its end. *)
Lemma closed_down_requests (finalText : option string) (cs : CardState)
    (tok1 : result string) (res1 : result Response)
    (tok2 : result string) (res2 : result Response) (s : Session) :
  state s = Some cs ->
  let text := final_text finalText s cs in
  let d := closed_down finalText cs tok1 res1 tok2 res2 s in
  requests d.2
  = (if flushes text cs && is_ok tok1
     then [PutContent ByClose (apiBase s) (cardId cs) text (sequence cs + 1)]
     else [])
    ++ (if is_ok tok2
        then [PatchSettings (apiBase s) (cardId cs) text
                (sequence cs + (if flushes text cs then 2 else 1))]
        else [])
  /\ state d.1
     = Some (mkCardState (cardId cs) (messageId cs)
               (sequence cs + (if flushes text cs then 2 else 1))
               (if flushes text cs
                then match attempt_error tok1 res1 with
                     | None => text
                     | Some _ => currentText cs
                     end
                else currentText cs)).
Proof.
  intros Hst text d. subst d. unfold closed_down. fold text.
  destruct (flushes text cs) eqn:Hfl.
  - match goal with |- context [settle ?c ?r tok1 res1 ?f ?x] =>
      pose proof (requests_settle c r tok1 res1 f x eq_refl) as Q1;
      pose proof (state_settle_eq c r tok1 res1 f x) as S1;
      destruct (settle c r tok1 res1 f x) as [s2 o1] end.
    match goal with |- context [settle ?c ?r tok2 res2 ?f ?x] =>
      pose proof (requests_settle c r tok2 res2 f x eq_refl) as Q2;
      pose proof (state_settle_eq c r tok2 res2 f x) as S2;
      destruct (settle c r tok2 res2 f x) as [s4 o2] end.
    simpl in *. split.
    + rewrite !requests_app, Q1, Q2. destruct (log s); simpl; now rewrite app_nil_r.
    + rewrite S2. replace (state s2) with
        (Some (match attempt_error tok1 res1 with
               | Some _ => bump cs
               | None => set_currentText text (bump cs)
               end))
        by (rewrite S1; now destruct (attempt_error tok1 res1)).
      destruct (attempt_error tok1 res1), (attempt_error tok2 res2); simpl;
        destruct cs; unfold bump, set_sequence, set_currentText; simpl;
        do 2 f_equal; lia.
  - match goal with |- context [settle ?c ?r tok2 res2 ?f ?x] =>
      pose proof (requests_settle c r tok2 res2 f x eq_refl) as Q2;
      pose proof (state_settle_eq c r tok2 res2 f x) as S2;
      destruct (settle c r tok2 res2 f x) as [s4 o2] end.
    simpl in *. split.
    + rewrite !requests_app, Q2. destruct (log s); simpl; now rewrite app_nil_r.
    + rewrite S2, Hst. destruct (attempt_error tok2 res2); simpl;
        destruct cs; unfold bump, set_sequence; simpl; reflexivity.
Qed.

Lemma flushes_spec (text : string) (cs : CardState) :
  flushes text cs = true <-> text <> "" /\ text <> currentText cs.
Proof.
  unfold flushes. rewrite andb_true_iff, negb_true_iff, String.eqb_neq.
  destruct text; simpl; split; intros [H1 H2]; split; congruence.
Qed.

(** A call of [close] on an active session, the end of the units that
    were chained (they are skipped, the one in flight ends), and the
    session when [close] resumes. *)
Lemma close_then_drain (s : Session) (cs : CardState) (finalText : option string)
    (drain : list Event) :
  wf_session s -> isActive s = true -> state s = Some cs ->
  forallb is_unit_event drain = true ->
  let s1 := (run (EClose finalText :: drain) s).1 in
  wf_session s1 /\ closing s1 = Some finalText /\ state s1 = Some cs
  /\ pendingText s1 = pendingText s /\ creds s1 = creds s /\ closed s1 = true.
Proof.
  intros Hwf Hact Hst Hdrain s1. subst s1. rewrite run_cons. cbn [fst].
  apply andb_prop in Hact as [Hsome Hopen]. apply negb_true_iff in Hopen.
  assert ((step (EClose finalText) s).1.2
          = set_closing (Some finalText) (set_closed true s)) as Hs0.
  { simpl. rewrite close_eq. unfold not_usable. now rewrite Hsome, Hopen. }
  pose proof (step_wf (EClose finalText) s Hwf) as Hwf0.
  destruct (run_unit_frame drain _ Hwf0 Hdrain) as (_ & _ & P & C & Cr & S & _).
  rewrite P, C, Cr, S, Hs0 by (rewrite Hs0; reflexivity). simpl.
  repeat apply conj; auto.
  - rewrite <- Hs0. now apply run_wf.
  - rewrite <- Hs0. apply run_closed; [exact Hwf0|]. now rewrite Hs0.
Qed.

(** C7, as the code has it.  [close(finalText)] is called on an active
    session; the chained units end; [close] resumes.  The final text is
    the argument if there is one, else the pending text if there is one,
    else [currentText].  [close] does not throw.  When the final text is
    not empty and differs from [currentText], the sequence value goes up
    by one, one content request carrying the final text and that value is
    made if the token is obtained, and the settings request follows with
    the next value.  When the final text is empty or equal to
    [currentText], no content request is made. *)
Theorem close_final_flush (s : Session) (cs : CardState) (finalText : option string)
    (drain : list Event) (tok1 : result string) (res1 : result Response)
    (tok2 : result string) (res2 : result Response) :
  reachable s -> isActive s = true -> state s = Some cs ->
  forallb is_unit_event drain = true ->
  let s1 := (run (EClose finalText :: drain) s).1 in
  queue s1 = [] -> running s1 = None ->
  let text := final_text finalText s cs in
  let r := step (ECloseDrained tok1 res1 tok2 res2) s1 in
  text = match finalText with
         | Some t => t
         | None => match pendingText s with
                   | Some p => p
                   | None => currentText cs
                   end
         end
  /\ r.1.1 = Ok tt
  /\ (text <> "" -> text <> currentText cs ->
      requests r.2
      = (if is_ok tok1
         then [PutContent ByClose (apiBase s) (cardId cs) text (sequence cs + 1)]
         else [])
        ++ (if is_ok tok2
            then [PatchSettings (apiBase s) (cardId cs) text (sequence cs + 2)]
            else [])
      /\ sequence <$> state r.1.2 = Some (sequence cs + 2))
  /\ (text = "" \/ text = currentText cs ->
      requests r.2
      = (if is_ok tok2
         then [PatchSettings (apiBase s) (cardId cs) text (sequence cs + 1)]
         else [])
      /\ sequence <$> state r.1.2 = Some (sequence cs + 1)).
Proof.
  intros Hreach Hact Hst Hdrain s1 Hq Hrun text r.
  pose proof (reachable_wf s Hreach) as Hwf.
  destruct (close_then_drain s cs finalText drain Hwf Hact Hst Hdrain)
    as (Hwf1 & Hclo & Hst1 & Hp & Hcr & Hc).
  fold s1 in Hwf1, Hclo, Hst1, Hp, Hcr, Hc.
  assert (final_text finalText s1 cs = text) as Htext
    by (unfold text, final_text; now rewrite Hp).
  assert (apiBase s1 = apiBase s) as Hbase by (unfold apiBase; now rewrite Hcr).
  subst r. simpl.
  rewrite (close_drained_eq tok1 res1 tok2 res2 s1 finalText cs Hclo Hrun Hq Hst1).
  cbn [fst snd].
  destruct (closed_down_requests finalText cs tok1 res1 tok2 res2 s1 Hst1) as [Hreq Hstate].
  rewrite Htext in Hreq, Hstate. rewrite Hbase in Hreq.
  split; [|split; [reflexivity|split]].
  - unfold text, final_text. destruct finalText; [reflexivity|].
    now destruct (pendingText s).
  - intros Hne Hdiff.
    rewrite (proj2 (flushes_spec text cs) (conj Hne Hdiff)) in Hreq, Hstate.
    rewrite Hreq, Hstate. split; reflexivity.
  - intros Hsame.
    assert (flushes text cs = false) as Hfl.
    { apply not_true_is_false. rewrite flushes_spec. tauto. }
    rewrite Hfl in Hreq, Hstate. rewrite Hreq, Hstate. split; reflexivity.
Qed.

Lemma served_session_reachable : reachable served_session.
Proof.
  exists a_client, app_creds, true, true, None,
    (start_ok :: update_round "a" 1000 ok_response).
  reflexivity.
Qed.

(** The card shows ["a"]; ["b"] is pending; [close()] is called without
    argument: the content request carries ["b"] and the value 3, the
    settings request the value 4. *)
Lemma close_final_flush_witness :
  requests
    (run [EClose None; ECloseDrained a_token ok_response a_token ok_response]
       (run [EUpdate "b" 1050] served_session).1).2
  = [PutContent ByClose FEISHU_API_BASE "card_1" "b" 3;
     PatchSettings FEISHU_API_BASE "card_1" "b" 4].
Proof.
  assert (reachable (run [EUpdate "b" 1050] served_session).1) as Hreach.
  { exists a_client, app_creds, true, true, None,
      (start_ok :: update_round "a" 1000 ok_response ++ [EUpdate "b" 1050]).
    reflexivity. }
  pose proof (close_final_flush _ (mkCardState "card_1" "om_1" 2 "a") None []
                a_token ok_response a_token ok_response
                Hreach eq_refl eq_refl eq_refl eq_refl eq_refl)
    as (_ & _ & Hflush & _).
  destruct (Hflush ltac:(discriminate) ltac:(discriminate)) as [Hreq _].
  exact Hreq.
Defined.

(** C7 as stated fails for the empty final text: [close("")] on a card
    that shows ["a"] makes the settings request only.  It fails too when
    the token of the final update is refused. *)
Lemma close_with_empty_text_sends_no_content :
  (let r := run (close_run (Some "") a_token ok_response a_token ok_response)
              served_session in
   currentText <$> state served_session = Some "a"
   /\ final_text (Some "") served_session (mkCardState "card_1" "om_1" 2 "a") = ""
   /\ content_calls r.2 = []
   /\ ~ one_content_call_carrying "" r.2
   /\ requests r.2 = [PatchSettings FEISHU_API_BASE "card_1" "" 3])
  /\ (let r := run (close_run (Some "z") no_token ok_response a_token ok_response)
                 served_session in
      content_calls r.2 = []
      /\ ~ one_content_call_carrying "z" r.2
      /\ requests r.2 = [PatchSettings FEISHU_API_BASE "card_1" "z" 4]).
Proof.
  split.
  - split; [reflexivity|]. split; [reflexivity|]. split; [reflexivity|].
    split; [|reflexivity]. intros [q H]. vm_compute in H. discriminate.
  - split; [reflexivity|]. split; [|reflexivity].
    intros [q H]. vm_compute in H. discriminate.
Qed.

(** *** [currentText] and the content requests *)










End SessionFacts.

(** * Further properties *)

(** ** The client cache: lookups, clearing, eviction order *)

Module ClientCacheMore.
Import ClientCache ClientCacheFacts.

Lemma configured_values (creds : FeishuClientCredentials) :
  configured creds = true ->
  negb (truthy (cr_appId creds)) || negb (truthy (cr_appSecret creds)) = false.
Proof.
  unfold configured. intros [-> ->]%andb_prop. reflexivity.
Qed.

(** The three ways of [createFeishuClient]. *)
Lemma create_throw (creds : FeishuClientCredentials) (now : Z) (c : Cache) :
  configured creds = false ->
  createFeishuClient creds now c
  = (Throw (CredentialsNotConfigured (account_of creds)), c).
Proof.
  unfold configured, createFeishuClient, account_of. intros H.
  rewrite <- negb_andb, H. reflexivity.
Qed.

Lemma create_miss (creds : FeishuClientCredentials) (now : Z) (c : Cache) :
  configured creds = true ->
  (forall cached, map_get (account_of creds) c = Some cached ->
     config cached <> config (entry_of creds now)) ->
  createFeishuClient creds now c
  = (Ok (client (entry_of creds now)),
     map_set (account_of creds) (entry_of creds now) (evictOldestIfNeeded c)).
Proof.
  intros Hcfg Hmiss. unfold createFeishuClient. fold (account_of creds).
  rewrite (configured_values creds Hcfg). cbv zeta.
  destruct (map_get (account_of creds) c) as [cached|]; [|reflexivity].
  rewrite (hit_test_false (config cached) _ _ _ (Hmiss cached eq_refl)). reflexivity.
Qed.

Lemma create_hit (creds : FeishuClientCredentials) (now : Z) (c : Cache) (cached : Entry) :
  configured creds = true ->
  map_get (account_of creds) c = Some cached ->
  config cached = config (entry_of creds now) ->
  createFeishuClient creds now c
  = (Ok (client cached),
     map_set (account_of creds) (mkEntry (client cached) (config cached) now) c).
Proof.
  intros Hcfg Hget Hsame. unfold createFeishuClient. fold (account_of creds).
  rewrite (configured_values creds Hcfg), Hget. cbv zeta.
  rewrite Hsame. simpl. rewrite !String.eqb_refl.
  now rewrite (proj2 (option_string_eqb_eq _ _) eq_refl).
Qed.

Lemma config_eq_or_not (x y : Config) : x = y \/ x <> y.
Proof.
  destruct x as [a1 s1 d1], y as [a2 s2 d2].
  destruct (decide (a1 = a2)) as [->|]; [|right; congruence].
  destruct (decide (s1 = s2)) as [->|]; [|right; congruence].
  destruct (decide (d1 = d2)) as [->|]; [now left|right; congruence].
Qed.

(** After a call that succeeds the cache holds, for the account, the
    client returned, the credentials given and the time of the call. *)
Lemma create_stores (creds : FeishuClientCredentials) (now : Z) (c : Cache) :
  configured creds = true ->
  exists cl,
    createFeishuClient creds now c = (Ok cl, snd (createFeishuClient creds now c))
    /\ map_get (account_of creds) (snd (createFeishuClient creds now c))
       = Some (mkEntry cl (config (entry_of creds now)) now).
Proof.
  intros Hcfg.
  destruct (map_get (account_of creds) c) as [cached|] eqn:Hget.
  - destruct (config_eq_or_not (config cached) (config (entry_of creds now))) as [Hsame|Hdiff].
    + rewrite (create_hit creds now c cached Hcfg Hget Hsame). simpl.
      exists (client cached). split; [reflexivity|].
      rewrite map_get_map_set, String.eqb_refl, Hsame. reflexivity.
    + rewrite (create_miss creds now c Hcfg);
        [|intros c0 Hc0; rewrite Hget in Hc0; injection Hc0 as <-; exact Hdiff]. simpl.
      eexists. split; [reflexivity|].
      now rewrite map_get_map_set, String.eqb_refl.
  - rewrite (create_miss creds now c Hcfg);
      [|intros c0 Hc0; rewrite Hget in Hc0; discriminate]. simpl.
    eexists. split; [reflexivity|].
    now rewrite map_get_map_set, String.eqb_refl.
Qed.

(** A client that was created is found again: [getFeishuClient] returns
    the client that [createFeishuClient] returned for the account, marks
    the access, and changes no key. *)
Theorem create_then_get (creds : FeishuClientCredentials) (now now' : Z) (c : Cache) :
  configured creds = true ->
  let r := createFeishuClient creds now c in
  let g := getFeishuClient (account_of creds) now' (snd r) in
  exists cl,
    fst r = Ok cl /\ fst g = Some cl
    /\ map_get (account_of creds) (snd g)
       = Some (mkEntry cl (config (entry_of creds now)) now')
    /\ keys (snd g) = keys (snd r).
Proof.
  intros Hcfg r g. destruct (create_stores creds now c Hcfg) as (cl & Hr & Hget).
  fold r in Hr, Hget. exists cl. subst g. unfold getFeishuClient. rewrite Hget. simpl.
  split; [now rewrite Hr|]. split; [reflexivity|]. split.
  - now rewrite map_get_map_set, String.eqb_refl.
  - now rewrite keys_map_set, Hget.
Qed.

Lemma create_then_get_witness :
  fst (getFeishuClient "a" 9
         (snd (createFeishuClient (creds_for "a") 5 []))) 
  = Some (mkClient "cli_a" "secret" DomainFeishu).
Proof.
  destruct (create_then_get (creds_for "a") 5 9 [] eq_refl) as (cl & Hr & Hg & _).
  simpl in Hr. injection Hr as <-. exact Hg.
Defined.

Lemma traced_agrees (creds : FeishuClientCredentials) (now : Z) (c : Cache) :
  (createFeishuClient_traced creds now c).1 = createFeishuClient creds now c.
Proof.
  unfold createFeishuClient_traced, createFeishuClient.
  destruct (negb (truthy (cr_appId creds)) || negb (truthy (cr_appSecret creds)));
    [reflexivity|].
  cbv zeta. destruct (map_get _ c) as [cached|]; [|reflexivity].
  now destruct (_ && _).
Qed.

(** A second call with the same credentials is a hit.  No client is
    constructed: the call returns the client that the cache holds for the
    account, the one the first call returned.  Nothing is evicted,
    whatever the size of the cache, and in the entry of the account only
    the time of access changes: the client and the credentials kept with
    it are the same, and so is every other entry.  A call for an account
    that is not cached constructs the client it returns. *)
Theorem create_twice_same_client (creds : FeishuClientCredentials) (now now' : Z)
    (c : Cache) :
  configured creds = true ->
  let r1 := createFeishuClient creds now c in
  let t2 := createFeishuClient_traced creds now' (snd r1) in
  t2.1 = createFeishuClient creds now' (snd r1)
  /\ t2.2 = []
  /\ (exists e1,
        map_get (account_of creds) (snd r1) = Some e1
        /\ fst r1 = Ok (client e1) /\ fst t2.1 = Ok (client e1)
        /\ snd t2.1
           = map_set (account_of creds) (mkEntry (client e1) (config e1) now') (snd r1)
        /\ map_get (account_of creds) (snd t2.1)
           = Some (mkEntry (client e1) (config e1) now'))
  /\ keys (snd t2.1) = keys (snd r1)
  /\ getClientCacheSize (snd t2.1) = getClientCacheSize (snd r1)
  /\ (forall j, j <> account_of creds -> map_get j (snd t2.1) = map_get j (snd r1))
  /\ (map_get (account_of creds) c = None ->
      exists cl, fst r1 = Ok cl /\ (createFeishuClient_traced creds now c).2 = [cl]).
Proof.
  intros Hcfg r1 t2. destruct (create_stores creds now c Hcfg) as (cl & Hr & Hget).
  fold r1 in Hr, Hget.
  assert (t2 = (Ok cl, map_set (account_of creds)
                          (mkEntry cl (config (entry_of creds now)) now') (snd r1), []))
    as Ht.
  { subst t2. unfold createFeishuClient_traced. fold (account_of creds).
    rewrite (configured_values creds Hcfg), Hget. cbv zeta. simpl.
    rewrite !String.eqb_refl.
    now rewrite (proj2 (option_string_eqb_eq _ _) eq_refl). }
  split; [apply traced_agrees|]. rewrite Ht. simpl. split; [reflexivity|].
  split; [|split; [|split; [|split]]].
  - eexists. split; [exact Hget|]. simpl. rewrite Hr. repeat apply conj; try reflexivity.
    now rewrite map_get_map_set, String.eqb_refl.
  - now rewrite keys_map_set, Hget.
  - unfold getClientCacheSize. now rewrite length_map_set, Hget.
  - intros j Hj. rewrite map_get_map_set. apply String.eqb_neq in Hj. now rewrite Hj.
  - intros Hnone. exists (client (entry_of creds now)).
    subst r1. rewrite (create_miss creds now c Hcfg)
      by (intros c0 Hc0; rewrite Hnone in Hc0; discriminate).
    split; [reflexivity|].
    unfold createFeishuClient_traced. fold (account_of creds).
    rewrite (configured_values creds Hcfg), Hnone. reflexivity.
Qed.

Lemma create_twice_same_client_witness :
  let r1 := createFeishuClient (creds_for (account 50)) 100 full_cache in
  (createFeishuClient_traced (creds_for (account 50)) 200 (snd r1)).2 = []
  /\ keys (snd (createFeishuClient_traced (creds_for (account 50)) 200 (snd r1)).1)
     = keys (snd r1).
Proof.
  intros r1.
  destruct (create_twice_same_client (creds_for (account 50)) 100 200
              full_cache eq_refl) as (_ & H1 & _ & H2 & _).
  split; [exact H1|exact H2].
Defined.

(** Without an appId or without an appSecret (undefined or empty) the
    call throws, names the account (["default"] when none is given) and
    leaves the cache as it was; with both it succeeds.  The WebSocket
    client is refused on the same condition. *)
Theorem credentials_required (creds : FeishuClientCredentials) (now : Z) (c : Cache) :
  let r := createFeishuClient creds now c in
  is_ok (fst r) = configured creds
  /\ (configured creds = false ->
      r = (Throw (CredentialsNotConfigured (default "default" (cr_accountId creds))), c))
  /\ forall accountId,
       let ws := createFeishuWSClient
                   (mkAccount accountId (cr_appId creds) (cr_appSecret creds)
                      (cr_domain creds)) in
       is_ok ws = configured creds
       /\ (configured creds = false -> ws = Throw (CredentialsNotConfigured accountId))
       /\ (configured creds = true ->
           exists cl w, fst r = Ok cl /\ ws = Ok w
                        /\ (map_get (account_of creds) c = None ->
                            cl_domain cl = ws_domain w /\ cl_appId cl = ws_appId w
                            /\ cl_appSecret cl = ws_appSecret w)).
Proof.
  intros r. destruct (configured creds) eqn:Hcfg.
  - destruct (create_stores creds now c Hcfg) as (cl & Hr & Hget). fold r in Hr.
    split; [now rewrite Hr|]. split; [discriminate|]. intros accountId ws.
    assert (ws = Ok (mkWSClient (default "" (cr_appId creds))
                       (default "" (cr_appSecret creds)) (resolveDomain (cr_domain creds))))
      as Hws.
    { subst ws. unfold createFeishuWSClient. simpl.
      now rewrite (configured_values creds Hcfg). }
    split; [now rewrite Hws|]. split; [discriminate|]. intros _.
    exists cl. eexists. split; [now rewrite Hr|]. split; [exact Hws|].
    intros Hnone. subst r.
    rewrite (create_miss creds now c Hcfg) in Hr
      by (intros c0 Hc0; rewrite Hnone in Hc0; discriminate).
    injection Hr as <-. repeat split.
  - subst r. rewrite (create_throw creds now c Hcfg). simpl.
    split; [reflexivity|]. split; [reflexivity|]. intros accountId.
    assert (createFeishuWSClient
              (mkAccount accountId (cr_appId creds) (cr_appSecret creds) (cr_domain creds))
            = Throw (CredentialsNotConfigured accountId)) as ->.
    { unfold createFeishuWSClient. simpl. unfold configured in Hcfg.
      now rewrite <- negb_andb, Hcfg. }
    split; [reflexivity|]. split; [reflexivity|discriminate].
Qed.

Lemma length_map_delete_le (k : string) (c : Cache) :
  (length (map_delete k c) <= length c)%nat.
Proof.
  induction c as [|[k' e'] r IH]; simpl; [lia|].
  destruct (String.eqb k k'); simpl; lia.
Qed.

(** [clearClientCache] with an account id removes the entry of that
    account and no other; without one, or with the empty string, it
    removes every entry. *)
Theorem clear_one_or_all (accountId : option string) (c : Cache) :
  NoDup (keys c) ->
  (forall k, accountId = Some k -> k <> "" ->
     map_get k (clearClientCache accountId c) = None
     /\ (forall j, j <> k -> map_get j (clearClientCache accountId c) = map_get j c)
     /\ keys (clearClientCache accountId c) = filter (fun j => j <> k) (keys c))
  /\ (accountId = None \/ accountId = Some "" -> clearClientCache accountId c = []).
Proof.
  intros Hnd. split.
  - intros k -> Hk. unfold clearClientCache.
    destruct k as [|a k]; [congruence|]. simpl truthy. cbv iota.
    split; [|split].
    + now rewrite map_get_map_delete, String.eqb_refl.
    + intros j Hj. rewrite map_get_map_delete by assumption.
      apply String.eqb_neq in Hj. now rewrite Hj.
    + now apply keys_map_delete.
  - intros [->| ->]; reflexivity.
Qed.

Lemma clear_one_or_all_witness :
  map_get "a" (clearClientCache (Some "a") full_cache) = None
  /\ map_get "aa" (clearClientCache (Some "a") full_cache) = map_get "aa" full_cache
  /\ clearClientCache (Some "") full_cache = [].
Proof.
  assert (NoDup (keys full_cache)) as Hnd.
  { apply (bool_decide_unpack _). vm_compute. exact I. }
  destruct (clear_one_or_all (Some "a") full_cache Hnd) as [Hone _].
  destruct (Hone "a" eq_refl ltac:(discriminate)) as (Hgone & Hothers & _).
  split; [exact Hgone|]. split; [apply Hothers; discriminate|].
  exact (proj2 (clear_one_or_all (Some "") full_cache Hnd) (or_intror eq_refl)).
Defined.

(** [getFeishuClient] returns the client stored for the account, or
    [null]; it adds and removes no entry and touches no other account; on
    a hit only the time of access of the entry changes. *)
Theorem get_is_lookup_and_touch (accountId : string) (now : Z) (c : Cache) :
  let g := getFeishuClient accountId now c in
  fst g = client <$> map_get accountId c
  /\ keys (snd g) = keys c
  /\ (forall j, j <> accountId -> map_get j (snd g) = map_get j c)
  /\ map_get accountId (snd g)
     = (fun e => mkEntry (client e) (config e) now) <$> map_get accountId c
  /\ (map_get accountId c = None -> snd g = c).
Proof.
  intros g. subst g. unfold getFeishuClient.
  destruct (map_get accountId c) as [cached|] eqn:Hget; simpl.
  - rewrite keys_map_set, Hget. repeat split.
    + intros j Hj. rewrite map_get_map_set. apply String.eqb_neq in Hj. now rewrite Hj.
    + now rewrite map_get_map_set, String.eqb_refl.
    + discriminate.
  - rewrite Hget. repeat split.
Qed.

(** *** The bound, for all the functions together *)

Lemma get_wf (accountId : string) (now : Z) (c : Cache) :
  wf_cache c -> wf_cache (snd (getFeishuClient accountId now c)).
Proof.
  intros (Hnd & Hne & Hlen). unfold getFeishuClient.
  destruct (map_get accountId c) as [cached|] eqn:Hget; simpl; [|repeat split; assumption].
  unfold wf_cache. rewrite keys_map_set, length_map_set, Hget. repeat split; assumption.
Qed.

Lemma clear_wf (accountId : option string) (c : Cache) :
  wf_cache c -> wf_cache (clearClientCache accountId c).
Proof.
  intros (Hnd & Hne & Hlen).
  assert (wf_cache []) as Hnil.
  { repeat split; [constructor|constructor|simpl; unfold CLIENT_CACHE_MAX_SIZE; lia]. }
  unfold clearClientCache. destruct accountId as [k|]; [|exact Hnil].
  destruct (truthy (Some k)); [|exact Hnil].
  repeat split.
  - rewrite keys_map_delete by assumption. now apply NoDup_filter.
  - rewrite keys_map_delete by assumption. rewrite Forall_forall in *.
    intros j Hj. apply Hne. apply list_elem_of_filter in Hj. tauto.
  - pose proof (length_map_delete_le k c). lia.
Qed.

(** From the empty cache, whatever the calls of [createFeishuClient],
    [getFeishuClient] and [clearClientCache], as long as no client is
    created for the empty account id: the cache never holds more than 50
    entries, and no account twice. *)
Theorem cache_bounded_for_nonempty_ids (ops : list CacheOp) :
  forallb (fun op => negb (creates_empty_id op)) ops = true ->
  let c := apply_ops ops [] in
  (getClientCacheSize c <= CLIENT_CACHE_MAX_SIZE)%nat /\ NoDup (keys c).
Proof.
  intros Hops.
  enough (forall c0, wf_cache c0 -> wf_cache (apply_ops ops c0)) as H.
  { destruct (H []) as (Hnd & _ & Hlen).
    - repeat split; [constructor|constructor|simpl; unfold CLIENT_CACHE_MAX_SIZE; lia].
    - split; assumption. }
  induction ops as [|op ops IH]; intros c0 Hwf; [exact Hwf|].
  simpl in Hops. apply andb_prop in Hops as [Hop Hops].
  unfold apply_ops in *. simpl. apply (IH Hops).
  destruct op as [creds now|accountId now|accountId]; simpl.
  - apply createFeishuClient_wf; [|exact Hwf].
    simpl in Hop. apply negb_true_iff in Hop. intros Heq. rewrite Heq in Hop. discriminate.
  - now apply get_wf.
  - now apply clear_wf.
Qed.

Lemma cache_bounded_for_nonempty_ids_witness :
  (getClientCacheSize
     (apply_ops (map (fun call => OpCreate (fst call) (snd call)) (calls_from 1 60)
                 ++ [OpGet "a" 70; OpClear (Some "aaa")]) []) <= 50)%nat.
Proof.
  exact (proj1 (cache_bounded_for_nonempty_ids
                  (map (fun call => OpCreate (fst call) (snd call)) (calls_from 1 60)
                   ++ [OpGet "a" 70; OpClear (Some "aaa")])
                  ltac:(vm_compute; reflexivity))).
Defined.

(** *** Which entry goes *)

(** The scan ends on the first of the entries of least [lastAccess]:
    every entry before it is younger, no entry after it is older. *)
Lemma scan_first_oldest (c : Cache) :
  c <> [] ->
  exists k e pre post,
    fst (scan_oldest c) = Some k /\ c = pre ++ (k, e) :: post
    /\ (forall k' e', (k', e') ∈ pre -> (lastAccess e < lastAccess e')%Z)
    /\ (forall k' e', (k', e') ∈ post -> (lastAccess e <= lastAccess e')%Z).
Proof.
  induction c as [|kv c IH] using rev_ind; [congruence|]. intros _.
  unfold scan_oldest in *. rewrite fold_left_app. cbn [fold_left].
  destruct c as [|kv0 c0].
  - simpl. exists (fst kv), (snd kv), [], []. destruct kv. simpl.
    repeat split; intros k' e' H; inversion H.
  - remember (kv0 :: c0) as c1 eqn:Ec1.
    destruct (IH ltac:(subst c1; discriminate))
      as (k & e & pre & post & Hk & Hc & Hpre & Hpost).
    pose proof (scan_oldest_scanned c1) as Hsc. unfold scan_oldest in Hsc.
    destruct (fold_left scan_step c1 (None, None)) as [[k1|] [t|]];
      simpl in Hk, Hsc; try tauto; try discriminate.
    injection Hk as ->. destruct Hsc as (e1 & Hin1 & <- & Hmin).
    assert (lastAccess e1 = lastAccess e) as He.
    { apply Z.le_antisymm.
      - apply (Hmin k). rewrite Hc. apply elem_of_app. right. left.
      - rewrite Hc in Hin1. apply elem_of_app in Hin1 as [H|H].
        + specialize (Hpre _ _ H). lia.
        + apply elem_of_cons in H as [Heq|H]; [inversion Heq; subst; lia|].
          now apply (Hpost k). }
    unfold scan_step. rewrite He.
    destruct (Z.ltb_spec (lastAccess kv.2) (lastAccess e)) as [Hlt|Hge]; cbn [fst].
    + exists (fst kv), (snd kv), c1, []. destruct kv as [kn en]. cbn [fst snd] in *.
      split; [reflexivity|]. split; [reflexivity|].
      split; [|intros k' e' H; inversion H].
      intros k' e' H. rewrite Hc in H. apply elem_of_app in H as [H|H].
      * specialize (Hpre _ _ H). lia.
      * apply elem_of_cons in H as [Heq|H]; [inversion Heq; subst; lia|].
        specialize (Hpost _ _ H). lia.
    + exists k, e, pre, (post ++ [kv]).
      split; [reflexivity|]. split; [now rewrite Hc, <- app_assoc|].
      split; [exact Hpre|].
      intros k' e' [H|H]%elem_of_app; [now apply (Hpost k')|].
      apply list_elem_of_singleton in H. subst kv. simpl in Hge. lia.
Qed.

Lemma map_delete_split (k : string) (e : Entry) (pre post : Cache) :
  k ∉ keys pre -> map_delete k (pre ++ (k, e) :: post) = pre ++ post.
Proof.
  induction pre as [|[k' e'] pre IH]; simpl; intros Hk.
  - now rewrite String.eqb_refl.
  - apply not_elem_of_cons in Hk as [Hne Hk]. apply String.eqb_neq in Hne.
    rewrite Hne. now rewrite IH.
Qed.

(** A client for a new account, when the cache is full.  The scan ends
    on the first, in the order of insertion, of the entries accessed
    least recently.  When its key is not the empty string, exactly that
    entry goes: the others stay in their order, the new entry comes last
    and 50 entries are left.  When its key is the empty string nothing
    goes: the new entry is added last and the cache holds 51 entries. *)
Theorem insertion_evicts_first_oldest (creds : FeishuClientCredentials) (now : Z)
    (c : Cache) :
  NoDup (keys c) -> getClientCacheSize c = CLIENT_CACHE_MAX_SIZE ->
  configured creds = true -> map_get (account_of creds) c = None ->
  exists k e pre post,
    c = pre ++ (k, e) :: post
    /\ (forall k' e', (k', e') ∈ pre -> (lastAccess e < lastAccess e')%Z)
    /\ (forall k' e', (k', e') ∈ post -> (lastAccess e <= lastAccess e')%Z)
    /\ (k <> "" ->
        snd (createFeishuClient creds now c)
        = pre ++ post ++ [(account_of creds, entry_of creds now)]
        /\ getClientCacheSize (snd (createFeishuClient creds now c)) = 50%nat)
    /\ (k = "" ->
        snd (createFeishuClient creds now c)
        = c ++ [(account_of creds, entry_of creds now)]
        /\ getClientCacheSize (snd (createFeishuClient creds now c)) = 51%nat).
Proof.
  intros Hnd Hlen Hcfg Hnone. unfold getClientCacheSize in *.
  assert (c <> []) as Hc by (intros ->; discriminate).
  destruct (scan_first_oldest c Hc) as (k & e & pre & post & Hk & Hsplit & Hpre & Hpost).
  exists k, e, pre, post.
  assert (k ∉ keys pre) as Hkpre.
  { rewrite Hsplit in Hnd. unfold keys in *. rewrite fmap_app in Hnd.
    apply NoDup_app in Hnd as (_ & Hdisj & _). intros Hin.
    apply (Hdisj k Hin). left. }
  rewrite (create_miss creds now c Hcfg)
    by (intros c0 Hc0; rewrite Hnone in Hc0; discriminate).
  simpl. unfold CLIENT_CACHE_MAX_SIZE in Hlen.
  split; [exact Hsplit|]. split; [exact Hpre|]. split; [exact Hpost|]. split.
  - intros Hkne.
    rewrite (evict_at_capacity c k) by (rewrite ?Hlen; unfold CLIENT_CACHE_MAX_SIZE; auto).
    assert (map_delete k c = pre ++ post) as Hdel
      by (rewrite Hsplit at 1; now apply map_delete_split).
    assert (map_get (account_of creds) (map_delete k c) = None) as Hnone'.
    { rewrite map_get_map_delete by assumption.
      destruct (String.eqb (account_of creds) k); [reflexivity|exact Hnone]. }
    rewrite (map_set_absent _ _ _ Hnone'), Hdel, <- app_assoc.
    split; [reflexivity|].
    rewrite Hsplit in Hlen. rewrite !length_app in *. simpl in *. lia.
  - intros ->. rewrite (evict_empty_key c Hk).
    rewrite (map_set_absent _ _ _ Hnone). split; [reflexivity|].
    rewrite length_app. simpl. lia.
Qed.

Lemma insertion_evicts_first_oldest_witness :
  getClientCacheSize (snd (createFeishuClient (creds_for (account 51)) 51 full_cache))
  = 50%nat.
Proof.
  assert (NoDup (keys full_cache)) as Hnd.
  { apply (bool_decide_unpack _). vm_compute. exact I. }
  assert (Forall (fun k => k <> "") (keys full_cache)) as Hne.
  { apply (bool_decide_unpack _). vm_compute. exact I. }
  destruct (insertion_evicts_first_oldest (creds_for (account 51)) 51 full_cache
              Hnd eq_refl eq_refl ltac:(vm_compute; reflexivity))
    as (k & e & pre & post & Hsplit & _ & _ & Hgo & _).
  apply Hgo. rewrite Forall_forall in Hne. apply Hne.
  rewrite Hsplit. unfold keys. rewrite fmap_app. apply elem_of_app. right. left.
Defined.

Lemma get_hit (accountId : string) (now : Z) (c : Cache) (cached : Entry) :
  map_get accountId c = Some cached ->
  getFeishuClient accountId now c
  = (Some (client cached),
     map_set accountId (mkEntry (client cached) (config cached) now) c).
Proof. intros H. unfold getFeishuClient. now rewrite H. Qed.

(** An account that has just been looked up is not the one evicted by
    the next insertion: when the cache is full and some other entry was
    last accessed before that lookup, the client of the account is still
    there after a client for a new account has been created. *)
Theorem looked_up_client_survives_insertion (accountId other : string)
    (creds : FeishuClientCredentials) (now now' now'' : Z) (c : Cache)
    (cached old : Entry) :
  wf_cache c -> getClientCacheSize c = CLIENT_CACHE_MAX_SIZE ->
  map_get accountId c = Some cached ->
  map_get other c = Some old -> other <> accountId -> (lastAccess old < now)%Z ->
  configured creds = true -> map_get (account_of creds) c = None ->
  let c1 := snd (getFeishuClient accountId now c) in
  let c2 := snd (createFeishuClient creds now' c1) in
  fst (getFeishuClient accountId now'' c2) = Some (client cached).
Proof.
  intros Hwf Hlen Hget Hother Hdiff Hold Hcfg Hnew c1 c2.
  assert (account_of creds <> accountId) as Hacct by congruence.
  pose proof (get_wf accountId now c Hwf) as Hwf1. fold c1 in Hwf1.
  assert (c1 = map_set accountId (mkEntry (client cached) (config cached) now) c) as Ec1.
  { subst c1. now rewrite (get_hit _ _ _ _ Hget). }
  assert (map_get accountId c1 = Some (mkEntry (client cached) (config cached) now)) as Hget1.
  { rewrite Ec1, map_get_map_set. now rewrite String.eqb_refl. }
  assert (map_get other c1 = Some old) as Hother1.
  { rewrite Ec1, map_get_map_set. apply String.eqb_neq in Hdiff. now rewrite Hdiff. }
  assert (map_get (account_of creds) c1 = None) as Hnew1.
  { rewrite Ec1, map_get_map_set. apply String.eqb_neq in Hacct. now rewrite Hacct. }
  assert (length c1 = CLIENT_CACHE_MAX_SIZE) as Hlen1.
  { rewrite Ec1, length_map_set, Hget. exact Hlen. }
  assert (c1 <> []) as Hc1 by (intros E; rewrite E in Hlen1; discriminate).
  destruct (scan_oldest_min c1 Hc1) as (k & e & Hk & Hin & Hmin).
  destruct Hwf1 as (Hnd1 & Hne1 & _).
  assert (k <> "") as Hkne.
  { intros ->. apply (list_elem_of_fmap_2 fst) in Hin. simpl in Hin.
    rewrite Forall_forall in Hne1. exact (Hne1 _ Hin eq_refl). }
  assert (k <> accountId) as Hka.
  { intros ->. rewrite (elem_map_get _ _ _ Hnd1 Hin) in Hget1.
    injection Hget1 as ->.
    specialize (Hmin other old (map_get_Some_elem _ _ _ Hother1)). simpl in Hmin. lia. }
  assert (c2 = map_set (account_of creds) (entry_of creds now') (map_delete k c1)) as Ec2.
  { subst c2. rewrite create_miss; [|assumption|intros x Hx; congruence]. simpl.
    rewrite (evict_at_capacity c1 k); [reflexivity|rewrite Hlen1; lia|assumption|assumption]. }
  assert (map_get accountId c2 = Some (mkEntry (client cached) (config cached) now)) as Hget2.
  { rewrite Ec2, map_get_map_set.
    assert (accountId <> account_of creds) as Hacct' by congruence.
    apply String.eqb_neq in Hacct'. rewrite Hacct'.
    rewrite map_get_map_delete by exact Hnd1. apply String.eqb_neq in Hka.
    rewrite String.eqb_sym in Hka. rewrite ?Hka. exact Hget1. }
  rewrite (get_hit _ _ _ _ Hget2). reflexivity.
Qed.

Lemma looked_up_client_survives_insertion_witness :
  fst (getFeishuClient (account 1) 53
         (snd (createFeishuClient (creds_for (account 51)) 52
                 (snd (getFeishuClient (account 1) 51 full_cache)))))
  = Some (mkClient "cli_a" "secret" DomainFeishu).
Proof.
  assert (wf_cache full_cache) as Hwf.
  { repeat split.
    - apply (bool_decide_unpack _). vm_compute. exact I.
    - apply (bool_decide_unpack _). vm_compute. exact I.
    - vm_compute. lia. }
  exact (looked_up_client_survives_insertion (account 1) (account 2)
           (creds_for (account 51)) 51 52 53 full_cache
           (entry_of (creds_for (account 1)) 1) (entry_of (creds_for (account 2)) 2)
           Hwf eq_refl eq_refl eq_refl ltac:(discriminate) eq_refl eq_refl
           ltac:(vm_compute; reflexivity)).
Defined.

End ClientCacheMore.

(** ** Private deployments: the base URL *)

Module DomainMore.

Lemma append_nil (s : string) : "" +:+ s = s.
Proof. reflexivity. Qed.

Lemma append_cons (c : ascii) (r s : string) : String c r +:+ s = String c (r +:+ s).
Proof. reflexivity. Qed.

Lemma append_nil_r (s : string) : s +:+ "" = s.
Proof. induction s as [|c r IH]; [reflexivity|]. now rewrite append_cons, IH. Qed.

Lemma append_assoc (a b c : string) : (a +:+ b) +:+ c = a +:+ (b +:+ c).
Proof.
  induction a as [|x r IH]; [reflexivity|]. now rewrite !append_cons, IH.
Qed.

Lemma slashes_add (m n : nat) : slashes m +:+ slashes n = slashes (m + n).
Proof.
  induction m as [|m IH]; [reflexivity|].
  cbn [slashes Nat.add]. now rewrite append_cons, IH.
Qed.

Lemma ends_with_slash_cons (c : ascii) (r : string) :
  ends_with_slash (String c r)
  = match r with EmptyString => Ascii.eqb c "/" | _ => ends_with_slash r end.
Proof. reflexivity. Qed.

Lemma strip_cons (c : ascii) (r : string) :
  strip_trailing_slashes (String c r)
  = match strip_trailing_slashes r with
    | EmptyString => if Ascii.eqb c "/" then EmptyString else String c EmptyString
    | r' => String c r'
    end.
Proof. reflexivity. Qed.

Lemma strip_split (s : string) :
  exists n, s = strip_trailing_slashes s +:+ slashes n
            /\ ends_with_slash (strip_trailing_slashes s) = false.
Proof.
  induction s as [|c r (n & Hr & Hend)]; [exists O; split; reflexivity|].
  rewrite strip_cons. destruct (strip_trailing_slashes r) as [|c' r'] eqn:E.
  - rewrite append_nil in Hr. destruct (Ascii.eqb_spec c "/") as [->|Hc].
    + exists (S n). rewrite append_nil. cbn [slashes]. split; [now rewrite <- Hr|reflexivity].
    + exists n. rewrite append_cons, append_nil. split; [now rewrite <- Hr|].
      rewrite ends_with_slash_cons. now apply Ascii.eqb_neq.
  - exists n. split.
    + rewrite append_cons. now rewrite <- Hr.
    + rewrite ends_with_slash_cons. exact Hend.
Qed.

Lemma strip_slashes (n : nat) : strip_trailing_slashes (slashes n) = "".
Proof.
  induction n as [|n IH]; [reflexivity|].
  cbn [slashes]. rewrite strip_cons, IH. reflexivity.
Qed.

Lemma strip_append (u : string) (n : nat) :
  ends_with_slash u = false -> strip_trailing_slashes (u +:+ slashes n) = u.
Proof.
  induction u as [|c r IH]; intros Hend.
  - rewrite append_nil. apply strip_slashes.
  - rewrite append_cons, strip_cons. rewrite ends_with_slash_cons in Hend.
    destruct r as [|c' r'].
    + rewrite append_nil, strip_slashes, Hend. reflexivity.
    + rewrite (IH Hend). reflexivity.
Qed.

(** [replace(/\/+$/, "")] takes away the slashes that end the string,
    all of them and nothing else: the string is the result followed by
    slashes only, the result does not end with a slash, and it is the
    only such prefix.  The result is left as it is by a second
    application. *)
Theorem strip_trailing_slashes_exact (s : string) :
  (exists n, s = strip_trailing_slashes s +:+ slashes n)
  /\ ends_with_slash (strip_trailing_slashes s) = false
  /\ (forall u n, s = u +:+ slashes n -> ends_with_slash u = false ->
        strip_trailing_slashes s = u)
  /\ strip_trailing_slashes (strip_trailing_slashes s) = strip_trailing_slashes s.
Proof.
  destruct (strip_split s) as (n & Hs & Hend).
  split; [eauto|]. split; [assumption|]. split.
  - intros u m -> Hu. now apply strip_append.
  - apply (strip_append _ O) in Hend.
    cbn [slashes] in Hend. now rewrite append_nil_r in Hend.
Qed.

Lemma startsWith_http (d : string) :
  startsWith "http" d = true -> exists r, d = "http" +:+ r.
Proof.
  unfold startsWith. intros H.
  destruct d as [|c1 [|c2 [|c3 [|c4 r]]]]; simpl in H;
    repeat match type of H with
           | (if ?b then _ else _) = true => destruct b as [<-|]
           end; try discriminate.
  exists r. reflexivity.
Qed.

Lemma startsWith_http_append (d t : string) :
  startsWith "http" d = true -> startsWith "http" (d +:+ t) = true.
Proof.
  intros H. destruct (startsWith_http d H) as (r & ->).
  rewrite !append_cons. unfold startsWith. simpl.
  repeat match goal with
         | |- (if ?b then _ else _) = true => destruct b; [|congruence]
         end.
  now destruct (("" +:+ r) +:+ t).
Qed.

(** For a private deployment (a [domain] that starts with [http]) the
    client and the streaming card use the same base URL: the SDK client
    is given the value without its trailing slashes, and the streaming
    requests go to that same value followed by [/open-apis].  Slashes
    added at the end of the setting change neither. *)
Theorem private_deployment_one_base (d : string) (n : nat) :
  startsWith "http" d = true ->
  ClientCache.resolveDomain (Some d)
  = ClientCache.DomainCustom (strip_trailing_slashes d)
  /\ StreamingCard.resolveApiBase (Some d) = strip_trailing_slashes d +:+ "/open-apis"
  /\ ClientCache.resolveDomain (Some (d +:+ slashes n)) = ClientCache.resolveDomain (Some d)
  /\ StreamingCard.resolveApiBase (Some (d +:+ slashes n))
     = StreamingCard.resolveApiBase (Some d).
Proof.
  intros Hp.
  assert (forall x, startsWith "http" x = true ->
            ClientCache.resolveDomain (Some x)
            = ClientCache.DomainCustom (strip_trailing_slashes x)
            /\ StreamingCard.resolveApiBase (Some x)
               = strip_trailing_slashes x +:+ "/open-apis") as Hone.
  { intros x Hx.
    assert (String.eqb x "lark" = false /\ String.eqb x "feishu" = false
            /\ truthy (Some x) = true) as (Hl & Hf & Ht).
    { destruct (startsWith_http x Hx) as (r & ->). rewrite !append_cons.
      repeat split; reflexivity. }
    unfold ClientCache.resolveDomain, StreamingCard.resolveApiBase.
    rewrite Hl, Hf, Ht, Hx. split; reflexivity. }
  destruct (Hone d Hp) as [H1 H2].
  destruct (Hone _ (startsWith_http_append d (slashes n) Hp)) as [H3 H4].
  assert (strip_trailing_slashes (d +:+ slashes n) = strip_trailing_slashes d) as E.
  { destruct (strip_split d) as (m & Hd & Hend).
    rewrite Hd at 1. rewrite append_assoc, slashes_add.
    now apply strip_append. }
  rewrite H3, H4, E, H1, H2. repeat split; reflexivity.
Qed.

Lemma private_deployment_one_base_witness :
  StreamingCard.resolveApiBase (Some "https://lark.corp.example//")
  = "https://lark.corp.example/open-apis".
Proof.
  exact (proj1 (proj2 (private_deployment_one_base "https://lark.corp.example//" 0 eq_refl))).
Defined.

End DomainMore.

(** ** The token cache across calls *)

Module TokenCacheMore.
Import StreamingCard TokenCacheFacts.
Local Open Scope Z_scope.

(** After a call that returns a token the store holds that token under
    the key of the credentials. *)
Lemma getToken_stored (creds : Credentials) (nc nk : Z)
    (ex : result TokenResponse) (ns : Z) (st : TokenStore) (tok : string) :
  let r := getToken creds nc nk ex ns st in
  r.1.1 = Ok tok ->
  exists e, tokenCache r.1.2 !! token_key creds = Some e /\ token e = tok.
Proof.
  unfold getToken.
  destruct (tokenCache (cleanupTokenCache nc st) !! token_key creds) as [cached|] eqn:Hc;
    [destruct (expiresAt cached >? nk + 60000);
       [simpl; intros [= <-]; eauto|]|];
    (destruct ex as [data|err]; [|discriminate];
     destruct (negb (tr_code data =? 0) || negb (truthy (tenant_access_token data)));
       [discriminate|];
     simpl; intros [= <-]; eexists; split; [apply lookup_insert_eq|reflexivity]).
Qed.

(** A call for which the store holds an entry that is not swept and
    outlives the check by more than 60000 ms returns that entry's token
    and requests nothing. *)
Lemma getToken_hit (creds : Credentials) (nc nk : Z)
    (ex : result TokenResponse) (ns : Z) (st : TokenStore) (e : TokenEntry) :
  tokenCache st !! token_key creds = Some e ->
  nc <= expiresAt e -> nk + 60000 < expiresAt e ->
  getToken creds nc nk ex ns st = (Ok (token e), cleanupTokenCache nc st, []).
Proof.
  intros He Hnc Hnk. unfold getToken.
  assert (tokenCache (cleanupTokenCache nc st) !! token_key creds = Some e) as ->.
  { unfold cleanupTokenCache.
    destruct (nc - lastTokenCacheCleanup st <? TOKEN_CACHE_CLEANUP_INTERVAL_MS);
      [exact He|].
    simpl. apply map_lookup_filter_Some. split; [exact He|simpl; lia]. }
  destruct (Z.gtb_spec (expiresAt e) (nk + 60000)); [reflexivity|lia].
Qed.

(** [getToken] is its two parts, run with nothing in between. *)
Lemma getToken_parts (creds : Credentials) (nc nk : Z)
    (ex : result TokenResponse) (ns : Z) (st : TokenStore) :
  getToken creds nc nk ex ns st
  = match getToken_lookup creds nc nk st with
    | (Some tok, st1) => (Ok tok, st1, [])
    | (None, st1) =>
        ((getToken_settle creds ex ns st1).1, (getToken_settle creds ex ns st1).2,
         [exchange_request creds])
    end.
Proof.
  unfold getToken, getToken_lookup, getToken_settle.
  destruct (tokenCache (cleanupTokenCache nc st) !! token_key creds) as [cached|];
    [destruct (expiresAt cached >? nk + 60000); [reflexivity|]|];
    (destruct ex as [data|e]; [|reflexivity];
     now destruct (negb (tr_code data =? 0) || negb (truthy (tenant_access_token data)))).
Qed.

(** A token in the cache is reused.  An exchange that succeeds, on
    whatever the cache holds when the answer comes, stores its token under
    the key of the credentials with the lifetime the endpoint reports and
    leaves the other keys as they are.  And whenever a call finds under
    its key (the [domain] setting and the [appId], whatever the secret) an
    entry that has more than 60 seconds left, it returns the token of
    that entry in its first synchronous part, makes no request to the
    token endpoint and keeps the entry; so the token of an exchange is
    returned by the calls that follow until it has 60 seconds left or
    another exchange for the same key replaces it. *)
Theorem token_reused_while_valid (creds creds' : Credentials)
    (data : TokenResponse) (ns : Z) (st st' : TokenStore) (tok : string)
    (e : TokenEntry) (nc' nk' : Z) (ex' : result TokenResponse) (ns' : Z) :
  (getToken_settle creds (Ok data) ns st).1 = Ok tok ->
  token_key creds' = token_key creds ->
  tokenCache st' !! token_key creds = Some e ->
  nc' <= nk' -> nk' + 60000 < expiresAt e ->
  (tokenCache (getToken_settle creds (Ok data) ns st).2 !! token_key creds
   = Some (mkTokenEntry tok (ns + default 7200 (expire data) * 1000))
   /\ tenant_access_token data = Some tok
   /\ forall k, k <> token_key creds ->
        tokenCache (getToken_settle creds (Ok data) ns st).2 !! k = tokenCache st !! k)
  /\ getToken_lookup creds' nc' nk' st' = (Some (token e), cleanupTokenCache nc' st')
  /\ getToken creds' nc' nk' ex' ns' st' = (Ok (token e), cleanupTokenCache nc' st', [])
  /\ tokenCache (cleanupTokenCache nc' st') !! token_key creds = Some e.
Proof.
  intros Hok Hkey He Hmono Hvalid.
  assert (tokenCache (cleanupTokenCache nc' st') !! token_key creds = Some e) as Hkept.
  { unfold cleanupTokenCache.
    destruct (nc' - lastTokenCacheCleanup st' <? TOKEN_CACHE_CLEANUP_INTERVAL_MS);
      [exact He|].
    simpl. apply map_lookup_filter_Some. split; [exact He|simpl; lia]. }
  assert (getToken_lookup creds' nc' nk' st' = (Some (token e), cleanupTokenCache nc' st'))
    as Hlook.
  { unfold getToken_lookup. rewrite Hkey, Hkept.
    destruct (Z.gtb_spec (expiresAt e) (nk' + 60000)); [reflexivity|lia]. }
  split; [|split; [exact Hlook|split; [|exact Hkept]]].
  - unfold getToken_settle in *.
    destruct (negb (tr_code data =? 0) || negb (truthy (tenant_access_token data)))
      eqn:Hbad; [discriminate|].
    apply orb_false_iff in Hbad as [_ Htok]. apply negb_false_iff in Htok.
    destruct (tenant_access_token data) as [t|]; [|discriminate].
    simpl in *. injection Hok as <-. split; [apply lookup_insert_eq|].
    split; [reflexivity|]. intros k Hk. apply lookup_insert_ne. congruence.
  - now rewrite getToken_parts, Hlook.
Qed.

Lemma token_reused_while_valid_witness :
  getToken (mkCredentials "cli_a" "another secret" None) 2000 2000 (Throw (HttpStatus 500)) 2100
    (getToken_settle app_creds (Ok (mkTokenResponse 0 "ok" (Some "t-1") None)) 1100
       empty_store).2
  = (Ok "t-1",
     cleanupTokenCache 2000
       (getToken_settle app_creds (Ok (mkTokenResponse 0 "ok" (Some "t-1") None)) 1100
          empty_store).2,
     []).
Proof.
  refine (proj1 (proj2 (proj2
            (token_reused_while_valid app_creds (mkCredentials "cli_a" "another secret" None)
               (mkTokenResponse 0 "ok" (Some "t-1") None) 1100 empty_store
               (getToken_settle app_creds (Ok (mkTokenResponse 0 "ok" (Some "t-1") None))
                  1100 empty_store).2
               "t-1" (mkTokenEntry "t-1" 7201100) 2000 2000 (Throw (HttpStatus 500)) 2100
               eq_refl eq_refl _ _ _)))).
  - vm_compute. reflexivity.
  - lia.
  - simpl. lia.
Defined.

(** A call that fails stores nothing: it made exactly one request to
    the token endpoint, the error is the rejection of that request or is
    built from the [msg] of an answer whose [code] is not 0 or that
    carries no token, and the store is the one left by the sweep, so that
    an entry too old to be returned stays as it was. *)
Theorem failed_exchange_stores_nothing (creds : Credentials) (nc nk : Z)
    (ex : result TokenResponse) (ns : Z) (st : TokenStore) (err : JsError) :
  let r := getToken creds nc nk ex ns st in
  r.1.1 = Throw err ->
  r.1.2 = cleanupTokenCache nc st
  /\ r.2 = [exchange_request creds]
  /\ (ex = Throw err
      \/ exists data,
           ex = Ok data /\ err = TokenError (tr_msg data)
           /\ (tr_code data <> 0 \/ truthy (tenant_access_token data) = false)).
Proof.
  unfold getToken.
  destruct (tokenCache (cleanupTokenCache nc st) !! token_key creds) as [cached|] eqn:Hc;
    [destruct (expiresAt cached >? nk + 60000); [discriminate|]|];
    (destruct ex as [data|e0];
     [destruct (Z.eqb_spec (tr_code data) 0) as [H0|H0];
      destruct (truthy (tenant_access_token data)) eqn:Ht; simpl; try discriminate;
      intros [= <-]; repeat split; right; exists data; auto
     |simpl; intros [= <-]; auto]).
Qed.

Lemma failed_exchange_stores_nothing_witness :
  (getToken app_creds 1000 1000 (Ok (mkTokenResponse 99991663 "denied" None None)) 1100
     (store_with "t-0" 30000)).1.2
  = cleanupTokenCache 1000 (store_with "t-0" 30000).
Proof.
  exact (proj1 (failed_exchange_stores_nothing app_creds 1000 1000
                  (Ok (mkTokenResponse 99991663 "denied" None None)) 1100
                  (store_with "t-0" 30000) (TokenError "denied") eq_refl)).
Defined.

(** A call touches the entry of its own key only: the entry of any
    other key is after the call what the sweep left of it, an entry that
    has not expired when the sweep reads the clock is kept, and no entry
    appears under another key. *)
Theorem getToken_other_keys (creds : Credentials) (nc nk : Z)
    (ex : result TokenResponse) (ns : Z) (st : TokenStore) (k : string) :
  k <> token_key creds ->
  let r := getToken creds nc nk ex ns st in
  tokenCache r.1.2 !! k = tokenCache (cleanupTokenCache nc st) !! k
  /\ (forall e, tokenCache st !! k = Some e -> nc <= expiresAt e ->
        tokenCache r.1.2 !! k = Some e)
  /\ (forall e, tokenCache r.1.2 !! k = Some e -> tokenCache st !! k = Some e).
Proof.
  intros Hk r.
  assert (tokenCache r.1.2 !! k = tokenCache (cleanupTokenCache nc st) !! k) as Hframe.
  { subst r. unfold getToken.
    destruct (tokenCache (cleanupTokenCache nc st) !! token_key creds) as [cached|];
      [destruct (expiresAt cached >? nk + 60000); [reflexivity|]|];
      (destruct ex as [data|e0]; [|reflexivity];
       destruct (negb (tr_code data =? 0) || negb (truthy (tenant_access_token data)));
         [reflexivity|];
       simpl; apply lookup_insert_ne; congruence). }
  split; [exact Hframe|]. rewrite Hframe. split.
  - intros e He Hnc. unfold cleanupTokenCache.
    destruct (nc - lastTokenCacheCleanup st <? TOKEN_CACHE_CLEANUP_INTERVAL_MS);
      [exact He|].
    simpl. apply map_lookup_filter_Some. split; [exact He|simpl; lia].
  - intros e. apply cleanup_lookup_Some.
Qed.

Lemma getToken_other_keys_witness :
  tokenCache
    (getToken (mkCredentials "cli_b" "secret" (Some "lark")) 1000 1000
       (Ok (mkTokenResponse 0 "ok" (Some "t-2") None)) 1100
       (store_with "t-0" 30000)).1.2 !! token_key app_creds
  = Some (mkTokenEntry "t-0" 30000).
Proof.
  refine (proj1 (proj2 (getToken_other_keys (mkCredentials "cli_b" "secret" (Some "lark"))
                          1000 1000 (Ok (mkTokenResponse 0 "ok" (Some "t-2") None)) 1100
                          (store_with "t-0" 30000) (token_key app_creds) _))
            (mkTokenEntry "t-0" 30000) _ _).
  - discriminate.
  - apply lookup_singleton_eq.
  - simpl. lia.
Defined.

End TokenCacheMore.

(** ** The session over its whole life *)

Module SessionMore.
Import StreamingCard SessionFacts.
Local Open Scope Z_scope.

(** *** One step, field by field *)

Lemma set_queue_same (s : Session) : set_queue (queue s) s = s.
Proof. now destruct s. Qed.

Lemma requests_start (s : Session) (receiveId : string) (kind : option ReceiveIdType)
    (tok : result string) (createRes : result CreateResponse)
    (sendRes : result SendResponse) :
  forall e, e ∈ (start receiveId kind tok createRes sendRes s).2 ->
    state s = None
    /\ match e with
       | PostCreateCard _ | SendMessage _ _ _ | LogCall (MsgStarted _ _) => True
       | _ => False
       end.
Proof.
  intros e. run_m. destruct (state s) as [cs|] eqn:Hst; simpl.
  - intros H. inversion H.
  - destruct tok as [t|e0]; simpl; [|intros H; inversion H].
    destruct createRes as [cd|e0]; simpl.
    + destruct (negb (cr_code cd =? 0) || negb (truthy (cr_card_id cd))); simpl.
      * intros H. apply list_elem_of_singleton in H. subst. auto.
      * destruct sendRes as [sd|e0]; simpl.
        -- destruct (negb (sr_code sd =? 0) || negb (truthy (sr_message_id sd))); simpl.
           ++ intros H. repeat (apply elem_of_cons in H as [->|H]; [auto|]). inversion H.
           ++ destruct (log s); simpl; intros H;
                repeat (apply elem_of_cons in H as [->|H]; [auto|]); inversion H.
        -- intros H. repeat (apply elem_of_cons in H as [->|H]; [auto|]). inversion H.
    + intros H. apply list_elem_of_singleton in H. subst. auto.
Qed.

(** The session after a drained [close]: what it leaves as it was, and
    the failures it counts. *)
Lemma closed_down_session (finalText : option string) (cs : CardState)
    (tok1 : result string) (res1 : result Response)
    (tok2 : result string) (res2 : result Response) (s : Session) :
  state s = Some cs -> closed s = true ->
  let text := final_text finalText s cs in
  let n := ((if flushes text cs
             then match attempt_error tok1 res1 with Some _ => 1 | None => 0 end
             else 0)
            + match attempt_error tok2 res2 with Some _ => 1 | None => 0 end)%nat in
  let d := (closed_down finalText cs tok1 res1 tok2 res2 s).1 in
  closing d = None /\ closed d = true /\ running d = running s /\ queue d = queue s
  /\ pendingText d = pendingText s /\ lastUpdateTime d = lastUpdateTime s
  /\ updateThrottleMs d = updateThrottleMs s /\ maxErrors d = maxErrors s
  /\ client d = client s /\ creds d = creds s /\ log d = log s /\ error d = error s
  /\ errorCount d = errorCount s + Z.of_nat n.
Proof.
  intros Hst Hcl. destruct s. simpl in *. subst.
  unfold closed_down, settle, after_error, final_text. simpl.
  destruct (flushes _ cs); simpl;
    destruct (attempt_error tok1 res1), (attempt_error tok2 res2); simpl;
    repeat match goal with
           | |- context [?a >=? ?b] => destruct (a >=? b); simpl
           end;
    repeat apply conj; try reflexivity; lia.
Qed.

(** Splits on the event, and for a resumption of [close] on whether it
    is due; each method is replaced by its written-out form. *)
Ltac by_step ev s Hwf :=
  pose proof Hwf as [Hm Hc Hb Hcl Hr];
  destruct ev as [rid kind tok cr sr|text now| |tok|res|ft|tok1 res1 tok2 res2];
  cbn [step];
  [ |rewrite update_eq|rewrite unit_start_eq|rewrite unit_token_eq
    |rewrite unit_response_eq|rewrite close_eq
    |destruct (closing s) as [ft|] eqn:Hclo;
     [destruct (running s) as [ru|] eqn:Hrun;
      [rewrite close_drained_idle by (right; left; congruence)
      |destruct (queue s) as [|t q] eqn:Hq;
       [destruct (Hcl ltac:(congruence)) as [Hclosed [cs0 Hcs0]];
        rewrite (close_drained_eq _ _ _ _ s ft cs0) by assumption
       |rewrite close_drained_idle by (right; right; congruence)]]
     |rewrite close_drained_idle by auto]].

(** What the constructor sets stays; the time of the last update is
    written by an accepted [update] call only. *)
Lemma step_frame (ev : Event) (s : Session) :
  wf_session s ->
  client (step ev s).1.2 = client s /\ creds (step ev s).1.2 = creds s
  /\ log (step ev s).1.2 = log s /\ error (step ev s).1.2 = error s
  /\ updateThrottleMs (step ev s).1.2 = updateThrottleMs s
  /\ maxErrors (step ev s).1.2 = maxErrors s
  /\ lastUpdateTime (step ev s).1.2 = List.last (accepted_at ev s) (lastUpdateTime s).
Proof.
  intros Hwf. by_step ev s Hwf.
  - destruct (start_state s rid kind tok cr sr) as [->|[Hnone [cs ->]]];
      simpl; repeat apply conj; reflexivity.
  - unfold accepted_at, accepts. simpl. destruct (not_usable s); simpl;
      [repeat apply conj; reflexivity|].
    destruct (_ <? _); simpl; repeat apply conj; reflexivity.
  - simpl. destruct (running s) as [[t ph]|]; [repeat apply conj; reflexivity|].
    destruct (queue s); [repeat apply conj; reflexivity|].
    destruct (not_usable s); simpl; repeat apply conj; reflexivity.
  - destruct (frame_after_error s) as (_ & _ & _ & _ & _ & Hmx & Hl & Ht & Hlg & Her & Hcr).
    assert (client (after_error s) = client s) as Hcli
      by (unfold after_error; simpl; now destruct (_ >=? _)).
    destruct (running s) as [[text [|]]|]; [| |]; try (simpl; repeat apply conj; reflexivity).
    destruct tok as [t|e]; [destruct (state s)|]; simpl; repeat apply conj; auto.
  - destruct (frame_after_error s) as (_ & _ & _ & _ & _ & Hmx & Hl & Ht & Hlg & Her & Hcr).
    assert (client (after_error s) = client s) as Hcli
      by (unfold after_error; simpl; now destruct (_ >=? _)).
    destruct (running s) as [[text [|]]|]; [| |]; try (simpl; repeat apply conj; reflexivity).
    destruct res as [r|e]; [destruct (ok r)|]; simpl; repeat apply conj; auto.
  - simpl. destruct (not_usable s); simpl; repeat apply conj; reflexivity.
  - simpl. repeat apply conj; reflexivity.
  - destruct (closed_down_session ft cs0 tok1 res1 tok2 res2 s Hcs0 Hclosed)
      as (_ & _ & _ & _ & _ & Hl & Ht & Hmx & Hcli & Hcr & Hlg & Her & _).
    simpl. repeat apply conj; assumption.
  - simpl. repeat apply conj; reflexivity.
  - simpl. repeat apply conj; reflexivity.
Qed.

Lemma run_frame (evs : list Event) (s : Session) :
  wf_session s ->
  client (run evs s).1 = client s /\ creds (run evs s).1 = creds s
  /\ log (run evs s).1 = log s /\ error (run evs s).1 = error s
  /\ updateThrottleMs (run evs s).1 = updateThrottleMs s
  /\ maxErrors (run evs s).1 = maxErrors s.
Proof.
  revert s. induction evs as [|ev evs IH]; intros s Hwf; [repeat apply conj; reflexivity|].
  rewrite run_cons. cbn [fst].
  destruct (IH _ (step_wf ev s Hwf)) as (H1 & H2 & H3 & H4 & H5 & H6).
  destruct (step_frame ev s Hwf) as (G1 & G2 & G3 & G4 & G5 & G6 & _).
  rewrite H1, H2, H3, H4, H5, H6. repeat apply conj; assumption.
Qed.

(** *** The throttle *)

(** Two [update] calls that are accepted are a throttle interval apart
    or more: an accepted call is [updateThrottleMs] or more after the
    accepted call before it, whatever happens to the requests in
    between. *)
Theorem accepted_updates_are_spaced (s : Session) (evs : list Event) :
  reachable s ->
  spaced (updateThrottleMs s) (lastUpdateTime s) (accepted_times evs s).
Proof.
  intros Hs. apply reachable_wf in Hs. revert s Hs.
  induction evs as [|ev evs IH]; intros s Hwf; [exact I|].
  cbn [accepted_times].
  destruct (step_frame ev s Hwf) as (_ & _ & _ & _ & Ht & _ & Hl).
  specialize (IH _ (step_wf ev s Hwf)). rewrite Ht, Hl in IH.
  destruct ev as [rid kind tok cr sr|text now| |tok|res|ft|tok1 res1 tok2 res2];
    try exact IH.
  unfold accepted_at in *. destruct (accepts s now) eqn:Hacc; [|exact IH].
  split; [|exact IH].
  unfold accepts in Hacc. apply andb_prop in Hacc as [_ Hacc].
  apply negb_true_iff, Z.ltb_ge in Hacc. lia.
Qed.

Lemma accepted_updates_are_spaced_witness :
  spaced 100 0 (accepted_times throttled_pair active_session).
Proof.
  exact (accepted_updates_are_spaced active_session throttled_pair active_session_reachable).
Defined.

(** *** The requests of one step *)

Lemma wf_unstarted (s : Session) :
  wf_session s -> state s = None -> running s = None /\ closing s = None.
Proof.
  intros [Hm Hc Hb Hcl Hr] Hst. split.
  - destruct (running s) as [[t ph]|] eqn:Hrun; [|reflexivity].
    destruct (Hr _ _ eq_refl) as (cs & Hcs & _). congruence.
  - destruct (closing s) as [ft|] eqn:Hclo; [|reflexivity].
    destruct (Hcl ltac:(congruence)) as [_ [cs Hcs]]. congruence.
Qed.

(** Before [start] has succeeded, the other methods and resumptions do
    nothing to the outside and leave the session unstarted. *)
Lemma step_unstarted (ev : Event) (s : Session) :
  wf_session s -> state s = None -> is_start ev = false ->
  (step ev s).2 = [] /\ state (step ev s).1.2 = None
  /\ closed (step ev s).1.2 = closed s /\ errorCount (step ev s).1.2 = errorCount s.
Proof.
  intros Hwf Hst Hev. destruct (wf_unstarted s Hwf Hst) as [Hrun0 Hclo0].
  assert (not_usable s = true) as Hnu by (unfold not_usable; rewrite Hst; reflexivity).
  destruct ev as [rid kind tok cr sr|text now| |tok|res|ft|tok1 res1 tok2 res2];
    try discriminate; cbn [step].
  - rewrite update_eq, Hnu. simpl. auto.
  - rewrite unit_start_eq, Hrun0, Hnu. simpl. destruct (queue s); simpl; auto.
  - rewrite unit_token_eq, Hrun0. simpl. auto.
  - rewrite unit_response_eq, Hrun0. simpl. auto.
  - rewrite close_eq, Hnu. simpl. auto.
  - rewrite close_drained_idle by auto. simpl. auto.
Qed.

(** The requests a step makes on a started session. *)
Lemma step_requests (ev : Event) (s : Session) :
  wf_session s -> is_Some (state s) ->
  requests (step ev s).2 =
  match ev with
  | EUnitToken (Ok _) =>
      match running s, state s with
      | Some (text, AwaitToken), Some cs =>
          [PutContent ByUpdate (apiBase s) (cardId cs) text (sequence cs)]
      | _, _ => []
      end
  | ECloseDrained tok1 res1 tok2 res2 =>
      match closing s, running s, queue s, state s with
      | Some ft, None, [], Some cs =>
          (if flushes (final_text ft s cs) cs && is_ok tok1
           then [PutContent ByClose (apiBase s) (cardId cs) (final_text ft s cs)
                   (sequence cs + 1)]
           else [])
          ++ (if is_ok tok2
              then [PatchSettings (apiBase s) (cardId cs) (final_text ft s cs)
                      (sequence cs + (if flushes (final_text ft s cs) cs then 2 else 1))]
              else [])
      | _, _, _, _ => []
      end
  | _ => []
  end.
Proof.
  intros Hwf Hsome. by_step ev s Hwf.
  - now rewrite start_started.
  - reflexivity.
  - reflexivity.
  - destruct (running s) as [[text [|]]|] eqn:Hrun;
      try (destruct tok; reflexivity).
    destruct tok as [t|e]; [destruct (state s) as [cs|]|]; simpl;
      rewrite ?requests_error_effects; reflexivity.
  - destruct (running s) as [[text [|]]|]; try reflexivity.
    destruct res as [r|e]; [destruct (ok r)|]; simpl;
      rewrite ?requests_error_effects; reflexivity.
  - reflexivity.
  - reflexivity.
  - rewrite Hcs0. cbn [snd].
    exact (proj1 (closed_down_requests ft cs0 tok1 res1 tok2 res2 s Hcs0)).
  - reflexivity.
  - reflexivity.
Qed.

Lemma request_seqs_requests (o : list Effect) : request_seqs o = request_seqs (requests o).
Proof.
  induction o as [|e o IH]; [reflexivity|].
  destruct e; unfold request_seqs, requests in *; cbn;
    first [exact IH | f_equal; exact IH].
Qed.

Lemma request_seqs_app (o1 o2 : list Effect) :
  request_seqs (o1 ++ o2) = request_seqs o1 ++ request_seqs o2.
Proof. unfold request_seqs. apply omap_app. Qed.

(** The card behind a started session after one step: the same card
    and message, a sequence value that has not gone down; the requests of
    the step go to that card and carry sequence values that go up, from
    above the value reached before to the value reached after. *)
Lemma step_card (ev : Event) (s : Session) (cs : CardState) :
  wf_session s -> state s = Some cs ->
  exists cs',
    state (step ev s).1.2 = Some cs'
    /\ cardId cs' = cardId cs /\ messageId cs' = messageId cs
    /\ sequence cs <= sequence cs'
    /\ forallb (on_card (apiBase s) (cardId cs)) (requests (step ev s).2) = true
    /\ increasing_from (base s) (request_seqs (step ev s).2)
    /\ Forall (fun q => q <= base (step ev s).1.2) (request_seqs (step ev s).2)
    /\ base s <= base (step ev s).1.2.
Proof.
  intros Hwf Hst.
  rewrite request_seqs_requests, (step_requests ev s Hwf ltac:(rewrite Hst; eauto)).
  by_step ev s Hwf.
  - rewrite start_started by (rewrite Hst; eauto). exists cs. simpl.
    repeat apply conj; auto; lia.
  - exists cs. unfold base. simpl.
    destruct (not_usable s); [|destruct (_ <? _)]; simpl; rewrite Hst;
      repeat apply conj; auto; lia.
  - unfold base. simpl.
    destruct (running s) as [[t ph]|] eqn:Hrun;
      [exists cs; rewrite Hst, Hrun; repeat apply conj; auto; lia|].
    destruct (queue s) as [|text rest];
      [exists cs; rewrite Hst, Hrun; repeat apply conj; auto; lia|].
    destruct (not_usable s); simpl; rewrite Hst; simpl.
    + exists cs. rewrite Hrun. repeat apply conj; auto; lia.
    + eexists. split; [reflexivity|]. simpl. repeat apply conj; auto; lia.
  - unfold base.
    destruct (running s) as [[text [|]]|] eqn:Hrun;
      try (exists cs; destruct tok; simpl; rewrite Hst, Hrun;
           repeat apply conj; auto; lia).
    destruct tok as [t|e]; rewrite Hst; simpl; rewrite ?state_after_error, Hst; simpl.
    + exists cs. rewrite !String.eqb_refl. simpl.
      repeat apply conj; auto; try lia. constructor; [lia|constructor].
    + exists cs. repeat apply conj; auto; lia.
  - unfold base.
    destruct (running s) as [[text [|]]|] eqn:Hrun;
      try (exists cs; simpl; rewrite Hst, Hrun; repeat apply conj; auto; lia).
    destruct res as [r|e]; [destruct (ok r)|]; simpl;
      rewrite ?state_after_error, Hst; exists cs; repeat apply conj; auto; lia.
  - exists cs. unfold base. simpl.
    destruct (not_usable s); simpl; rewrite Hst; repeat apply conj; auto; lia.
  - exists cs. unfold base. simpl. rewrite Hst. repeat apply conj; auto; lia.
  - assert (cs0 = cs) as -> by congruence. rewrite Hst. cbn [fst snd].
    destruct (closed_down_requests ft cs tok1 res1 tok2 res2 s Hst) as [_ Hstate].
    destruct (closed_down_session ft cs tok1 res1 tok2 res2 s Hst Hclosed)
      as (_ & _ & Hrun' & _).
    cbv zeta in Hstate. unfold base. rewrite Hstate, Hrun', Hrun, Hst.
    eexists. split; [reflexivity|]. simpl.
    destruct (flushes (final_text ft s cs) cs), (is_ok tok1), (is_ok tok2); simpl;
      rewrite ?String.eqb_refl; simpl;
      repeat apply conj; auto; try lia;
      repeat (constructor; try lia).
  - exists cs. unfold base. simpl. rewrite Hst. repeat apply conj; auto; lia.
  - exists cs. unfold base. simpl. rewrite Hst. repeat apply conj; auto; lia.
Qed.

(** *** One card, and sequence values that go up *)

Lemma increasing_app (z z' : Z) (l1 l2 : list Z) :
  increasing_from z l1 -> Forall (fun q => q <= z') l1 -> z <= z' ->
  increasing_from z' l2 -> increasing_from z (l1 ++ l2).
Proof.
  revert z. induction l1 as [|x r IH]; intros z H1 Hall Hz H2; simpl.
  - now apply (increasing_from_weaken z').
  - destruct H1 as [Hx Hr]. apply Forall_cons in Hall as [Hxz Hall].
    split; [exact Hx|]. now apply IH.
Qed.

Lemma increasing_lower (z : Z) (l : list Z) :
  increasing_from z l -> Forall (fun q => z < q) l.
Proof.
  revert z. induction l as [|x r IH]; intros z H; [constructor|].
  destruct H as [Hx Hr]. constructor; [exact Hx|].
  eapply Forall_impl; [exact (IH _ Hr)|]. simpl. intros q Hq. lia.
Qed.

Lemma increasing_NoDup (z : Z) (l : list Z) : increasing_from z l -> NoDup l.
Proof.
  revert z. induction l as [|x r IH]; intros z H; [constructor|].
  destruct H as [Hx Hr]. constructor; [|exact (IH _ Hr)].
  intros Hin. pose proof (increasing_lower _ _ Hr) as Hall.
  rewrite Forall_forall in Hall. specialize (Hall _ Hin). lia.
Qed.

Lemma forallb_app_true {A} (f : A -> bool) (l1 l2 : list A) :
  forallb f l1 = true -> forallb f l2 = true -> forallb f (l1 ++ l2) = true.
Proof. intros H1 H2. rewrite forallb_app, H1, H2. reflexivity. Qed.

Lemma run_card (evs : list Event) (s : Session) (cs : CardState) :
  wf_session s -> state s = Some cs ->
  exists cs',
    state (run evs s).1 = Some cs'
    /\ cardId cs' = cardId cs /\ messageId cs' = messageId cs
    /\ sequence cs <= sequence cs'
    /\ forallb (on_card (apiBase s) (cardId cs)) (requests (run evs s).2) = true
    /\ increasing_from (base s) (request_seqs (run evs s).2)
    /\ Forall (fun q => q <= base (run evs s).1) (request_seqs (run evs s).2)
    /\ base s <= base (run evs s).1.
Proof.
  revert s cs. induction evs as [|ev evs IH]; intros s cs Hwf Hst.
  - exists cs. simpl. repeat apply conj; auto; lia.
  - rewrite run_cons. cbn [fst snd].
    destruct (step_card ev s cs Hwf Hst)
      as (cs1 & Hst1 & Hc1 & Hm1 & Hq1 & Hon1 & Hinc1 & Hall1 & Hb1).
    destruct (IH _ cs1 (step_wf ev s Hwf) Hst1)
      as (cs2 & Hst2 & Hc2 & Hm2 & Hq2 & Hon2 & Hinc2 & Hall2 & Hb2).
    destruct (step_frame ev s Hwf) as (_ & Hcr & _).
    unfold apiBase in Hon2. rewrite Hcr, Hc1 in Hon2. fold (apiBase s) in Hon2.
    exists cs2. rewrite requests_app, request_seqs_app.
    repeat apply conj; try congruence; try lia.
    + now apply forallb_app_true.
    + now apply (increasing_app _ (base (step ev s).1.2)).
    + apply Forall_app. split; [|exact Hall2].
      eapply Forall_impl; [exact Hall1|]. simpl. intros q Hq. lia.
Qed.

(** On a started session with no [start] call in flight, the moves are
    the events: a [start] call returns at its guard, and no call waits
    for an answer. *)
Lemma move_started (m : Move) (s : Session) :
  is_Some (state s) ->
  move m (s, [])
  = match m with
    | MEvent ev => ((step ev s).1.1, ((step ev s).1.2, []), (step ev s).2)
    | _ => (Ok tt, (s, []), [])
    end.
Proof.
  intros Hs. destruct m as [ev|rid kind|i tok|i cr|i sr]; simpl; try reflexivity.
  - now destruct (step ev s) as [[r s'] o].
  - unfold start_enter. run_m. now rewrite bool_decide_eq_true_2.
Qed.

Lemma play_started (ms : list Move) (s : Session) :
  wf_session s -> is_Some (state s) ->
  play ms (s, []) = (((run (events ms) s).1, []), (run (events ms) s).2).
Proof.
  revert s. induction ms as [|m ms IH]; intros s Hwf Hs; [reflexivity|].
  cbn [play]. rewrite (move_started m s Hs).
  destruct m as [ev|rid kind|i tok|i cr|i sr];
    try (rewrite (IH s Hwf Hs); reflexivity).
  change (events (MEvent ev :: ms)) with (ev :: events ms). rewrite run_cons.
  destruct Hs as [cs Hcs].
  destruct (step_card ev s cs Hwf Hcs) as (cs' & Hcs' & _).
  rewrite (IH _ (step_wf ev s Hwf) ltac:(rewrite Hcs'; eauto)). reflexivity.
Qed.

(** A session that has started stays on its card.  On a started
    session whose [start] calls did not overlap and none of which is in
    flight, whatever is called and whatever the answers, [start] calls
    among them: no [start] call passes the guard any more, the card and
    the message are the same, the sequence value does not go down, no
    second card is created and no second message sent, and every request
    goes to that card at the same API base. *)
Theorem started_session_keeps_its_card (s : Session) (cs : CardState)
    (ms : list Move) :
  reachable s -> state s = Some cs ->
  let r := play ms (s, []) in
  r.1.2 = []
  /\ (exists cs', state r.1.1 = Some cs' /\ cardId cs' = cardId cs
                  /\ messageId cs' = messageId cs /\ sequence cs <= sequence cs')
  /\ forallb (on_card (apiBase s) (cardId cs)) (requests r.2) = true.
Proof.
  intros Hs Hst r. apply reachable_wf in Hs. subst r.
  rewrite (play_started ms s Hs ltac:(rewrite Hst; eauto)). cbn [fst snd].
  destruct (run_card (events ms) s cs Hs Hst) as (cs' & H1 & H2 & H3 & H4 & H5 & _).
  split; [reflexivity|]. split; [exists cs'; auto|exact H5].
Qed.

Lemma started_session_keeps_its_card_witness :
  forallb (on_card FEISHU_API_BASE "card_1")
    (requests (play (MStartCall "oc_2" None :: MEvent start_ok
                       :: map MEvent (interleaved_updates
                            ++ close_run (Some "bye") a_token ok_response a_token ok_response))
                 (active_session, [])).2) = true.
Proof.
  exact (proj2 (proj2 (started_session_keeps_its_card active_session
                  (mkCardState "card_1" "om_1" 1 "")
                  (MStartCall "oc_2" None :: MEvent start_ok
                     :: map MEvent (interleaved_updates
                          ++ close_run (Some "bye") a_token ok_response a_token ok_response))
                  active_session_reachable eq_refl))).
Defined.

(** What [start] leaves: the session as it was, or the session started
    on a card whose sequence value is 1; the requests of [start] carry
    no sequence value. *)
Lemma start_result (s : Session) (receiveId : string) (kind : option ReceiveIdType)
    (tok : result string) (createRes : result CreateResponse)
    (sendRes : result SendResponse) :
  state s = None ->
  let r := start receiveId kind tok createRes sendRes s in
  request_seqs r.2 = []
  /\ (r.1.2 = s \/ exists c m, r.1.2 = set_state (Some (mkCardState c m 1 "")) s).
Proof.
  intros Hst. run_m. rewrite Hst. simpl.
  destruct tok as [t|e0]; simpl; [|auto].
  destruct createRes as [cd|e0]; simpl; [|auto].
  destruct (negb (cr_code cd =? 0) || negb (truthy (cr_card_id cd))); simpl; [auto|].
  destruct sendRes as [sd|e0]; simpl; [|auto].
  destruct (negb (sr_code sd =? 0) || negb (truthy (sr_message_id sd))); simpl; [auto|].
  destruct (log s); simpl; split; eauto.
Qed.

Lemma run_seqs (evs : list Event) (s : Session) :
  wf_session s -> increasing_from (base s) (request_seqs (run evs s).2).
Proof.
  revert s. induction evs as [|ev evs IH]; intros s Hwf; [exact I|].
  destruct (state s) as [cs|] eqn:Hst.
  { destruct (run_card (ev :: evs) s cs Hwf Hst) as (_ & _ & _ & _ & _ & _ & H & _).
    exact H. }
  rewrite run_cons. cbn [snd]. rewrite request_seqs_app.
  pose proof (IH _ (step_wf ev s Hwf)) as Hrest.
  destruct (wf_unstarted s Hwf Hst) as [Hrun _].
  assert (base s = 0) as Hbase by (unfold base; now rewrite Hst, Hrun).
  assert (request_seqs (step ev s).2 = [] /\ base s <= base (step ev s).1.2) as [-> Hle].
  { destruct (is_start ev) eqn:Hev.
    - destruct ev; try discriminate. cbn [step].
      destruct (start_result s receiveId receiveIdType tok createRes sendRes Hst)
        as [Hno [->|(c & m & ->)]]; (split; [exact Hno|]).
      + lia.
      + rewrite Hbase. unfold base. simpl. rewrite Hrun. lia.
    - destruct (step_unstarted ev s Hwf Hst Hev) as (-> & Hst' & _).
      split; [reflexivity|]. rewrite Hbase. unfold base. rewrite Hst'. simpl.
      destruct (wf_unstarted _ (step_wf ev s Hwf) Hst') as [Hr' _].
      rewrite Hr'. lia. }
  simpl. now apply (increasing_from_weaken (base (step ev s).1.2)).
Qed.

(** With [start] calls that overlap it is otherwise: each of two calls
    that passed the guard before either had started the session creates
    its card, and the one that ends last leaves its card in the session,
    with the sequence at 1 again. *)
Lemma overlapping_starts_replace_the_card :
  let before := (play overlapping_starts (fresh_session, [])).1 in
  let r := play [MStartCreated 0 (Ok (mkCreateResponse 0 "ok" (Some "card_2")));
                 MStartSent 0 (Ok (mkSendResponse 0 "ok" (Some "om_2")))] before in
  state before.1 = Some (mkCardState "card_1" "om_1" 1 "")
  /\ state r.1.1 = Some (mkCardState "card_2" "om_2" 1 "")
  /\ r.1.2 = [].
Proof. vm_compute. repeat apply conj; reflexivity. Qed.

(** No two requests of a started session carry the same sequence
    value, and so none the same [uuid]: on a started session whose
    [start] calls did not overlap and none of which is in flight, through
    updates, failures, [close] and further [start] calls, the sequence
    values of the requests made on the card go strictly up, in the order
    of the requests. *)
Theorem request_sequences_increase (s : Session) (ms : list Move) :
  reachable s -> is_Some (state s) ->
  increasing_from (base s) (request_seqs (play ms (s, [])).2)
  /\ NoDup (request_seqs (play ms (s, [])).2).
Proof.
  intros Hs Hst. apply reachable_wf in Hs.
  rewrite (play_started ms s Hs Hst). cbn [snd].
  pose proof (run_seqs (events ms) s Hs) as H. split; [exact H|].
  exact (increasing_NoDup _ _ H).
Qed.

Lemma request_sequences_increase_witness :
  NoDup (request_seqs
           (play (MStartCall "oc_2" None :: map MEvent (tl seven_failures))
              (active_session, [])).2).
Proof.
  exact (proj2 (request_sequences_increase active_session
                  (MStartCall "oc_2" None :: map MEvent (tl seven_failures))
                  active_session_reachable ltac:(vm_compute; eauto))).
Defined.

(** *** After the end *)

Lemma step_finished (ev : Event) (s : Session) :
  wf_session s -> is_Some (state s) ->
  closed s = true -> running s = None -> closing s = None ->
  (step ev s).2 = []
  /\ (step ev s).1.2 = set_queue (queue (step ev s).1.2) s
  /\ exists dropped, queue s = dropped ++ queue (step ev s).1.2.
Proof.
  intros Hwf Hsome Hclosed Hrun Hclo.
  assert (not_usable s = true) as Hnu by (now rewrite closed_not_usable).
  destruct ev as [rid kind tok cr sr|text now| |tok|res|ft|tok1 res1 tok2 res2];
    cbn [step].
  - rewrite start_started by assumption. simpl. rewrite set_queue_same.
    repeat split. now exists [].
  - rewrite update_eq, Hnu. simpl. rewrite set_queue_same. repeat split. now exists [].
  - rewrite unit_start_eq, Hrun. destruct (queue s) as [|text rest] eqn:Hq; simpl.
    + rewrite set_queue_same. repeat split. exists []. now rewrite Hq.
    + rewrite Hnu. simpl. repeat split. now exists [text].
  - rewrite unit_token_eq, Hrun. simpl. rewrite set_queue_same. repeat split. now exists [].
  - rewrite unit_response_eq, Hrun. simpl. rewrite set_queue_same. repeat split.
    now exists [].
  - rewrite close_eq, Hnu. simpl. rewrite set_queue_same. repeat split. now exists [].
  - rewrite close_drained_idle by auto. simpl. rewrite set_queue_same. repeat split.
    now exists [].
Qed.

Lemma run_finished (evs : list Event) (s : Session) :
  wf_session s -> is_Some (state s) ->
  closed s = true -> running s = None -> closing s = None ->
  (run evs s).2 = []
  /\ (run evs s).1 = set_queue (queue (run evs s).1) s
  /\ exists dropped, queue s = dropped ++ queue (run evs s).1.
Proof.
  revert s. induction evs as [|ev evs IH]; intros s Hwf Hsome Hclosed Hrun Hclo.
  - simpl. rewrite set_queue_same. repeat split. now exists [].
  - rewrite run_cons. cbn [fst snd].
    destruct (step_finished ev s Hwf Hsome Hclosed Hrun Hclo) as (Ho & Hs & d1 & Hd1).
    pose proof (step_wf ev s Hwf) as Hwf1.
    destruct (IH (step ev s).1.2 Hwf1) as (Ho2 & Hs2 & d2 & Hd2);
      try (rewrite Hs; simpl; assumption).
    rewrite Ho, Ho2. split; [reflexivity|]. split.
    + rewrite Hs2 at 1. rewrite Hs. reflexivity.
    + exists (d1 ++ d2). rewrite Hd1, Hd2 at 1. now rewrite app_assoc.
Qed.

(** A session that is closed has started. *)
Lemma step_closed_started (ev : Event) (s : Session) :
  wf_session s -> (closed s = true -> is_Some (state s)) ->
  closed (step ev s).1.2 = true -> is_Some (state (step ev s).1.2).
Proof.
  intros Hwf Hinv Hcl'. destruct (state s) as [cs|] eqn:Hst.
  - destruct (step_card ev s cs Hwf Hst) as (cs' & -> & _). eauto.
  - assert (closed s = false) as Hopen.
    { destruct (closed s); [|reflexivity]. destruct (Hinv eq_refl) as [? ?]. discriminate. }
    destruct (is_start ev) eqn:Hev.
    + destruct ev; try discriminate. cbn [step] in *.
      destruct (start_frame s receiveId receiveIdType tok createRes sendRes) as (Hc & _).
      congruence.
    + destruct (step_unstarted ev s Hwf Hst Hev) as (_ & _ & Hc & _). congruence.
Qed.

Lemma reachable_closed_started (s : Session) :
  reachable s -> closed s = true -> is_Some (state s).
Proof.
  intros (cl & cr & lg & er & th & evs & ->).
  assert (forall s0, wf_session s0 -> (closed s0 = true -> is_Some (state s0)) ->
            closed (run evs s0).1 = true -> is_Some (state (run evs s0).1)) as H.
  { induction evs as [|ev evs IH]; intros s0 Hwf Hinv; [exact Hinv|].
    rewrite run_cons. cbn [fst]. apply IH; [now apply step_wf|].
    now apply step_closed_started. }
  apply H; [apply wf_new_session|discriminate].
Qed.

(** Once a session is closed and has neither a request in flight nor a
    [close] waiting for the queue (after [close] has run to its end, or
    after the fifth failure of an update), nothing reaches the outside
    any more: [update], [close] and [start] make no request and call no
    callback, and the session keeps all its fields; the units still
    queued are dropped one by one.  A [close] call on a session that the
    failures have closed therefore sends no settings request. *)
Theorem closed_session_is_inert (s : Session) (evs : list Event) :
  reachable s -> closed s = true -> running s = None -> closing s = None ->
  (run evs s).2 = []
  /\ (run evs s).1 = set_queue (queue (run evs s).1) s
  /\ exists dropped, queue s = dropped ++ queue (run evs s).1.
Proof.
  intros Hs Hclosed Hrun Hclo.
  apply run_finished; auto using reachable_wf, reachable_closed_started.
Qed.

Lemma finished_session_reachable : reachable finished_session.
Proof.
  exists a_client, app_creds, true, true, None,
    (start_ok :: close_run (Some "bye") a_token ok_response a_token ok_response).
  reflexivity.
Qed.

Lemma closed_session_is_inert_witness :
  (run (start_ok :: update_round "late" 9000 ok_response
          ++ close_run (Some "again") a_token ok_response a_token ok_response)
     finished_session).2 = [].
Proof.
  exact (proj1 (closed_session_is_inert finished_session
                  (start_ok :: update_round "late" 9000 ok_response
                     ++ close_run (Some "again") a_token ok_response a_token ok_response)
                  finished_session_reachable eq_refl eq_refl eq_refl)).
Defined.

(** *** [close] runs once *)

Lemma step_closing (ev : Event) (s : Session) :
  wf_session s ->
  closing (step ev s).1.2 = closing s \/ closing (step ev s).1.2 = None
  \/ (closed s = false /\ exists ft, ev = EClose ft).
Proof.
  intros Hwf. by_step ev s Hwf.
  - destruct (start_state s rid kind tok cr sr) as [->|[_ [cs ->]]]; now left.
  - simpl. destruct (not_usable s); [|destruct (_ <? _)]; now left.
  - simpl. destruct (running s) as [[? ?]|]; [now left|].
    destruct (queue s); [now left|]. destruct (not_usable s); now left.
  - destruct (frame_after_error s) as (_ & _ & _ & Hcl' & _).
    destruct (running s) as [[text [|]]|]; try now left.
    destruct tok as [tk|e]; [destruct (state s)|]; simpl; now left.
  - destruct (frame_after_error s) as (_ & _ & _ & Hcl' & _).
    destruct (running s) as [[text [|]]|]; try now left.
    destruct res as [r|e]; [destruct (ok r)|]; simpl; now left.
  - simpl. destruct (not_usable s) eqn:Hnu; [now left|].
    right. right. apply not_usable_false in Hnu as [_ Hnu]. eauto.
  - now left.
  - right. left.
    exact (proj1 (closed_down_session ft cs0 tok1 res1 tok2 res2 s Hcs0 Hclosed)).
  - now left.
  - now left.
Qed.

Lemma step_over (ev : Event) (s : Session) :
  wf_session s -> closed s = true -> closing s = None ->
  closed (step ev s).1.2 = true /\ closing (step ev s).1.2 = None.
Proof.
  intros Hwf Hclosed Hclo. split; [now apply step_closed|].
  destruct (step_closing ev s Hwf) as [H|[H|[H _]]]; congruence.
Qed.

Lemma filter_none {A} (P : A -> bool) (l : list A) :
  (forall x, x ∈ l -> P x = false) -> List.filter P l = [].
Proof.
  induction l as [|x l IH]; intros H; [reflexivity|].
  cbn [List.filter]. rewrite (H x ltac:(left)). apply IH. intros y Hy. apply H. now right.
Qed.

Lemma filter_settings_requests (o : list Effect) :
  List.filter is_settings o = List.filter is_settings (requests o)
  /\ List.filter is_close_content o = List.filter is_close_content (requests o).
Proof.
  unfold requests. induction o as [|e o [IH1 IH2]]; [split; reflexivity|].
  destruct e as [| |[|] ? ? ? ?|? ? ? ?|m|m]; cbn; rewrite <- ?IH1, <- ?IH2;
    split; reflexivity.
Qed.

(** The settings request and the final content request are made by the
    resumption of a [close] that was waiting, at most one of each, and
    that [close] is over after it. *)
Lemma step_close_requests (ev : Event) (s : Session) :
  wf_session s ->
  let o := (step ev s).2 in
  (length (List.filter is_settings o) <= 1)%nat
  /\ (length (List.filter is_close_content o) <= 1)%nat
  /\ (List.filter is_settings o <> [] \/ List.filter is_close_content o <> [] ->
      closing s <> None
      /\ closed (step ev s).1.2 = true /\ closing (step ev s).1.2 = None).
Proof.
  intros Hwf o. subst o.
  destruct (state s) as [cs|] eqn:Hst.
  - destruct (filter_settings_requests (step ev s).2) as [-> ->].
    rewrite (step_requests ev s Hwf ltac:(rewrite Hst; eauto)).
    destruct ev as [rid kind tok cr sr|text now| |tok|res|ft|tok1 res1 tok2 res2];
      try (simpl; repeat apply conj; try lia; intros [H|H]; congruence).
    + destruct tok as [tk|e]; [|simpl; repeat apply conj; try lia; intros [H|H]; congruence].
      destruct (running s) as [[text [|]]|]; rewrite ?Hst;
        simpl; repeat apply conj; try lia; intros [H|H]; congruence.
    + pose proof Hwf as [Hm Hc Hb Hcl Hr].
      destruct (closing s) as [ft|] eqn:Hclo;
        [|simpl; repeat apply conj; try lia; intros [H|H]; congruence].
      destruct (running s) as [ru|] eqn:Hrun;
        [simpl; repeat apply conj; try lia; intros [H|H]; congruence|].
      destruct (queue s) as [|t q] eqn:Hq;
        [|simpl; repeat apply conj; try lia; intros [H|H]; congruence].
      destruct (Hcl ltac:(congruence)) as [Hclosed _]. rewrite Hst.
      split; [|split].
      * destruct (flushes _ cs && is_ok tok1), (is_ok tok2); simpl; lia.
      * destruct (flushes _ cs && is_ok tok1), (is_ok tok2); simpl; lia.
      * intros _. split; [discriminate|]. cbn [step].
        rewrite (close_drained_eq _ _ _ _ s ft cs) by assumption. cbn [fst snd].
        destruct (closed_down_session ft cs tok1 res1 tok2 res2 s Hst Hclosed)
          as (H1 & H2 & _). auto.
  - assert (forall e, e ∈ (step ev s).2 -> is_settings e = false /\ is_close_content e = false)
      as Hno.
    { intros e He. destruct (is_start ev) eqn:Hev.
      - destruct ev; try discriminate. cbn [step] in He.
        apply requests_start in He as [_ He]. destruct e as [| |[|] ? ? ? ?| | |]; tauto.
      - destruct (step_unstarted ev s Hwf Hst Hev) as (Ho & _). rewrite Ho in He.
        inversion He. }
    rewrite !filter_none by (intros e He; now apply Hno).
    simpl. repeat apply conj; try lia. intros [H|H]; congruence.
Qed.

Lemma run_close_once (evs : list Event) (s : Session) :
  wf_session s ->
  let o := (run evs s).2 in
  (length (List.filter is_settings o) <= 1)%nat
  /\ (length (List.filter is_close_content o) <= 1)%nat
  /\ (closed s = true -> closing s = None ->
      List.filter is_settings o = [] /\ List.filter is_close_content o = []).
Proof.
  revert s. induction evs as [|ev evs IH]; intros s Hwf; cbv zeta.
  - simpl. repeat apply conj; auto.
  - rewrite run_cons. cbn [snd]. rewrite !List.filter_app, !length_app.
    destruct (step_close_requests ev s Hwf) as (H1 & H2 & Hdone).
    destruct (IH _ (step_wf ev s Hwf)) as (G1 & G2 & Gover).
    assert (closed s = true -> closing s = None ->
            List.filter is_settings (step ev s).2 = []
            /\ List.filter is_close_content (step ev s).2 = []) as Hover.
    { intros Hc Hcl.
      destruct (List.filter is_settings (step ev s).2) eqn:E1;
        [destruct (List.filter is_close_content (step ev s).2) eqn:E2; [auto|]|].
      - destruct Hdone as [Hd _]; [right; discriminate|congruence].
      - destruct Hdone as [Hd _]; [left; discriminate|congruence]. }
    split; [|split].
    + destruct (List.filter is_settings (step ev s).2) eqn:E1; [simpl; lia|].
      destruct Hdone as (_ & Hc & Hcl); [left; discriminate|].
      destruct (Gover Hc Hcl) as [-> _]. simpl in *. lia.
    + destruct (List.filter is_close_content (step ev s).2) eqn:E2; [simpl; lia|].
      destruct Hdone as (_ & Hc & Hcl); [right; discriminate|].
      destruct (Gover Hc Hcl) as [_ ->]. simpl in *. lia.
    + intros Hc Hcl. destruct (Hover Hc Hcl) as [-> ->].
      destruct (step_over ev s Hwf Hc Hcl) as [Hc' Hcl'].
      destruct (Gover Hc' Hcl') as [-> ->]. auto.
Qed.

(** [close] runs once: however often [close] is called, and whatever
    else is called before, between and after, a session sends at most one
    settings request (the one that ends the streaming mode) and at most
    one final content request. *)
Theorem close_requests_at_most_once (s : Session) (evs : list Event) :
  reachable s ->
  (length (List.filter is_settings (run evs s).2) <= 1)%nat
  /\ (length (List.filter is_close_content (run evs s).2) <= 1)%nat.
Proof.
  intros Hs. apply reachable_wf in Hs.
  destruct (run_close_once evs s Hs) as (H1 & H2 & _). auto.
Qed.

Lemma close_requests_at_most_once_witness :
  (length (List.filter is_settings
             (run (close_run (Some "bye") a_token ok_response a_token ok_response
                   ++ close_run (Some "again") a_token ok_response a_token ok_response)
                served_session).2) <= 1)%nat.
Proof.
  exact (proj1 (close_requests_at_most_once served_session
                  (close_run (Some "bye") a_token ok_response a_token ok_response
                   ++ close_run (Some "again") a_token ok_response a_token ok_response)
                  served_session_reachable)).
Defined.

(** *** The error counter *)

Lemma reports_error_effects (context : string) (e : JsError) (s : Session) :
  length (List.filter is_error_report (error_effects context e s))
  = (if error s then 1 else 0)%nat
  /\ length (List.filter is_error_log (error_effects context e s))
     = (if log s then 1 else 0)%nat.
Proof.
  unfold error_effects. destruct (log s), (error s), (_ >=? _); split; reflexivity.
Qed.

Lemma closed_down_reports (finalText : option string) (cs : CardState)
    (tok1 : result string) (res1 : result Response)
    (tok2 : result string) (res2 : result Response) (s : Session) :
  let n := ((if flushes (final_text finalText s cs) cs
             then match attempt_error tok1 res1 with Some _ => 1 | None => 0 end
             else 0)
            + match attempt_error tok2 res2 with Some _ => 1 | None => 0 end)%nat in
  let d := closed_down finalText cs tok1 res1 tok2 res2 s in
  length (List.filter is_error_report d.2) = (if error s then n else 0)%nat
  /\ length (List.filter is_error_log d.2) = (if log s then n else 0)%nat.
Proof.
  destruct s as [cl cr st cld lg er lut pt thr ec mx q ru clo].
  unfold closed_down, settle, error_effects, after_error, final_text.
  cbn -[flushes attempt_error Z.geb Z.add].
  destruct (flushes _ cs);
    destruct (attempt_error tok1 res1), (attempt_error tok2 res2);
    destruct (is_ok tok1), (is_ok tok2), lg, er;
    cbn -[Z.geb Z.add];
    repeat match goal with
           | |- context [?a >=? ?b] => destruct (a >=? b); cbn -[Z.geb Z.add]
           end;
    split; reflexivity.
Qed.

(** One step reports each of its failures once to the [error] callback
    and once to the [log] callback, when the callback was given, and
    reports nothing else as an error. *)
Lemma step_reports (ev : Event) (s : Session) :
  wf_session s ->
  length (List.filter is_error_report (step ev s).2)
  = (if error s then length (failures ev s) else 0)%nat
  /\ length (List.filter is_error_log (step ev s).2)
     = (if log s then length (failures ev s) else 0)%nat.
Proof.
  intros Hwf. by_step ev s Hwf.
  - rewrite !filter_none.
    + simpl. now destruct (error s), (log s).
    + intros e He. apply requests_start in He as [_ He].
      destruct e as [| | | |[]|[]]; tauto.
    + intros e He. apply requests_start in He as [_ He].
      destruct e as [| | | |[]|[]]; tauto.
  - simpl. now destruct (error s), (log s).
  - simpl. now destruct (error s), (log s).
  - unfold failures.
    destruct (running s) as [[text [|]]|] eqn:Hrun;
      try (simpl; now destruct (error s), (log s)).
    destruct (Hr _ _ eq_refl) as (cs & Hcs & _). rewrite Hcs.
    destruct tok as [tk|e]; cbn [snd].
    + simpl. now destruct (error s), (log s).
    + destruct (reports_error_effects "update" e s) as [-> ->].
      now destruct (error s), (log s).
  - unfold failures.
    destruct (running s) as [[text [|]]|] eqn:Hrun;
      try (simpl; now destruct (error s), (log s)).
    destruct res as [r|e]; [destruct (ok r)|]; cbn [snd].
    + simpl. now destruct (error s), (log s).
    + match goal with |- context [error_effects ?c ?e s] =>
        destruct (reports_error_effects c e s) as [-> ->] end.
      now destruct (error s), (log s).
    + destruct (reports_error_effects "update" e s) as [-> ->].
      now destruct (error s), (log s).
  - simpl. now destruct (error s), (log s).
  - simpl. rewrite Hclo, Hrun. now destruct (error s), (log s).
  - cbn [snd]. unfold failures. rewrite Hclo, Hrun, Hq, Hcs0.
    destruct (closed_down_reports ft cs0 tok1 res1 tok2 res2 s) as [-> ->].
    rewrite length_app.
    destruct (flushes _ cs0), (attempt_error tok1 res1), (attempt_error tok2 res2);
      split; reflexivity.
  - simpl. rewrite Hclo, Hrun, Hq. now destruct (error s), (log s).
  - simpl. rewrite Hclo. now destruct (error s), (log s).
Qed.

Lemma step_errorCount (ev : Event) (s : Session) :
  wf_session s ->
  errorCount (step ev s).1.2 = errorCount s + Z.of_nat (length (failures ev s)).
Proof.
  intros Hwf. destruct (is_start ev) eqn:Hev.
  - destruct ev; try discriminate. cbn [step].
    destruct (start_frame s receiveId receiveIdType tok createRes sendRes)
      as (_ & _ & -> & _). simpl. lia.
  - exact (proj1 (proj2 (step_contained ev s Hwf Hev))).
Qed.

Lemma run_reports (evs : list Event) (s : Session) :
  wf_session s ->
  (error s = true ->
   errorCount (run evs s).1
   = errorCount s + Z.of_nat (length (List.filter is_error_report (run evs s).2)))
  /\ (log s = true ->
      errorCount (run evs s).1
      = errorCount s + Z.of_nat (length (List.filter is_error_log (run evs s).2))).
Proof.
  revert s. induction evs as [|ev evs IH]; intros s Hwf.
  - simpl. split; intros _; lia.
  - rewrite run_cons. cbn [fst snd]. rewrite !List.filter_app, !length_app.
    destruct (IH _ (step_wf ev s Hwf)) as [IHe IHl].
    destruct (step_frame ev s Hwf) as (_ & _ & Hlg & Her & _).
    destruct (step_reports ev s Hwf) as [Re Rl].
    pose proof (step_errorCount ev s Hwf) as Hcount.
    rewrite Her in IHe. rewrite Hlg in IHl. split; intros H.
    + rewrite (IHe H), Hcount, Re, H. lia.
    + rewrite (IHl H), Hcount, Rl, H. lia.
Qed.

(** [getErrorCount()] is the number of errors reported: on a session
    built with an [error] callback, the counter is the number of calls of
    the callback that report the error of a request (the notice of the
    circuit breaker apart); with a [log] callback it is the number of
    errors logged. *)
Theorem error_count_is_number_of_reports (client : ClientCache.LarkClient)
    (creds : Credentials) (log error : bool) (throttle : option Z) (evs : list Event) :
  let r := run evs (new_session client creds log error throttle) in
  (error = true ->
   getErrorCount r.1 = Z.of_nat (length (List.filter is_error_report r.2)))
  /\ (log = true ->
      getErrorCount r.1 = Z.of_nat (length (List.filter is_error_log r.2))).
Proof.
  intros r. subst r.
  destruct (run_reports evs _ (wf_new_session client creds log error throttle))
    as [He Hl].
  unfold getErrorCount. split; intros H; [rewrite He|rewrite Hl]; auto.
Qed.

Lemma error_count_is_number_of_reports_witness :
  getErrorCount (run seven_failures fresh_session).1
  = Z.of_nat (length (List.filter is_error_report (run seven_failures fresh_session).2)).
Proof.
  exact (proj1 (error_count_is_number_of_reports a_client app_creds true true None
                  seven_failures) eq_refl).
Defined.

Lemma budget_open (s : Session) :
  wf_session s -> closed s = false -> errorCount s <= 4 /\ closing s = None.
Proof.
  intros [Hm Hc Hb Hcl Hr] Hopen. split.
  - destruct (Z.le_gt_cases (maxErrors s) (errorCount s)) as [H|H]; [|lia].
    destruct (Hb H) as [? _]. congruence.
  - destruct (closing s) eqn:E; [|reflexivity].
    destruct (Hcl ltac:(congruence)) as [? _]. congruence.
Qed.

Lemma step_budget (ev : Event) (s : Session) :
  wf_session s -> error_budget s <= 7 -> error_budget (step ev s).1.2 <= 7.
Proof.
  intros Hwf Hbud. unfold error_budget in *.
  assert (closed s = false -> errorCount s <= 4 /\ closing s = None) as Hopen
    by (now apply budget_open).
  by_step ev s Hwf.
  - destruct (start_state s rid kind tok cr sr) as [->|[_ [cs ->]]]; exact Hbud.
  - simpl. destruct (not_usable s); [|destruct (_ <? _)]; exact Hbud.
  - simpl. destruct (running s) as [[? ?]|] eqn:Hrun; [now rewrite Hrun|].
    destruct (queue s); [now rewrite Hrun|].
    destruct (not_usable s) eqn:Hnu; simpl; [now rewrite Hrun|].
    apply not_usable_false in Hnu as [_ Hnu]. rewrite Hnu in *. exact Hbud.
  - destruct (frame_after_error s) as (_ & _ & _ & Hcl' & _).
    pose proof (errorCount_after_error s) as Hec.
    pose proof (closed_after_error s) as Hca.
    destruct (running s) as [[text [|]]|] eqn:Hrun;
      try (simpl; rewrite Hrun; exact Hbud).
    assert (errorCount (after_error s)
            + (if closed (after_error s)
               then 0 + match closing s with Some _ => 2 | None => 0 end
               else 3) <= 7) as Herr.
    { rewrite Hec, Hca. destruct (closed s) eqn:Hcs; simpl; [lia|].
      destruct (Hopen eq_refl) as [H4 ->].
      destruct (Z.leb_spec (maxErrors s) (errorCount s + 1)); lia. }
    destruct tok as [tk|e]; [destruct (state s)|]; simpl; rewrite ?Hcl'; auto.
  - destruct (frame_after_error s) as (_ & _ & _ & Hcl' & _).
    pose proof (errorCount_after_error s) as Hec.
    pose proof (closed_after_error s) as Hca.
    destruct (running s) as [[text [|]]|] eqn:Hrun;
      try (simpl; rewrite Hrun; exact Hbud).
    assert (errorCount (after_error s)
            + (if closed (after_error s)
               then 0 + match closing s with Some _ => 2 | None => 0 end
               else 3) <= 7) as Herr.
    { rewrite Hec, Hca. destruct (closed s) eqn:Hcs; simpl; [lia|].
      destruct (Hopen eq_refl) as [H4 ->].
      destruct (Z.leb_spec (maxErrors s) (errorCount s + 1)); lia. }
    destruct res as [r|e]; [destruct (ok r)|]; simpl; rewrite ?Hcl'; auto.
    destruct (closed s), (closing s); lia.
  - simpl. destruct (not_usable s) eqn:Hnu; [exact Hbud|]. simpl.
    apply not_usable_false in Hnu as [_ Hnu].
    destruct (Hopen Hnu) as [H4 _]. destruct (running s); lia.
  - simpl. rewrite Hclo, Hrun. exact Hbud.
  - cbn [fst snd].
    destruct (closed_down_session ft cs0 tok1 res1 tok2 res2 s Hcs0 Hclosed)
      as (-> & -> & -> & _ & _ & _ & _ & _ & _ & _ & _ & _ & ->).
    rewrite Hclosed in Hbud. cbv zeta. rewrite Hrun.
    destruct (flushes _ cs0), (attempt_error tok1 res1), (attempt_error tok2 res2);
      simpl; lia.
  - simpl. rewrite Hclo, Hrun. exact Hbud.
  - simpl. rewrite Hclo. exact Hbud.
Qed.

(** The error counter goes past [maxErrors], but never past 7: once
    the session is closed, by [close] or by the fifth failure, only the
    request in flight and the two requests of a [close] that was already
    called can still fail. *)
Theorem error_count_at_most_seven (s : Session) :
  reachable s -> 0 <= getErrorCount s <= 7.
Proof.
  intros Hs. pose proof (reachable_wf s Hs) as Hwf.
  split; [apply Hwf|].
  assert (error_budget s <= 7) as Hbud.
  { clear Hwf. destruct Hs as (cl & cr & lg & er & th & evs & ->).
    assert (forall s0, wf_session s0 -> error_budget s0 <= 7 ->
              error_budget (run evs s0).1 <= 7) as H.
    { induction evs as [|ev evs IH]; intros s0 Hwf0 Hb0; [exact Hb0|].
      rewrite run_cons. cbn [fst]. apply IH; [now apply step_wf|now apply step_budget]. }
    apply H; [apply wf_new_session|]. unfold error_budget. simpl. lia. }
  unfold error_budget in Hbud. unfold getErrorCount.
  destruct (closed s), (running s), (closing s); lia.
Qed.

Lemma error_count_at_most_seven_witness :
  getErrorCount (run seven_failures fresh_session).1 = 7
  /\ 0 <= getErrorCount (run seven_failures fresh_session).1 <= 7.
Proof.
  split; [reflexivity|].
  apply error_count_at_most_seven.
  exists a_client, app_creds, true, true, None, seven_failures. reflexivity.
Defined.

End SessionMore.

(** ** Summaries and names, character by character *)

Module JsStringFacts.
Import JsString.
Local Open Scope N_scope.

Lemma trim_start_suffix (s : str) : exists spaces, s = spaces ++ trim_start s.
Proof.
  induction s as [|c r [sp IH]]; [now exists []|]. simpl.
  destruct (is_space c); [|now exists []].
  exists (c :: sp). simpl. now rewrite <- IH.
Qed.

Lemma Forall_trim_start (P : N -> Prop) (s : str) : Forall P s -> Forall P (trim_start s).
Proof.
  intros H. destruct (trim_start_suffix s) as [sp E]. rewrite E in H.
  now apply Forall_app in H as [_ H].
Qed.

Lemma length_trim_start (s : str) : (length (trim_start s) <= length s)%nat.
Proof.
  destruct (trim_start_suffix s) as [sp E]. rewrite E at 2. rewrite length_app. lia.
Qed.

Lemma Forall_trim (P : N -> Prop) (s : str) : Forall P s -> Forall P (trim s).
Proof.
  intros H. unfold trim. apply Forall_rev, Forall_trim_start, Forall_rev.
  now apply Forall_trim_start.
Qed.

Lemma length_trim (s : str) : (length (trim s) <= length s)%nat.
Proof.
  unfold trim. rewrite length_rev.
  etransitivity; [apply length_trim_start|]. rewrite length_rev. apply length_trim_start.
Qed.

Lemma trim_start_head (s : str) :
  match trim_start s with c :: _ => is_space c = false | [] => True end.
Proof.
  induction s as [|c r IH]; [exact I|]. simpl.
  destruct (is_space c) eqn:E; [exact IH|exact E].
Qed.

Lemma slice0_take (e : Z) (s : str) :
  (0 <= e)%Z -> slice0 e s = take (Z.to_nat e) s.
Proof.
  intros He. unfold slice0.
  destruct (Z.ltb_spec e 0) as [|_]; [lia|].
  destruct (Z.le_gt_cases e (Z.of_nat (length s))) as [H|H].
  - now rewrite Z.min_l.
  - rewrite Z.min_r by lia. rewrite Nat2Z.id.
    rewrite !take_ge; [reflexivity|lia|lia].
Qed.

Lemma length_slice0 (e : Z) (s : str) :
  (0 <= e)%Z -> length (slice0 e s) = Nat.min (Z.to_nat e) (length s).
Proof. intros He. rewrite slice0_take by assumption. apply length_take. Qed.

Lemma Forall_slice0 (P : N -> Prop) (e : Z) (s : str) : Forall P s -> Forall P (slice0 e s).
Proof. intros H. unfold slice0. now apply Forall_take. Qed.

(** The summary of the final card fits: for a limit of 3 or more it has
    at most [max] characters and holds no line feed; it is the text with
    its line feeds turned into spaces and its ends trimmed when that has
    at most [max] characters, and otherwise the first [max - 3]
    characters of that followed by three dots, [max] characters in
    all. *)
Theorem truncateSummary_fits (text : str) (max : Z) :
  (3 <= max)%Z ->
  let clean := trim (map (fun c => if c =? 10 then 32 else c) text) in
  (Z.of_nat (length (truncateSummary text max)) <= max)%Z
  /\ (10 ∉ truncateSummary text max)
  /\ ((Z.of_nat (length clean) <= max)%Z -> truncateSummary text max = clean)
  /\ ((max < Z.of_nat (length clean))%Z ->
      truncateSummary text max = take (Z.to_nat (max - 3)) clean ++ lit "..."
      /\ Z.of_nat (length (truncateSummary text max)) = max).
Proof.
  intros Hmax clean.
  assert (Forall (fun c => c <> 10) clean) as Hclean.
  { subst clean. apply Forall_trim. apply Forall_forall. intros c Hc.
    apply list_elem_of_fmap in Hc as (c0 & -> & _).
    destruct (N.eqb_spec c0 10); [discriminate|assumption]. }
  assert (text = [] -> clean = []) as Hnil by (intros ->; reflexivity).
  assert (truncateSummary text max
          = if (Z.of_nat (length clean) <=? max)%Z then clean
            else slice0 (max - 3) clean ++ lit "...") as E.
  { unfold truncateSummary. destruct text as [|c t]; [|reflexivity].
    rewrite (Hnil eq_refl). cbn [length]. change (Z.of_nat 0) with 0%Z.
    destruct (Z.leb_spec 0 max); [reflexivity|lia]. }
  rewrite E. destruct (Z.leb_spec (Z.of_nat (length clean)) max) as [Hfit|Hcut].
  - split; [exact Hfit|]. split.
    + intros Hin. rewrite Forall_forall in Hclean. now apply (Hclean 10).
    + split; [reflexivity|lia].
  - assert (length (slice0 (max - 3) clean ++ lit "...") = Z.to_nat max) as Hlen.
    { rewrite length_app, length_slice0 by lia. simpl. lia. }
    split; [lia|]. split.
    + intros Hin. apply elem_of_app in Hin as [Hin|Hin].
      * pose proof (Forall_slice0 _ (max - 3) clean Hclean) as Hs.
        rewrite Forall_forall in Hs. now apply (Hs 10).
      * vm_compute in Hin.
        repeat (apply elem_of_cons in Hin as [Hin|Hin]; [discriminate|]).
        inversion Hin.
    + split; [lia|]. intros _. split; [|lia].
      now rewrite slice0_take by lia.
Qed.

Lemma truncateSummary_fits_witness :
  truncateSummary (lit "hello" ++ [10] ++ lit "world ") 8 = lit "hello...".
Proof.
  destruct (truncateSummary_fits (lit "hello" ++ [10] ++ lit "world ") 8 ltac:(lia))
    as (_ & _ & _ & Hcut).
  destruct Hcut as [-> _]; [vm_compute; reflexivity|reflexivity].
Defined.

End JsStringFacts.

(** ** Agents created on demand *)

Module DynamicAgentFacts.
Import JsString JsStringFacts DynamicAgent.
Local Open Scope N_scope.

(** *** Names made safe for a path *)

Lemma Forall_squeeze (P : N -> Prop) (p : N -> bool) (r : N) (f : bool) (s : str) :
  P r -> Forall P s -> Forall P (squeeze p r f s).
Proof.
  intros Hr H. revert f. induction H as [|c t Hc Ht IH]; intros f; simpl; [constructor|].
  destruct (p c); [destruct f|]; repeat constructor; auto.
Qed.

Lemma squeeze_clears (p : N -> bool) (r : N) (f : bool) (s : str) :
  p r = false -> Forall (fun c => p c = false) (squeeze p r f s).
Proof.
  intros Hr. revert f. induction s as [|c t IH]; intros f; simpl; [constructor|].
  destruct (p c) eqn:E; [destruct f|]; repeat constructor; auto.
Qed.

Lemma squeeze_none (p : N -> bool) (r : N) (f : bool) (s : str) :
  Forall (fun c => p c = false) s -> squeeze p r f s = s.
Proof.
  intros H. revert f. induction H as [|c t Hc Ht IH]; intros f; simpl; [reflexivity|].
  rewrite Hc. now rewrite IH.
Qed.

Lemma adjacent_cons (p : N -> bool) (a : N) (t : str) :
  adjacent p (a :: t)
  = match t with b :: _ => (p a && p b) || adjacent p t | [] => false end.
Proof. reflexivity. Qed.

(** After the runs of a class are squeezed into one character of the
    class, no two characters of the class are in a row. *)
Lemma squeeze_no_adjacent (p : N -> bool) (r : N) (s : str) :
  p r = true ->
  forall f,
    adjacent p (squeeze p r f s) = false
    /\ (f = true -> match squeeze p r f s with c :: _ => p c = false | [] => True end).
Proof.
  intros Hr. induction s as [|x t IH]; intros f;
    [split; [reflexivity|intros _; exact I]|].
  simpl. destruct (p x) eqn:E.
  - destruct (IH true) as [H1 H2]. specialize (H2 eq_refl). destruct f.
    + split; [exact H1|intros _; exact H2].
    + split; [|discriminate]. rewrite adjacent_cons.
      destruct (squeeze p r true t) as [|b t']; [reflexivity|].
      rewrite H2, H1. now rewrite andb_false_r.
  - destruct (IH false) as [H1 _]. split; [|intros _; exact E].
    rewrite adjacent_cons. destruct (squeeze p r false t) as [|b t']; [reflexivity|].
    rewrite E, H1. reflexivity.
Qed.

Lemma squeeze_fixed (p : N -> bool) (r : N) (s : str) :
  (forall c, p c = true -> c = r) -> adjacent p s = false ->
  forall f, (f = true -> match s with c :: _ => p c = false | [] => True end) ->
    squeeze p r f s = s.
Proof.
  intros Hp. induction s as [|x t IH]; intros Hadj f Hf; [reflexivity|].
  simpl. rewrite adjacent_cons in Hadj.
  assert (adjacent p t = false
          /\ (p x = true -> match t with b :: _ => p b = false | [] => True end))
    as [Ht Hnext].
  { destruct t as [|b t']; [split; [reflexivity|trivial]|].
    apply orb_false_iff in Hadj as [H1 H2]. split; [exact H2|].
    intros Hc. rewrite Hc in H1. exact H1. }
  destruct (p x) eqn:E.
  - destruct f; [specialize (Hf eq_refl); congruence|].
    rewrite (Hp x E). f_equal. apply IH; [exact Ht|]. intros _. now apply Hnext.
  - f_equal. apply IH; [exact Ht|discriminate].
Qed.

Lemma adjacent_take (p : N -> bool) (n : nat) (s : str) :
  adjacent p s = false -> adjacent p (take n s) = false.
Proof.
  revert n. induction s as [|a t IH]; intros n H; [now destruct n|].
  destruct n as [|n]; [reflexivity|]. cbn [take]. rewrite adjacent_cons in *.
  destruct t as [|b t']; [now destruct n|].
  apply orb_false_iff in H as [H1 H2].
  specialize (IH n H2). destruct n as [|n]; [reflexivity|].
  cbn [take] in *. now rewrite H1, IH.
Qed.

Lemma filter_all {A} (f : A -> bool) (l : list A) :
  Forall (fun x => f x = true) l -> List.filter f l = l.
Proof.
  induction 1 as [|x l Hx Hl IH]; [reflexivity|]. simpl. now rewrite Hx, IH.
Qed.

Lemma Forall_filter_true {A} (f : A -> bool) (l : list A) :
  Forall (fun x => f x = true) (List.filter f l).
Proof.
  induction l as [|x l IH]; [constructor|]. simpl.
  destruct (f x) eqn:E; [constructor; assumption|assumption].
Qed.

Lemma sanitize_parts (s : str) :
  (length (sanitizeForPath s) <= 50)%nat
  /\ Forall (fun c => unsafe_for_path c = false) (sanitizeForPath s)
  /\ Forall (fun c => is_space c = false) (sanitizeForPath s)
  /\ adjacent is_dot (sanitizeForPath s) = false.
Proof.
  unfold sanitizeForPath. rewrite slice0_take by lia.
  set (t1 := List.filter (fun c => negb (unsafe_for_path c)) s).
  assert (Forall (fun c => unsafe_for_path c = false) t1) as H1.
  { eapply Forall_impl; [apply Forall_filter_true|]. simpl. intros c Hc.
    now apply negb_true_iff. }
  repeat apply conj.
  - rewrite length_take. change (Z.to_nat 50) with 50%nat. lia.
  - apply Forall_take. apply Forall_squeeze; [reflexivity|].
    apply Forall_squeeze; [reflexivity|exact H1].
  - apply Forall_take. apply Forall_squeeze; [reflexivity|].
    now apply squeeze_clears.
  - apply adjacent_take. now apply squeeze_no_adjacent.
Qed.

Lemma unsafe_for_path_false (c : N) :
  unsafe_for_path c = false ->
  31 < c /\ (c ∉ [34; 42; 47; 58; 60; 62; 63; 92; 124]).
Proof.
  unfold unsafe_for_path. intros [H1 H2]%orb_false_iff.
  apply N.leb_gt in H1. split; [exact H1|].
  simpl in H2. rewrite !orb_false_iff in H2.
  destruct H2 as (A & B & C & D & E & F & G & H & I & _).
  apply N.eqb_neq in A, B, C, D, E, F, G, H, I.
  intros Hin. repeat (apply elem_of_cons in Hin as [Hin|Hin]; [congruence|]).
  inversion Hin.
Qed.

(** A sanitized name has at most 50 characters (UTF-16 code units);
    none of them is a control below U+0020, one of the nine characters
    double quote, star, slash, colon, less-than, greater-than, question
    mark, backslash and bar, or a white space; and it has no two dots in
    a row.  The controls from U+007F on are not in the class and
    stay. *)
Theorem sanitizeForPath_safe (s : str) :
  (length (sanitizeForPath s) <= 50)%nat
  /\ Forall (fun c => 31 < c /\ (c ∉ [34; 42; 47; 58; 60; 62; 63; 92; 124])
                      /\ is_space c = false) (sanitizeForPath s)
  /\ adjacent is_dot (sanitizeForPath s) = false
  /\ sanitizeForPath [127; 133; 159] = [127; 133; 159].
Proof.
  destruct (sanitize_parts s) as (H1 & H2 & H3 & H4).
  split; [exact H1|]. split; [|split; [exact H4|reflexivity]].
  rewrite Forall_forall in *. intros c Hc.
  destruct (unsafe_for_path_false c (H2 c Hc)) as [Ha Hb]. auto.
Qed.

(** Sanitizing twice changes nothing more. *)
Theorem sanitizeForPath_idempotent (s : str) :
  sanitizeForPath (sanitizeForPath s) = sanitizeForPath s.
Proof.
  destruct (sanitize_parts s) as (H1 & H2 & H3 & H4).
  set (t := sanitizeForPath s) in *. unfold sanitizeForPath at 1.
  rewrite filter_all
    by (eapply Forall_impl; [exact H2|]; simpl; intros c Hc; now rewrite Hc).
  unfold replace_runs. rewrite (squeeze_none is_space) by exact H3.
  rewrite (squeeze_fixed is_dot 46 t); [| |exact H4|discriminate].
  - rewrite slice0_take by lia. apply take_ge. change (Z.to_nat 50) with 50%nat. lia.
  - intros c Hc. now apply N.eqb_eq in Hc.
Qed.

(** *** The configuration after a call *)

Lemma str_eqb_refl (a : str) : str_eqb a a = true.
Proof. unfold str_eqb. now apply bool_decide_eq_true_2. Qed.

Lemma str_eqb_eq (a b : str) : str_eqb a b = true <-> a = b.
Proof. unfold str_eqb. apply bool_decide_eq_true. Qed.

Lemma startsWith_app (p x : str) : startsWith p (p ++ x) = true.
Proof.
  induction p as [|a p IH]; [reflexivity|]. simpl. now rewrite N.eqb_refl, IH.
Qed.

Lemma binds_new_binding (a k i : str) : binds k i (new_binding a k i) = true.
Proof. unfold binds, new_binding. simpl. now rewrite !str_eqb_refl. Qed.

Lemma bound_after (k i : str) (l : list Binding) (a : str) :
  existsb (binds k i) (l ++ [new_binding a k i]) = true.
Proof. rewrite existsb_app. simpl. rewrite binds_new_binding. now rewrite orb_true_r. Qed.

Lemma find_id (a : str) (l : list Agent) :
  match List.find (fun x => str_eqb (id x) a) l with
  | Some _ => a ∈ map id l
  | None => a ∉ map id l
  end.
Proof.
  induction l as [|x l IH]; simpl; [apply not_elem_of_nil|].
  destruct (str_eqb (id x) a) eqn:E.
  - apply str_eqb_eq in E. rewrite E. left.
  - destruct (List.find _ l).
    + now right.
    + intros [H|H]%elem_of_cons; [|contradiction].
      rewrite H, str_eqb_refl in E. discriminate.
Qed.

Lemma direct_outcome (env : Env) (cfg : OpenClawConfig) (senderOpenId : str)
    (senderName : option str) (dynamicCfg : DynamicAgentCreationConfig)
    (mkdir1 mkdir2 write : result unit) :
  outcome cfg (generateFriendlyAgentId senderOpenId senderName)
    (new_binding (generateFriendlyAgentId senderOpenId senderName) (lit "direct")
       senderOpenId)
    (existsb (binds (lit "direct") senderOpenId) (existing_bindings cfg))
    (length (feishu_agents cfg)) (maxAgents dynamicCfg) write
    (maybeCreateDynamicAgent env cfg senderOpenId senderName dynamicCfg
       mkdir1 mkdir2 write).
Proof.
  unfold maybeCreateDynamicAgent.
  destruct (existsb _ (existing_bindings cfg)) eqn:Hb; [now constructor|].
  cbv zeta.
  destruct (maxAgents dynamicCfg) as [m|] eqn:Hm.
  - destruct (Z.geb_spec (Z.of_nat (length (feishu_agents cfg))) m) as [Hge|Hlt].
    + apply (AtLimit _ _ _ _ _ _ _ m); auto.
    + pose proof (find_id (generateFriendlyAgentId senderOpenId senderName)
                    (agent_list cfg)) as Hf.
      destruct (List.find _ (agent_list cfg)).
      * apply BindingAdded; auto. intros m' [= <-]. lia.
      * apply AgentCreated; auto. intros m' [= <-]. lia.
  - pose proof (find_id (generateFriendlyAgentId senderOpenId senderName)
                  (agent_list cfg)) as Hf.
    destruct (List.find _ (agent_list cfg)).
    + apply BindingAdded; auto. discriminate.
    + apply AgentCreated; auto. discriminate.
Qed.

Lemma group_outcome (env : Env) (cfg : OpenClawConfig) (chatId senderOpenId : str)
    (groupCfg : GroupUserWorkspaceConfig) (mkdir1 mkdir2 write : result unit) :
  let m := default (lit "per-session") (mode groupCfg) in
  outcome cfg (group_agent_id m chatId senderOpenId)
    (new_binding (group_agent_id m chatId senderOpenId) (lit "group")
       (group_peer_id m chatId senderOpenId))
    (existsb (binds (lit "group") (group_peer_id m chatId senderOpenId))
       (existing_bindings cfg))
    (length (group_agents cfg)) (g_maxAgents groupCfg) write
    (maybeCreateGroupUserAgent env cfg chatId senderOpenId groupCfg mkdir1 mkdir2 write).
Proof.
  intros md. unfold maybeCreateGroupUserAgent. fold md. cbv zeta.
  destruct (existsb _ (existing_bindings cfg)) eqn:Hb; [now constructor|].
  destruct (g_maxAgents groupCfg) as [m|] eqn:Hm.
  - destruct (Z.geb_spec (Z.of_nat (length (group_agents cfg))) m) as [Hge|Hlt].
    + apply (AtLimit _ _ _ _ _ _ _ m); auto.
    + pose proof (find_id (group_agent_id md chatId senderOpenId) (agent_list cfg)) as Hf.
      destruct (List.find _ (agent_list cfg)).
      * apply BindingAdded; auto. intros m' [= <-]. lia.
      * apply AgentCreated; auto. intros m' [= <-]. lia.
  - pose proof (find_id (group_agent_id md chatId senderOpenId) (agent_list cfg)) as Hf.
    destruct (List.find _ (agent_list cfg)).
    + apply BindingAdded; auto. discriminate.
    + apply AgentCreated; auto. discriminate.
Qed.

(** A call that reports a creation has written the configuration it
    returns, in which the binding is added at the end and the agent is in
    the list, added at the end when it was not there; everything else is
    as before. *)
Lemma outcome_created (cfg : OpenClawConfig) (a : str) (b : Binding) (bound : bool)
    (counted : nat) (limit : option Z) (write : result unit)
    (out : result Created * list Effect) (r : Created) :
  outcome cfg a b bound counted limit write out -> out.1 = Ok r ->
  (created r = false /\ updatedCfg r = cfg)
  \/ (created r = true /\ r_agentId r = Some a /\ bound = false
      /\ (forall m, limit = Some m -> (Z.of_nat counted < m)%Z)
      /\ existing_bindings (updatedCfg r) = existing_bindings cfg ++ [b]
      /\ cfg_rest (updatedCfg r) = cfg_rest cfg
      /\ ((a ∈ agent_ids cfg /\ agent_list (updatedCfg r) = agent_list cfg)
          \/ ((a ∉ agent_ids cfg)
              /\ exists ws dir,
                   agent_list (updatedCfg r)
                   = agent_list cfg ++ [mkAgent a (Some ws) (Some dir) []]))
      /\ write = Ok tt
      /\ exists before, out.2 = before ++ [WriteConfigFile (updatedCfg r)]).
Proof.
  intros Hout Hr. destruct Hout as [r0 Hb Hc Hu|m l Hb Hm Hge|logs Hb Hlim Hin
                                    |ws dir logs mkdir1 mkdir2 Hb Hlim Hnin].
  - simpl in Hr. injection Hr as <-. now left.
  - simpl in Hr. injection Hr as <-. now left.
  - right. unfold add_binding in *. destruct write as [[]|e]; [|discriminate].
    simpl in Hr. injection Hr as <-. simpl.
    repeat apply conj; eauto.
  - right. unfold create_agent in *.
    destruct mkdir1 as [[]|e1]; [|discriminate].
    destruct mkdir2 as [[]|e2]; [|discriminate].
    destruct write as [[]|e]; [|discriminate].
    simpl in Hr. injection Hr as <-. simpl.
    repeat apply conj; auto.
    + right. split; [exact Hnin|]. eauto.
    + exists (logs ++ [Mkdir ws; Mkdir dir]). now rewrite <- app_assoc.
Qed.

Lemma NoDup_snoc (l : list str) (a : str) : NoDup l -> a ∉ l -> NoDup (l ++ [a]).
Proof.
  intros Hl Ha. apply NoDup_app. split; [exact Hl|]. split.
  - intros x Hx Hx'. apply list_elem_of_singleton in Hx'. congruence.
  - apply NoDup_singleton.
Qed.

(** The agents counted by a test on the id, after a call made with a
    limit: as many as before, or one more when the limit was not
    reached. *)
Lemma outcome_counted (P : Agent -> bool) (cfg : OpenClawConfig) (a : str) (b : Binding)
    (bound : bool) (limit : option Z) (write : result unit)
    (out : result Created * list Effect) (r : Created) (m : Z) :
  outcome cfg a b bound (length (List.filter P (agent_list cfg))) limit write out ->
  out.1 = Ok r -> limit = Some m ->
  (Z.of_nat (length (List.filter P (agent_list cfg))) <= m)%Z ->
  (Z.of_nat (length (List.filter P (agent_list (updatedCfg r)))) <= m)%Z.
Proof.
  intros Hout Hr Hm Hle.
  destruct (outcome_created _ _ _ _ _ _ _ _ _ Hout Hr)
    as [[_ ->]|(_ & _ & _ & Hlim & _ & _ & [[_ ->]|(_ & ws & dir & ->)] & _)]; auto.
  specialize (Hlim m Hm). rewrite List.filter_app, length_app. simpl.
  destruct (P _); simpl; lia.
Qed.

Lemma friendly_id_prefix (senderOpenId : str) (senderName : option str) :
  startsWith (lit "feishu-") (generateFriendlyAgentId senderOpenId senderName) = true.
Proof.
  unfold generateFriendlyAgentId. destruct (given senderName); apply startsWith_app.
Qed.

Lemma group_id_prefix (m chatId senderOpenId : str) :
  startsWith (lit "feishu-user-") (group_agent_id m chatId senderOpenId)
  || startsWith (lit "feishu-session-") (group_agent_id m chatId senderOpenId) = true.
Proof.
  unfold group_agent_id. destruct (str_eqb m (lit "per-user")).
  - now rewrite startsWith_app.
  - rewrite (startsWith_app (lit "feishu-session-")). apply orb_true_r.
Qed.

(** A binding added, and an agent created, field by field. *)
Lemma add_binding_exact (cfg : OpenClawConfig) (a : str) (b : Binding)
    (logs : list Effect) (write : result unit) (r : Created) :
  (add_binding cfg a b logs write).1 = Ok r ->
  write = Ok tt
  /\ r = mkCreated true
           (mkCfg (agents cfg) (Some (default [] (bindings cfg) ++ [b])) (cfg_rest cfg))
           (Some a)
  /\ (add_binding cfg a b logs write).2 = logs ++ [WriteConfigFile (updatedCfg r)].
Proof.
  unfold add_binding. destruct write as [[]|e]; [|discriminate].
  simpl. intros [= <-]. auto.
Qed.

Lemma create_agent_exact (cfg : OpenClawConfig) (a ws dir : str) (b : Binding)
    (logs : list Effect) (mkdir1 mkdir2 write : result unit) (r : Created) :
  (create_agent cfg a ws dir b logs mkdir1 mkdir2 write).1 = Ok r ->
  mkdir1 = Ok tt /\ mkdir2 = Ok tt /\ write = Ok tt
  /\ r = mkCreated true
           (mkCfg
              (Some (mkAgents
                       (Some (default [] (agents cfg ≫= list_)
                              ++ [mkAgent a (Some ws) (Some dir) []]))
                       (match agents cfg with Some x => agents_rest x | None => [] end)))
              (Some (default [] (bindings cfg) ++ [b])) (cfg_rest cfg))
           (Some a)
  /\ (create_agent cfg a ws dir b logs mkdir1 mkdir2 write).2
     = logs ++ [Mkdir ws; Mkdir dir; WriteConfigFile (updatedCfg r)].
Proof.
  unfold create_agent.
  destruct mkdir1 as [[]|e1]; [|discriminate].
  destruct mkdir2 as [[]|e2]; [|discriminate].
  destruct write as [[]|e]; [|discriminate].
  simpl. intros [= <-]. auto 6.
Qed.

(** The configuration a creation returns, for the agent [a], the
    binding [b], the two directories and the lines logged on each of the
    two ways. *)
Lemma created_exact (cfg : OpenClawConfig) (a ws dir : str) (b : Binding)
    (line : Effect) (lines : list Effect) (mkdir1 mkdir2 write : result unit)
    (out : result Created * list Effect) (r : Created) :
  (a ∈ agent_ids cfg /\ out = add_binding cfg a b [line] write)
  \/ ((a ∉ agent_ids cfg)
      /\ out = create_agent cfg a ws dir b lines mkdir1 mkdir2 write) ->
  out.1 = Ok r ->
  created r = true /\ r_agentId r = Some a /\ write = Ok tt
  /\ bindings (updatedCfg r) = Some (default [] (bindings cfg) ++ [b])
  /\ cfg_rest (updatedCfg r) = cfg_rest cfg
  /\ ((a ∈ agent_ids cfg
       /\ agents (updatedCfg r) = agents cfg
       /\ out.2 = [line; WriteConfigFile (updatedCfg r)])
      \/ ((a ∉ agent_ids cfg) /\ mkdir1 = Ok tt /\ mkdir2 = Ok tt
          /\ agents (updatedCfg r)
             = Some (mkAgents
                       (Some (default [] (agents cfg ≫= list_)
                              ++ [mkAgent a (Some ws) (Some dir) []]))
                       (match agents cfg with Some x => agents_rest x | None => [] end))
          /\ out.2 = lines ++ [Mkdir ws; Mkdir dir; WriteConfigFile (updatedCfg r)]))
  /\ a ∈ agent_ids (updatedCfg r)
  /\ (NoDup (agent_ids cfg) -> NoDup (agent_ids (updatedCfg r))).
Proof.
  intros [[Hin ->]|[Hnin ->]] Hr.
  - destruct (add_binding_exact _ _ _ _ _ _ Hr) as (Hw & -> & Ho). simpl in *.
    repeat apply conj; auto.
  - destruct (create_agent_exact _ _ _ _ _ _ _ _ _ _ Hr) as (H1 & H2 & Hw & -> & Ho).
    simpl in *. repeat apply conj; auto.
    + right. auto.
    + unfold agent_ids, agent_list. simpl. rewrite map_app.
      apply elem_of_app. right. left.
    + unfold agent_ids, agent_list in *. simpl. rewrite map_app. intros Hnd.
      now apply NoDup_snoc.
Qed.

(** *** Direct messages *)

(** An agent is created once for a sender: after a call that reports a
    creation, a call for the same sender on the configuration returned
    does nothing: it reports no creation, returns that configuration,
    logs nothing, makes no directory and writes no file, whatever the
    name, the settings and the limit. *)
Theorem direct_agent_created_once (env : Env) (cfg : OpenClawConfig)
    (senderOpenId : str) (senderName : option str) (dynamicCfg : DynamicAgentCreationConfig)
    (mkdir1 mkdir2 write : result unit) (r : Created) :
  (maybeCreateDynamicAgent env cfg senderOpenId senderName dynamicCfg
     mkdir1 mkdir2 write).1 = Ok r ->
  created r = true ->
  forall env' senderName' dynamicCfg' mkdir1' mkdir2' write',
    maybeCreateDynamicAgent env' (updatedCfg r) senderOpenId senderName' dynamicCfg'
      mkdir1' mkdir2' write'
    = (Ok (mkCreated false (updatedCfg r) None), []).
Proof.
  intros Hr Hc env' name' dcfg' m1' m2' w'.
  destruct (outcome_created _ _ _ _ _ _ _ _ _
              (direct_outcome env cfg senderOpenId senderName dynamicCfg mkdir1 mkdir2 write)
              Hr) as [[Hc' _]|(_ & _ & _ & _ & Hb & _)]; [congruence|].
  unfold maybeCreateDynamicAgent. rewrite Hb, bound_after. reflexivity.
Qed.

Lemma direct_agent_created_once_witness :
  maybeCreateDynamicAgent an_env ann_config (dm_sender ann) None default_dynamic
    done done done
  = (Ok (mkCreated false ann_config None), []).
Proof.
  exact (direct_agent_created_once an_env no_config (dm_sender ann) (dm_name ann)
           default_dynamic done done done
           (mkCreated true ann_config (Some ann_agent_id))
           ltac:(vm_compute; reflexivity) eq_refl
           an_env None default_dynamic done done done).
Defined.

(** The limit holds: with [maxAgents] set, the agents whose id starts
    with [feishu-] never become more than [maxAgents] through the calls of
    the function, each made on the configuration the call before
    returned, when they were not more at first. *)
Theorem direct_agents_within_limit (env : Env) (dynamicCfg : DynamicAgentCreationConfig)
    (m : Z) (cfg : OpenClawConfig) (msgs : list DirectMessage) :
  maxAgents dynamicCfg = Some m ->
  (Z.of_nat (length (feishu_agents cfg)) <= m)%Z ->
  (Z.of_nat (length (feishu_agents (fold_left (after_direct env dynamicCfg) msgs cfg)))
   <= m)%Z.
Proof.
  intros Hm. revert cfg. induction msgs as [|msg msgs IH]; intros cfg Hle; [exact Hle|].
  simpl. apply IH. unfold after_direct.
  pose proof (direct_outcome env cfg (dm_sender msg) (dm_name msg) dynamicCfg
                (dm_mkdir1 msg) (dm_mkdir2 msg) (dm_write msg)) as Hout.
  destruct (maybeCreateDynamicAgent _ _ _ _ _ _ _ _).1 as [r|e] eqn:Hr; [|exact Hle].
  exact (outcome_counted _ _ _ _ _ _ _ _ _ m Hout Hr Hm Hle).
Qed.

Lemma direct_agents_within_limit_witness :
  length (feishu_agents (fold_left (after_direct an_env default_dynamic)
                           [ann; bob; cyd] no_config)) = 2%nat
  /\ (Z.of_nat (length (feishu_agents (fold_left (after_direct an_env default_dynamic)
                                         [ann; bob; cyd] no_config))) <= 2)%Z.
Proof.
  split; [vm_compute; reflexivity|].
  apply (direct_agents_within_limit an_env default_dynamic 2 no_config [ann; bob; cyd]);
    [reflexivity|simpl; lia].
Defined.

(** A creation that is reported is in the configuration and on disk.
    When the call reports a creation, the write of the configuration it
    returns has succeeded and is the last thing the call did.  That
    configuration has the binding of the sender to the agent (channel
    [feishu], peer of kind [direct]) added at the end of the bindings and
    keeps its other fields.  When the agent was in the list, the agents
    are as they were and the call logged one line before the write.  When
    it was not, the two directories were made, the workspace first, the
    agent is added at the end of the list with the workspace and the agent
    directory computed from the templates, and the other fields of
    [agents] are kept.  The agent ids stay distinct.  When the call
    reports no creation the configuration is returned as it was.  The id
    of the agent starts with [feishu-]. *)
Theorem direct_creation_extends_config (env : Env) (cfg : OpenClawConfig)
    (senderOpenId : str) (senderName : option str) (dynamicCfg : DynamicAgentCreationConfig)
    (mkdir1 mkdir2 write : result unit) (r : Created) :
  let a := generateFriendlyAgentId senderOpenId senderName in
  let b := mkBinding a
             (Some (mkMatch (Some (lit "feishu"))
                      (Some (mkPeer (lit "direct") senderOpenId)) [])) [] in
  let ws := resolveUserPath env
              (replace (lit "{agentId}") a
                 (replace (lit "{userId}") senderOpenId
                    (default (lit "~/.openclaw/workspace-{agentId}")
                       (workspaceTemplate dynamicCfg)))) in
  let dir := resolveUserPath env
               (replace (lit "{agentId}") a
                  (replace (lit "{userId}") senderOpenId
                     (default (lit "~/.openclaw/agents/{agentId}/agent")
                        (agentDirTemplate dynamicCfg)))) in
  let out := maybeCreateDynamicAgent env cfg senderOpenId senderName dynamicCfg
               mkdir1 mkdir2 write in
  out.1 = Ok r ->
  startsWith (lit "feishu-") a = true
  /\ (created r = false -> updatedCfg r = cfg)
  /\ (created r = true ->
      r_agentId r = Some a /\ write = Ok tt
      /\ bindings (updatedCfg r) = Some (default [] (bindings cfg) ++ [b])
      /\ cfg_rest (updatedCfg r) = cfg_rest cfg
      /\ ((a ∈ agent_ids cfg
           /\ agents (updatedCfg r) = agents cfg
           /\ out.2 = [Log (AgentExists a senderOpenId); WriteConfigFile (updatedCfg r)])
          \/ ((a ∉ agent_ids cfg) /\ mkdir1 = Ok tt /\ mkdir2 = Ok tt
              /\ agents (updatedCfg r)
                 = Some (mkAgents
                           (Some (default [] (agents cfg ≫= list_)
                                  ++ [mkAgent a (Some ws) (Some dir) []]))
                           (match agents cfg with
                            | Some x => agents_rest x
                            | None => []
                            end))
              /\ out.2 = [Log (Creating a senderOpenId); Log (WorkspaceLine ws);
                          Log (AgentDirLine dir); Mkdir ws; Mkdir dir;
                          WriteConfigFile (updatedCfg r)]))
      /\ a ∈ agent_ids (updatedCfg r)
      /\ (NoDup (agent_ids cfg) -> NoDup (agent_ids (updatedCfg r)))).
Proof.
  intros a b ws dir out Hr. split; [apply friendly_id_prefix|].
  assert (out = (Ok (mkCreated false cfg None), [])
          \/ (exists m, out = (Ok (mkCreated false cfg None),
                               [Log (LimitReached m senderOpenId)]))
          \/ (a ∈ agent_ids cfg
              /\ out = add_binding cfg a b [Log (AgentExists a senderOpenId)] write)
          \/ ((a ∉ agent_ids cfg)
              /\ out = create_agent cfg a ws dir b
                         [Log (Creating a senderOpenId); Log (WorkspaceLine ws);
                          Log (AgentDirLine dir)] mkdir1 mkdir2 write)) as Hcases.
  { subst out. unfold maybeCreateDynamicAgent.
    destruct (existsb _ (existing_bindings cfg)); [now left|]. cbv zeta.
    pose proof (find_id a (agent_list cfg)) as Hf. fold a.
    destruct (maxAgents dynamicCfg) as [m|];
      [destruct (_ >=? m)%Z; [right; left; eauto|]|];
      (destruct (List.find _ (agent_list cfg));
       [right; right; left; split; [exact Hf|reflexivity]
       |right; right; right; split; [exact Hf|reflexivity]]). }
  destruct Hcases as [E|[[m E]|Hmade]].
  - rewrite E in Hr. simpl in Hr. injection Hr as <-. simpl.
    split; [reflexivity|discriminate].
  - rewrite E in Hr. simpl in Hr. injection Hr as <-. simpl.
    split; [reflexivity|discriminate].
  - destruct (created_exact cfg a ws dir b _ _ mkdir1 mkdir2 write out r Hmade Hr)
      as (Hc & Hrest).
    split; [congruence|]. intros _. exact Hrest.
Qed.

Lemma direct_creation_extends_config_witness :
  ann_agent_id ∈ agent_ids ann_config.
Proof.
  destruct (direct_creation_extends_config an_env no_config (dm_sender ann) (dm_name ann)
              default_dynamic done done done
              (mkCreated true ann_config (Some ann_agent_id))
              ltac:(vm_compute; reflexivity)) as (_ & _ & H).
  destruct (H eq_refl) as (_ & _ & _ & _ & _ & Hin & _).
  exact Hin.
Defined.

(** *** Group chats *)

(** An agent is created once for a member of a group: after a call
    that reports a creation, a call for the same chat and sender with the
    same mode on the configuration returned does nothing: it reports no
    creation, returns that configuration with the id of the agent, logs
    nothing, makes no directory and writes no file. *)
Theorem group_agent_created_once (env : Env) (cfg : OpenClawConfig)
    (chatId senderOpenId : str) (groupCfg : GroupUserWorkspaceConfig)
    (mkdir1 mkdir2 write : result unit) (r : Created) :
  (maybeCreateGroupUserAgent env cfg chatId senderOpenId groupCfg
     mkdir1 mkdir2 write).1 = Ok r ->
  created r = true ->
  forall env' groupCfg' mkdir1' mkdir2' write',
    mode groupCfg' = mode groupCfg ->
    maybeCreateGroupUserAgent env' (updatedCfg r) chatId senderOpenId groupCfg'
      mkdir1' mkdir2' write'
    = (Ok (mkCreated false (updatedCfg r) (r_agentId r)), []).
Proof.
  intros Hr Hc env' gcfg' m1' m2' w' Hmode.
  destruct (outcome_created _ _ _ _ _ _ _ _ _
              (group_outcome env cfg chatId senderOpenId groupCfg mkdir1 mkdir2 write)
              Hr) as [[Hc' _]|(_ & Ha & _ & _ & Hb & _)]; [congruence|].
  unfold maybeCreateGroupUserAgent. rewrite Hmode, Hb, bound_after, Ha. reflexivity.
Qed.

Lemma group_agent_created_once_witness :
  maybeCreateGroupUserAgent an_env team_config (gm_chat ann_in_team) (gm_sender ann_in_team)
    default_group done done done
  = (Ok (mkCreated false team_config (Some team_agent_id)), []).
Proof.
  exact (group_agent_created_once an_env no_config (gm_chat ann_in_team)
           (gm_sender ann_in_team) default_group done done done
           (mkCreated true team_config (Some team_agent_id))
           ltac:(vm_compute; reflexivity) eq_refl
           an_env default_group done done done eq_refl).
Defined.

(** The limit holds for groups: with [maxAgents] set, the agents whose
    id starts with [feishu-user-] or [feishu-session-] never become more
    than [maxAgents] through the calls of the function, each made on the
    configuration the call before returned, when they were not more at
    first. *)
Theorem group_agents_within_limit (env : Env) (groupCfg : GroupUserWorkspaceConfig)
    (m : Z) (cfg : OpenClawConfig) (msgs : list GroupMessage) :
  g_maxAgents groupCfg = Some m ->
  (Z.of_nat (length (group_agents cfg)) <= m)%Z ->
  (Z.of_nat (length (group_agents (fold_left (after_group env groupCfg) msgs cfg)))
   <= m)%Z.
Proof.
  intros Hm. revert cfg. induction msgs as [|msg msgs IH]; intros cfg Hle; [exact Hle|].
  simpl. apply IH. unfold after_group.
  pose proof (group_outcome env cfg (gm_chat msg) (gm_sender msg) groupCfg
                (gm_mkdir1 msg) (gm_mkdir2 msg) (gm_write msg)) as Hout.
  cbv zeta in Hout.
  destruct (maybeCreateGroupUserAgent _ _ _ _ _ _ _ _).1 as [r|e] eqn:Hr; [|exact Hle].
  exact (outcome_counted _ _ _ _ _ _ _ _ _ m Hout Hr Hm Hle).
Qed.

Lemma group_agents_within_limit_witness :
  length (group_agents (fold_left (after_group an_env default_group)
                          [ann_in_team; bob_in_team; ann_in_club] no_config)) = 2%nat
  /\ (Z.of_nat (length (group_agents (fold_left (after_group an_env default_group)
                                        [ann_in_team; bob_in_team; ann_in_club]
                                        no_config))) <= 2)%Z.
Proof.
  split; [vm_compute; reflexivity|].
  apply (group_agents_within_limit an_env default_group 2 no_config
           [ann_in_team; bob_in_team; ann_in_club]); [reflexivity|simpl; lia].
Defined.

(** A creation that is reported for a group is in the configuration
    and on disk, as for a direct message.  The write of the configuration
    returned has succeeded and is the last thing the call did.  The
    binding of the peer (the sender, or the chat and the sender, by the
    mode; channel [feishu], kind [group]) to the agent is added at the end
    of the bindings, and the other fields are kept.  When the agent was
    in the list, the agents are as they were and the call logged one line
    before the write.  When it was not, the two directories were made,
    the workspace first, the agent is added at the end of the list with
    the workspace and the agent directory computed from the templates,
    and the other fields of [agents] are kept.  The agent ids stay
    distinct.  The id of the agent starts with [feishu-user-] or
    [feishu-session-]. *)
Theorem group_creation_extends_config (env : Env) (cfg : OpenClawConfig)
    (chatId senderOpenId : str) (groupCfg : GroupUserWorkspaceConfig)
    (mkdir1 mkdir2 write : result unit) (r : Created) :
  let m := default (lit "per-session") (mode groupCfg) in
  let a := if str_eqb m (lit "per-user") then lit "feishu-user-" ++ senderOpenId
           else lit "feishu-session-" ++ chatId ++ lit "-" ++ senderOpenId in
  let peerId := if str_eqb m (lit "per-user") then senderOpenId
                else chatId ++ lit ":" ++ senderOpenId in
  let b := mkBinding a
             (Some (mkMatch (Some (lit "feishu")) (Some (mkPeer (lit "group") peerId)) []))
             [] in
  let fill (t : str) :=
    replace (lit "{agentId}") a
      (replace (lit "{userId}") senderOpenId (replace (lit "{chatId}") chatId t)) in
  let ws := resolveUserPath env
              (fill (default (lit "~/.openclaw/workspace-{agentId}")
                       (g_workspaceTemplate groupCfg))) in
  let dir := resolveUserPath env
               (fill (default (lit "~/.openclaw/agents/{agentId}/agent")
                        (g_agentDirTemplate groupCfg))) in
  let out := maybeCreateGroupUserAgent env cfg chatId senderOpenId groupCfg
               mkdir1 mkdir2 write in
  out.1 = Ok r ->
  startsWith (lit "feishu-user-") a || startsWith (lit "feishu-session-") a = true
  /\ (created r = false -> updatedCfg r = cfg)
  /\ (created r = true ->
      r_agentId r = Some a /\ write = Ok tt
      /\ bindings (updatedCfg r) = Some (default [] (bindings cfg) ++ [b])
      /\ cfg_rest (updatedCfg r) = cfg_rest cfg
      /\ ((a ∈ agent_ids cfg
           /\ agents (updatedCfg r) = agents cfg
           /\ out.2 = [Log (GroupAgentExists a peerId); WriteConfigFile (updatedCfg r)])
          \/ ((a ∉ agent_ids cfg) /\ mkdir1 = Ok tt /\ mkdir2 = Ok tt
              /\ agents (updatedCfg r)
                 = Some (mkAgents
                           (Some (default [] (agents cfg ≫= list_)
                                  ++ [mkAgent a (Some ws) (Some dir) []]))
                           (match agents cfg with
                            | Some x => agents_rest x
                            | None => []
                            end))
              /\ out.2 = [Log (GroupCreating a senderOpenId chatId); Log (ModeLine m);
                          Log (WorkspaceLine ws); Log (AgentDirLine dir);
                          Mkdir ws; Mkdir dir; WriteConfigFile (updatedCfg r)]))
      /\ a ∈ agent_ids (updatedCfg r)
      /\ (NoDup (agent_ids cfg) -> NoDup (agent_ids (updatedCfg r)))).
Proof.
  intros m a peerId b fill ws dir out Hr.
  split; [apply (group_id_prefix m chatId senderOpenId)|].
  assert (out = (Ok (mkCreated false cfg (Some a)), [])
          \/ (exists n, out = (Ok (mkCreated false cfg None),
                               [Log (GroupLimitReached n senderOpenId)]))
          \/ (a ∈ agent_ids cfg
              /\ out = add_binding cfg a b [Log (GroupAgentExists a peerId)] write)
          \/ ((a ∉ agent_ids cfg)
              /\ out = create_agent cfg a ws dir b
                         [Log (GroupCreating a senderOpenId chatId); Log (ModeLine m);
                          Log (WorkspaceLine ws); Log (AgentDirLine dir)]
                         mkdir1 mkdir2 write)) as Hcases.
  { subst out. unfold maybeCreateGroupUserAgent. fold m. cbv zeta.
    change (group_agent_id m chatId senderOpenId) with a.
    change (group_peer_id m chatId senderOpenId) with peerId.
    destruct (existsb _ (existing_bindings cfg)); [now left|].
    pose proof (find_id a (agent_list cfg)) as Hf.
    destruct (g_maxAgents groupCfg) as [n|];
      [destruct (_ >=? n)%Z; [right; left; eauto|]|];
      (destruct (List.find _ (agent_list cfg));
       [right; right; left; split; [exact Hf|reflexivity]
       |right; right; right; split; [exact Hf|reflexivity]]). }
  destruct Hcases as [E|[[n E]|Hmade]].
  - rewrite E in Hr. simpl in Hr. injection Hr as <-. simpl.
    split; [reflexivity|discriminate].
  - rewrite E in Hr. simpl in Hr. injection Hr as <-. simpl.
    split; [reflexivity|discriminate].
  - destruct (created_exact cfg a ws dir b _ _ mkdir1 mkdir2 write out r Hmade Hr)
      as (Hc & Hrest).
    split; [congruence|]. intros _. exact Hrest.
Qed.

Lemma group_creation_extends_config_witness :
  team_agent_id ∈ agent_ids team_config.
Proof.
  destruct (group_creation_extends_config an_env no_config (gm_chat ann_in_team)
              (gm_sender ann_in_team) default_group done done done
              (mkCreated true team_config (Some team_agent_id))
              ltac:(vm_compute; reflexivity)) as (_ & _ & H).
  destruct (H eq_refl) as (_ & _ & _ & _ & _ & Hin & _).
  exact Hin.
Defined.

(** *** The two limits together *)

Lemma startsWith_shorter (p q s : str) :
  startsWith (p ++ q) s = true -> startsWith p s = true.
Proof.
  revert s. induction p as [|a p IH]; intros s H; [reflexivity|].
  destruct s as [|b s]; [discriminate|]. simpl in *.
  apply andb_prop in H as [-> H]. now rewrite (IH _ H).
Qed.

Lemma filter_length_le {A} (f g : A -> bool) (l : list A) :
  (forall x, f x = true -> g x = true) ->
  (length (List.filter f l) <= length (List.filter g l))%nat.
Proof.
  intros Hfg. induction l as [|x l IH]; [reflexivity|]. simpl.
  destruct (f x) eqn:E.
  - rewrite (Hfg x E). simpl. lia.
  - destruct (g x); simpl; lia.
Qed.

(** The agents of the groups count against the limit of the direct
    messages: an agent counted for the groups is counted for the direct
    messages too, its id starting with [feishu-]; so once the group
    agents are [maxAgents] of the direct messages or more, no agent is
    created for a direct message: a sender without a binding gets none,
    nothing is written, and only the line on the limit is logged. *)
Theorem group_agents_use_up_direct_limit (env : Env) (cfg : OpenClawConfig)
    (senderOpenId : str) (senderName : option str) (dynamicCfg : DynamicAgentCreationConfig)
    (mkdir1 mkdir2 write : result unit) (m : Z) :
  maxAgents dynamicCfg = Some m -> (m <= Z.of_nat (length (group_agents cfg)))%Z ->
  (length (group_agents cfg) <= length (feishu_agents cfg))%nat
  /\ (maybeCreateDynamicAgent env cfg senderOpenId senderName dynamicCfg
        mkdir1 mkdir2 write).1 = Ok (mkCreated false cfg None)
  /\ Forall (fun e => match e with Log (LimitReached _ _) => True | _ => False end)
       (maybeCreateDynamicAgent env cfg senderOpenId senderName dynamicCfg
          mkdir1 mkdir2 write).2.
Proof.
  intros Hm Hle.
  assert (length (group_agents cfg) <= length (feishu_agents cfg))%nat as Hcount.
  { apply filter_length_le. intros x [H|H]%orb_prop.
    - now apply (startsWith_shorter (lit "feishu-") (lit "user-")).
    - now apply (startsWith_shorter (lit "feishu-") (lit "session-")). }
  split; [exact Hcount|].
  unfold maybeCreateDynamicAgent.
  destruct (existsb _ (existing_bindings cfg)); [split; [reflexivity|constructor]|].
  cbv zeta. rewrite Hm.
  destruct (Z.geb_spec (Z.of_nat (length (feishu_agents cfg))) m) as [_|Hlt]; [|lia].
  split; [reflexivity|]. repeat constructor.
Qed.

Lemma group_agents_use_up_direct_limit_witness :
  (maybeCreateDynamicAgent an_env
     (fold_left (after_group an_env default_group) [ann_in_team; bob_in_team] no_config)
     (dm_sender cyd) (dm_name cyd) default_dynamic done done done).1
  = Ok (mkCreated false
          (fold_left (after_group an_env default_group) [ann_in_team; bob_in_team] no_config)
          None).
Proof.
  exact (proj1 (proj2 (group_agents_use_up_direct_limit an_env
                         (fold_left (after_group an_env default_group)
                            [ann_in_team; bob_in_team] no_config)
                         (dm_sender cyd) (dm_name cyd) default_dynamic done done done 2
                         eq_refl ltac:(vm_compute; discriminate)))).
Defined.

End DynamicAgentFacts.
